(** * medium-content-fetcher: a shallow embedding of [src/index.ts]

    The development has two parts.  Part I translates the pure core of the
    scraper (argument parsing, keyword filters, URL canonicalisation, the
    numeric token parser, the normalise/filter/rank pipeline, the persisted
    store loader and the incremental merge) into Rocq definitions, and with
    it the month stamp of the output file, the link test of
    [extractFromPage], the scroll loop of [autoScroll] and the loop of
    [main] over the tags.  Part II states and proves the properties of
    those definitions.

    Conventions of the embedding:
    - a JavaScript string is a [string]; each [ascii] is one code unit, so
      the model covers strings whose code units are below 256;
    - a JavaScript [number] is an IEEE-754 binary64 value, [spec_float] at
      precision 53 and exponent bound 1024, with the operations of the
      Standard Library's [SpecFloat];
    - the engagement counters of an article ([claps], [comments]) are
      integers or null, as in the data model, hence [option Z];
    - article objects live in a store ([heap]) and collections hold
      references, because [mergeArticles] writes to objects it shares with
      its caller;
    - what the browser and the file system do is an input of the model:
      the heights that the page reports to [autoScroll], the links of a
      container, the outcome of a scrape and of a write in [main]. *)

From Stdlib Require Import ZArith String Ascii List Bool Lia Permutation Sorted.
From Stdlib Require Import Numbers.DecimalString Floats.SpecFloat.
From Stdlib Require Numbers.DecimalZ Numbers.DecimalPos.
From stdpp Require Import gmap strings.
Import ListNotations.
Open Scope string_scope.

(* ================================================================== *)
(** * Part I: the model                                                *)
(* ================================================================== *)

(** ** JavaScript strings *)

Definition code (c : ascii) : N := N_of_ascii c.

Definition in_range (lo hi : N) (c : ascii) : bool :=
  ((lo <=? code c) && (code c <=? hi))%N.

(** [\d] of a regular expression without the unicode flag. *)
Definition is_digit (c : ascii) : bool := in_range 48 57 c.

(** White space and line terminators of ECMAScript (the ones below 256):
    TAB, LF, VT, FF, CR, SPACE and NO-BREAK SPACE. *)
Definition is_space (c : ascii) : bool :=
  in_range 9 13 c || (code c =? 32)%N || (code c =? 160)%N.

(** [String.prototype.toLowerCase] on one code unit: A-Z, and the Latin-1
    capitals U+00C0..U+00DE except the multiplication sign U+00D7. *)
Definition lower_char (c : ascii) : ascii :=
  if in_range 65 90 c || (in_range 192 222 c && negb (code c =? 215)%N)
  then ascii_of_N (code c + 32)
  else c.

Fixpoint toLowerCase (s : string) : string :=
  match s with
  | EmptyString => EmptyString
  | String c s' => String (lower_char c) (toLowerCase s')
  end.

Fixpoint trimStart (s : string) : string :=
  match s with
  | String c s' => if is_space c then trimStart s' else s
  | EmptyString => EmptyString
  end.

(** Drops the trailing white space: a character is kept when something
    that is not white space follows it or it is not white space itself. *)
Fixpoint trimEnd (s : string) : string :=
  match s with
  | EmptyString => EmptyString
  | String c s' =>
      match trimEnd s' with
      | EmptyString => if is_space c then EmptyString else String c EmptyString
      | t => String c t
      end
  end.

Definition trim (s : string) : string := trimEnd (trimStart s).

(** [hay.includes(needle)]: [needle] occurs at some position of [hay]. *)
Fixpoint includes (hay needle : string) : bool :=
  String.prefix needle hay ||
  match hay with
  | EmptyString => false
  | String _ hay' => includes hay' needle
  end.

(** [s.split(",")], accumulating the current piece in [cur]. *)
Fixpoint split_from (sep : ascii) (cur : string) (s : string) : list string :=
  match s with
  | EmptyString => [cur]
  | String c s' =>
      if Ascii.eqb c sep then cur :: split_from sep EmptyString s'
      else split_from sep (cur ++ String c EmptyString) s'
  end.

Definition split (sep : ascii) (s : string) : list string :=
  split_from sep EmptyString s.

(** Truthiness of a string: [Boolean(s)]. *)
Definition nonempty (s : string) : bool :=
  match s with EmptyString => false | _ => true end.

(** [s || d] for a nullable string: null and the empty string are falsy. *)
Definition str_or (s : option string) (d : string) : string :=
  match s with
  | Some (String c r) => String c r
  | _ => d
  end.

(** [(...).split(",").map(s => s.trim()).filter(Boolean)] *)
Definition csv (s : string) : list string :=
  List.filter nonempty (map trim (split "," s)).

(** ** JavaScript numbers *)

Definition number := spec_float.

Definition prec : Z := 53.
Definition emax : Z := 1024.

Definition NaN : number := S754_nan.
Definition Infinity : number := S754_infinity false.

(** The number whose value is the integer [z] (rounded to nearest even
    beyond 2^53). *)
Definition of_Z (z : Z) : number := binary_normalize prec emax z 0 false.

(** [x * y] *)
Definition mul (x y : number) : number := SFmul prec emax x y.

(** Truthiness of a number: NaN, +0 and -0 are falsy. *)
Definition truthy (x : number) : bool :=
  match x with
  | S754_nan | S754_zero _ => false
  | _ => true
  end.

(** [x || d] *)
Definition num_or (x d : number) : number := if truthy x then x else d.

(** The number nearest to [(-1)^neg * m * 10^e], ties to even: an exact
    integer is normalised, a proper fraction is the correctly rounded
    quotient of two integers. *)
Definition of_decimal (neg : bool) (m : N) (e : Z) : number :=
  match m with
  | N0 => S754_zero neg
  | Npos p =>
      match e with
      | Zneg k => SFdiv prec emax (S754_finite neg p 0)
                                  (S754_finite false (Pos.pow 10 k) 0)
      | _ => binary_normalize prec emax
               ((if neg then Z.neg p else Z.pos p) * 10 ^ e) 0 neg
      end
  end.

(** [Math.round]: the integer nearest to [x], ties towards +Infinity;
    NaN, the infinities and the zeros are returned as they are.  A finite
    [x] is [(-1)^s * m * 2^e]; for [e < 0] the result is
    [floor (x + 1/2)], computed exactly on integers. *)
Definition nearestInteger (s : bool) (m : positive) (e : Z) : Z :=
  let sm := if s then Z.neg m else Z.pos m in
  let d := (2 ^ (- e))%Z in
  ((2 * sm + d) / (2 * d))%Z.

Definition Math_round (x : number) : number :=
  match x with
  | S754_finite s m e =>
      if (0 <=? e)%Z then x
      else binary_normalize prec emax (nearestInteger s m e) 0 s
  | _ => x
  end.

(** [ToIntegerOrInfinity]: NaN and the zeros give 0, a finite number is
    truncated towards zero. *)
Inductive integerOrInfinity :=
  | MinusInfinity
  | Integer (z : Z)
  | PlusInfinity.

Definition toIntegerOrInfinity (x : number) : integerOrInfinity :=
  match x with
  | S754_nan | S754_zero _ => Integer 0
  | S754_infinity false => PlusInfinity
  | S754_infinity true => MinusInfinity
  | S754_finite s m e =>
      let a := if (0 <=? e)%Z then (Z.pos m * 2 ^ e)%Z
               else (Z.pos m / 2 ^ (- e))%Z in
      Integer (if s then (- a)%Z else a)
  end.

(** [l.slice(0, end)]: a negative [end] counts from the end of the array,
    and the result never reaches past the array. *)
Definition slice_to {A} (l : list A) (last : number) : list A :=
  match toIntegerOrInfinity last with
  | MinusInfinity => []
  | PlusInfinity => l
  | Integer z =>
      if (z <? 0)%Z then firstn (Z.to_nat (Z.max (Z.of_nat (length l) + z) 0)) l
      else firstn (Z.to_nat z) l
  end.

(** [z >= x] for an integer [z] and a number [x], compared exactly; a
    comparison with NaN is false. *)
Definition Z_ge_number (z : Z) (x : number) : bool :=
  match x with
  | S754_nan => false
  | S754_infinity s => s
  | S754_zero _ => (0 <=? z)%Z
  | S754_finite s m e =>
      let sm := if s then Z.neg m else Z.pos m in
      if (0 <=? e)%Z then (sm * 2 ^ e <=? z)%Z
      else (sm <=? z * 2 ^ (- e))%Z
  end.

(** *** [Number(s)]: the StringToNumber conversion *)

Fixpoint span (p : ascii -> bool) (s : string) : string * string :=
  match s with
  | String c s' =>
      if p c then let (a, b) := span p s' in (String c a, b)
      else (EmptyString, s)
  | EmptyString => (EmptyString, EmptyString)
  end.

Fixpoint forall_chars (p : ascii -> bool) (s : string) : bool :=
  match s with
  | EmptyString => true
  | String c s' => p c && forall_chars p s'
  end.

(** The value of a digit in a radix up to 16, when the character is one. *)
Definition digit_value (radix : N) (c : ascii) : option N :=
  let v := if is_digit c then Some (code c - 48)%N
           else if in_range 97 102 c then Some (code c - 87)%N
           else if in_range 65 70 c then Some (code c - 55)%N
           else None in
  match v with
  | Some d => if (d <? radix)%N then Some d else None
  | None => None
  end.

(** The integer written by a string of digits, most significant first;
    [None] when a character is not a digit of the radix. *)
Fixpoint digits_value (radix : N) (acc : N) (s : string) : option N :=
  match s with
  | EmptyString => Some acc
  | String c s' =>
      match digit_value radix c with
      | Some d => digits_value radix (acc * radix + d)%N s'
      | None => None
      end
  end.

(** The value of a string of decimal digits (0 for a string that is not
    one; the callers pass digits only). *)
Definition decimal_value (s : string) : N :=
  default 0%N (digits_value 10 0 s).

(** ExponentPart: [e] or [E], an optional sign and at least one digit,
    up to the end of the string; no exponent part is exponent 0. *)
Definition exponent_part (s : string) : option Z :=
  match s with
  | EmptyString => Some 0%Z
  | String c r =>
      if Ascii.eqb c "e" || Ascii.eqb c "E" then
        let '(neg, ds) :=
          match r with
          | String "+" r' => (false, r')
          | String "-" r' => (true, r')
          | _ => (false, r)
          end in
        if nonempty ds && forall_chars is_digit ds then
          let v := Z.of_N (decimal_value ds) in
          Some (if neg then (- v)%Z else v)
        else None
      else None
  end.

(** StrUnsignedDecimalLiteral other than [Infinity]: digits, an optional
    point and digits, an optional exponent; at least one digit before the
    exponent. *)
Definition unsigned_decimal (neg : bool) (s : string) : number :=
  let (ip, r1) := span is_digit s in
  let (fp, r2) :=
    match r1 with
    | String "." r => span is_digit r
    | _ => (EmptyString, r1)
    end in
  if nonempty ip || nonempty fp then
    match exponent_part r2 with
    | Some ex =>
        of_decimal neg (decimal_value (ip ++ fp))
                   (ex - Z.of_nat (String.length fp))
    | None => NaN
    end
  else NaN.

(** NonDecimalIntegerLiteral: [0x], [0o] or [0b] and at least one digit
    of that radix; it takes no sign. *)
Definition non_decimal (s : string) : option number :=
  match s with
  | String "0" (String c r) =>
      let radix :=
        if Ascii.eqb c "x" || Ascii.eqb c "X" then Some 16%N
        else if Ascii.eqb c "o" || Ascii.eqb c "O" then Some 8%N
        else if Ascii.eqb c "b" || Ascii.eqb c "B" then Some 2%N
        else None in
      match radix with
      | Some b =>
          Some (if nonempty r then
                  match digits_value b 0 r with
                  | Some v => of_Z (Z.of_N v)
                  | None => NaN
                  end
                else NaN)
      | None => None
      end
  | _ => None
  end.

Definition Number (s : string) : number :=
  let t := trim s in
  match t with
  | EmptyString => S754_zero false
  | String c r =>
      match non_decimal t with
      | Some x => x
      | None =>
          let '(neg, u) :=
            if Ascii.eqb c "+" then (false, r)
            else if Ascii.eqb c "-" then (true, r)
            else (false, t) in
          if String.eqb u "Infinity" then S754_infinity neg
          else unsigned_decimal neg u
      end
  end.

(** ** Command line: [parseArgs] *)

Record ParsedArgs := {
  tags : list string;
  scrolls : number;
  minClaps : number;
  limit : number;
  include : list string;
  exclude : list string;
  headless : bool
}.

(** The state of the option loop; [tags] is fixed before the loop. *)
Definition defaults (ts : list string) : ParsedArgs :=
  {| tags := ts; scrolls := of_Z 6; minClaps := of_Z 0; limit := of_Z 30;
     include := []; exclude := []; headless := true |}.

Definition is_option (a : string) : bool :=
  String.eqb a "--scrolls" || String.eqb a "--minClaps" ||
  String.eqb a "--limit" || String.eqb a "--include" ||
  String.eqb a "--exclude" || String.eqb a "--headless".

(** One branch of the loop body for the option [a]; [v] is [args[++i]],
    [None] when the index is past the end of the array (undefined). *)
Definition set_option (a : string) (v : option string) (p : ParsedArgs)
  : ParsedArgs :=
  if String.eqb a "--scrolls" then
    {| tags := tags p; scrolls := num_or (Number (default "6" v)) (of_Z 6);
       minClaps := minClaps p; limit := limit p; include := include p;
       exclude := exclude p; headless := headless p |}
  else if String.eqb a "--minClaps" then
    {| tags := tags p; scrolls := scrolls p;
       minClaps := num_or (Number (default "0" v)) (of_Z 0);
       limit := limit p; include := include p;
       exclude := exclude p; headless := headless p |}
  else if String.eqb a "--limit" then
    {| tags := tags p; scrolls := scrolls p; minClaps := minClaps p;
       limit := num_or (Number (default "30" v)) (of_Z 30);
       include := include p; exclude := exclude p; headless := headless p |}
  else if String.eqb a "--include" then
    {| tags := tags p; scrolls := scrolls p; minClaps := minClaps p;
       limit := limit p; include := csv (str_or v "");
       exclude := exclude p; headless := headless p |}
  else if String.eqb a "--exclude" then
    {| tags := tags p; scrolls := scrolls p; minClaps := minClaps p;
       limit := limit p; include := include p;
       exclude := csv (str_or v ""); headless := headless p |}
  else if String.eqb a "--headless" then
    {| tags := tags p; scrolls := scrolls p; minClaps := minClaps p;
       limit := limit p; include := include p; exclude := exclude p;
       headless := negb (String.eqb (toLowerCase (default "undefined" v))
                                    "false") |}
  else p.

(** The loop [for (let i = 1; i < args.length; i++)] over the arguments
    after the first: an option consumes the argument that follows it,
    any other argument is skipped. *)
Fixpoint parseOptions (args : list string) (p : ParsedArgs) : ParsedArgs :=
  match args with
  | [] => p
  | a :: rest =>
      if is_option a then
        match rest with
        | [] => set_option a None p
        | v :: rest' => parseOptions rest' (set_option a (Some v) p)
        end
      else parseOptions rest p
  end.

(** [parseArgs] on [process.argv.slice(2)]; [None] is [process.exit(1)]
    after the usage message. *)
Definition parseArgs (args : list string) : option ParsedArgs :=
  match args with
  | [] => None
  | a0 :: rest => Some (parseOptions rest (defaults (csv a0)))
  end.

(** ** Keyword filters *)

Definition includesAny (text : option string) (kws : list string) : bool :=
  match kws with
  | [] => true
  | _ =>
      let low := toLowerCase (str_or text "") in
      existsb (fun k => includes low (toLowerCase k)) kws
  end.

Definition excludesAll (text : option string) (kws : list string) : bool :=
  match kws with
  | [] => true
  | _ =>
      let low := toLowerCase (str_or text "") in
      negb (existsb (fun k => includes low (toLowerCase k)) kws)
  end.

(** ** The platform's [URL] class

    [normalizeArticleUrl] delegates to the WHATWG [URL] class of the
    runtime.  The record, the serializer and the two setters below follow
    the URL Standard; the parser ([new URL(s)]) is a parameter of the
    model, [None] standing for the [TypeError] it throws. *)

Inductive URLPath :=
  | OpaquePath (p : string)
  | ListPath (segments : list string).

Record URL := {
  scheme : string;
  username : string;
  password : string;
  host : option string;      (* serialized host, null for e.g. [mailto:] *)
  port : option N;
  path : URLPath;
  query : option string;
  fragment : option string
}.

Definition decimal (n : N) : string :=
  NilZero.string_of_uint (N.to_uint n).

(** [scheme ":"] followed, when there is a host, by ["//"], the
    credentials, the host and the port. *)
Definition origin_part (u : URL) : string :=
  scheme u ++ ":" ++
  match host u with
  | Some h =>
      "//" ++
      (if nonempty (username u) || nonempty (password u) then
         username u ++
         (if nonempty (password u) then ":" ++ password u else "") ++ "@"
       else "") ++
      h ++
      match port u with
      | Some n => ":" ++ decimal n
      | None => ""
      end
  | None => ""
  end.

Definition path_part (u : URL) : string :=
  match path u with
  | OpaquePath p => p
  | ListPath segs =>
      (match host u, segs with
       | None, EmptyString :: _ :: _ => "/."
       | _, _ => ""
       end) ++
      fold_right (fun seg acc => "/" ++ seg ++ acc) "" segs
  end.

(** The URL serializer: [u.toString()], [u.href]. *)
Definition href (u : URL) : string :=
  origin_part u ++ path_part u ++
  match query u with Some q => "?" ++ q | None => "" end ++
  match fragment u with Some f => "#" ++ f | None => "" end.

Fixpoint strip_trailing_spaces (s : string) : string :=
  match s with
  | EmptyString => EmptyString
  | String c s' =>
      match strip_trailing_spaces s' with
      | EmptyString =>
          if Ascii.eqb c " " then EmptyString else String c EmptyString
      | t => String c t
      end
  end.

(** "Potentially strip trailing spaces from an opaque path": only when
    the path is opaque and neither a query nor a fragment is left. *)
Definition potentially_strip (u : URL) : URL :=
  match path u, query u, fragment u with
  | OpaquePath p, None, None =>
      {| scheme := scheme u; username := username u; password := password u;
         host := host u; port := port u;
         path := OpaquePath (strip_trailing_spaces p);
         query := None; fragment := None |}
  | _, _, _ => u
  end.

(** [u.search = ""] *)
Definition clear_search (u : URL) : URL :=
  potentially_strip
    {| scheme := scheme u; username := username u; password := password u;
       host := host u; port := port u; path := path u;
       query := None; fragment := fragment u |}.

(** [u.hash = ""] *)
Definition clear_hash (u : URL) : URL :=
  potentially_strip
    {| scheme := scheme u; username := username u; password := password u;
       host := host u; port := port u; path := path u;
       query := query u; fragment := None |}.

(** ** [normalizeArticleUrl] *)

Definition normalizeArticleUrl (parseURL : string -> option URL)
    (absUrl : option string) : option string :=
  match absUrl with
  | None => None
  | Some EmptyString => None
  | Some s =>
      match parseURL s with
      | Some u => Some (href (clear_hash (clear_search u)))
      | None => None
      end
  end.

(** ** The numeric token parser [toNum] *)

(** The characters that [s.replace(/[^\d.kKmM]/g, '')] keeps. *)
Definition is_suffix (c : ascii) : bool :=
  Ascii.eqb c "k" || Ascii.eqb c "K" || Ascii.eqb c "m" || Ascii.eqb c "M".

Definition is_numeric_char (c : ascii) : bool :=
  is_digit c || Ascii.eqb c "." || is_suffix c.

Fixpoint keep_chars (p : ascii -> bool) (s : string) : string :=
  match s with
  | EmptyString => EmptyString
  | String c s' => if p c then String c (keep_chars p s') else keep_chars p s'
  end.

(** [/(\d+(?:\.\d+)?)([kKmM]?)/.exec(s)]: the match starts at the first
    digit; the groups are the longest run of digits, with a point and the
    digits after it when at least one digit follows the point, and the
    suffix letter right after, if any.  The result is [(m[1], m[2])]. *)
Fixpoint exec_number (s : string) : option (string * string) :=
  match s with
  | EmptyString => None
  | String c s' =>
      if is_digit c then
        let (ip, r1) := span is_digit s in
        let (num, r2) :=
          match r1 with
          | String "." r =>
              let (fp, r') := span is_digit r in
              if nonempty fp then (ip ++ "." ++ fp, r') else (ip, r1)
          | _ => (ip, r1)
          end in
        let suf :=
          match r2 with
          | String k _ => if is_suffix k then String k EmptyString else ""
          | EmptyString => ""
          end in
        Some (num, suf)
      else exec_number s'
  end.

Definition toNum (s : option string) : option number :=
  match s with
  | None => None
  | Some EmptyString => None
  | Some s =>
      let cleaned := keep_chars is_numeric_char s in
      match exec_number cleaned with
      | None => None
      | Some (m1, m2) =>
          let n := Number m1 in
          let suf := toLowerCase (str_or (Some m2) "") in
          if String.eqb suf "k" then Some (Math_round (mul n (of_Z 1000)))
          else if String.eqb suf "m" then
            Some (Math_round (mul n (of_Z 1000000)))
          else Some (Math_round n)
      end
  end.

(** ** Articles and [Array.prototype.sort] *)

Record RawArticle := {
  raw_url : option string;
  raw_title : option string;
  raw_datetime : option string;
  raw_timeLabel : option string;
  raw_claps : option Z;
  raw_comments : option Z
}.

Record Article := {
  url : option string;
  title : option string;
  createdAt : string;
  claps : option Z;
  comments : option Z;
  tag : string
}.

(** [Array.prototype.sort] is stable, and the result of a stable sort
    under a consistent comparator is unique; insertion from the right
    into a sorted suffix computes it.  [cmp a b > 0] puts [b] first. *)
Fixpoint sort_insert {A} (cmp : A -> A -> Z) (x : A) (l : list A) : list A :=
  match l with
  | [] => [x]
  | y :: l' =>
      if (0 <? cmp x y)%Z then y :: sort_insert cmp x l' else x :: l
  end.

Fixpoint Array_sort {A} (cmp : A -> A -> Z) (l : list A) : list A :=
  match l with
  | [] => []
  | x :: l' => sort_insert cmp x (Array_sort cmp l')
  end.

(** The comparator [(a, b) => key(b) - key(a)] of a descending sort, and
    the order it sorts into. *)
Definition desc {A} (key : A -> Z) (a b : A) : Z := (key b - key a)%Z.

Definition key_ge {A} (key : A -> Z) (a b : A) : Prop := (key b <= key a)%Z.

(** [claps ?? 0] *)
Definition clapsOrZero (a : Article) : Z := default 0%Z (claps a).

(** [(a, b) => (b.claps ?? 0) - (a.claps ?? 0)] *)
Definition by_claps (a b : Article) : Z :=
  (clapsOrZero b - clapsOrZero a)%Z.

(** ** The tail of [scrapeTag]: normalise, filter, rank *)

Record ScrapeOptions := {
  opt_scrolls : number;
  opt_minClaps : number;
  opt_limit : number;
  opt_include : list string;
  opt_exclude : list string;
  opt_headless : bool
}.

Section ScrapeTag.
(** The platform's URL parser and clock: [clock k] is the string that
    the [k]-th evaluation of [new Date().toISOString()] returns. *)
Variable parseURL : string -> option URL.
Variable clock : nat -> string.

(** The callback of [items.map(...)], evaluated at clock reading [t]. *)
Definition normalizeItem (tg : string) (t : nat) (x : RawArticle) : Article :=
  {| url := normalizeArticleUrl parseURL (raw_url x);
     title := raw_title x;
     createdAt := clock t;
     claps := raw_claps x;
     comments := raw_comments x;
     tag := tg |}.

(** [items.map(...)]: one clock reading per item, in order. *)
Fixpoint normalizeItems (tg : string) (t : nat) (items : list RawArticle)
  : list Article :=
  match items with
  | [] => []
  | x :: xs => normalizeItem tg t x :: normalizeItems tg (S t) xs
  end.

Definition has_url (a : Article) : bool :=
  match url a with Some _ => true | None => false end.

Definition passes_include (o : ScrapeOptions) (a : Article) : bool :=
  includesAny (Some (str_or (title a) "")) (opt_include o).

Definition passes_exclude (o : ScrapeOptions) (a : Article) : bool :=
  excludesAll (Some (str_or (title a) "")) (opt_exclude o).

Definition passes_minClaps (o : ScrapeOptions) (a : Article) : bool :=
  match claps a with
  | None => true
  | Some c => Z_ge_number c (opt_minClaps o)
  end.

(** The four [filter] calls, in the order of the source. *)
Definition filterItems (o : ScrapeOptions) (l : list Article) : list Article :=
  List.filter (passes_minClaps o)
    (List.filter (passes_exclude o)
      (List.filter (passes_include o)
        (List.filter has_url l))).

Definition rankItems (tg : string) (o : ScrapeOptions) (t : nat)
    (items : list RawArticle) : list Article :=
  slice_to (Array_sort by_claps (filterItems o (normalizeItems tg t items)))
           (opt_limit o).

(** [scrapeTag]: [page] is what loading, scrolling and
    [extractFromPage] produce, [None] when one of them throws, which
    the [catch] turns into the empty result. *)
Definition scrapeTag (tg : string) (o : ScrapeOptions) (t : nat)
    (page : option (list RawArticle)) : list Article :=
  match page with
  | Some items => rankItems tg o t items
  | None => []
  end.
End ScrapeTag.

(** ** The persisted store: [loadExistingData] *)

(** The result of a call that may throw. *)
Inductive outcome (A : Type) :=
  | Returned (a : A)
  | Thrown (e : string).
Arguments Returned {A} a.
Arguments Thrown {A} e.

Definition andThen {A B} (x : outcome A) (k : A -> outcome B) : outcome B :=
  match x with
  | Returned a => k a
  | Thrown e => Thrown e
  end.

(** [try { body } catch { handler }] *)
Definition tryCatch {A} (body : outcome A) (handler : outcome A) : outcome A :=
  match body with
  | Returned a => Returned a
  | Thrown _ => handler
  end.

Section LoadExistingData.
(** [fs.readFile(path, "utf-8")] and [JSON.parse], both of which may
    throw. *)
Variable readFile : string -> outcome string.
Variable JSON_parse : string -> outcome (gmap string (list Article)).

Definition loadExistingData (filePath : string)
  : outcome (gmap string (list Article)) :=
  tryCatch (andThen (readFile filePath) JSON_parse) (Returned ∅).
End LoadExistingData.

(** ** The incremental merge: [mergeArticles] *)

(** Article objects are referenced by location; [h r] is the current
    state of the object at [r]. *)
Definition loc := nat.
Definition heap := loc -> Article.

(** The heap after the object at [r] has become [a]. *)
Definition update (h : heap) (r : loc) (a : Article) : heap :=
  fun r' => if Nat.eqb r' r then a else h r'.

Definition write_claps (v : option Z) (a : Article) : Article :=
  {| url := url a; title := title a; createdAt := createdAt a;
     claps := v; comments := comments a; tag := tag a |}.

Definition write_comments (v : option Z) (a : Article) : Article :=
  {| url := url a; title := title a; createdAt := createdAt a;
     claps := claps a; comments := v; tag := tag a |}.

Record MergeResult := {
  merged : list loc;
  newCount : nat;
  updatedCount : nat
}.

(** [new Map(existingArticles.map(a => [a.url, a]))]: a later entry with
    the same key replaces the value of an earlier one. *)
Definition urlIndex (h : heap) (existingArticles : list loc)
  : gmap (option string) loc :=
  foldl (fun m a => <[url (h a) := a]> m) ∅ existingArticles.

(** The body of [newArticles.forEach(...)] on the heap and both
    counters. *)
Definition visitNew (existingUrls : gmap (option string) loc)
    (st : heap * nat * nat) (newArticle : loc) : heap * nat * nat :=
  let '(h, nc, uc) := st in
  match existingUrls !! url (h newArticle) with
  | Some existing =>
      let h1 := update h existing
                  (write_claps (claps (h newArticle)) (h existing)) in
      let h2 := update h1 existing
                  (write_comments (comments (h1 newArticle)) (h1 existing)) in
      (h2, nc, S uc)
  | None => (h, S nc, uc)
  end.

(** [!newArticles.some(n => n.url === existing.url)] *)
Definition notRefreshed (h : heap) (newArticles : list loc) (existing : loc)
  : bool :=
  negb (existsb (fun n => bool_decide (url (h n) = url (h existing)))
                newArticles).

(** [mergeArticles] on a tag for which [existing[tag]] is an own
    collection or [undefined]; a tag for which the lookup finds a member
    of [Object.prototype] makes line 422 throw, which is part of
    [mergeArticlesCall] below. *)
Definition mergeArticles (h : heap) (existing : gmap string (list loc))
    (newArticles : list loc) (tg : string) : heap * MergeResult :=
  let existingArticles := default [] (existing !! tg) in
  let existingUrls := urlIndex h existingArticles in
  let '(h', nc, uc) :=
    fold_left (visitNew existingUrls) newArticles (h, 0, 0) in
  let merged0 :=
    (newArticles ++
     List.filter (notRefreshed h' newArticles) existingArticles)%list in
  (h', {| merged := Array_sort (fun a b => by_claps (h' a) (h' b)) merged0;
          newCount := nc; updatedCount := uc |}).

(** The articles a list of references denotes in a heap. *)
Definition collection (h : heap) (l : list loc) : list Article := map h l.

(** [existingData[tag] = merged] in [main]. *)
Definition storeMerged (existing : gmap string (list loc)) (tg : string)
    (r : MergeResult) : gmap string (list loc) :=
  <[tg := merged r]> existing.

(** The URLs of the articles a list of references denotes. *)
Definition urls (h : heap) (l : list loc) : list (option string) :=
  map (fun r => url (h r)) l.

(** No article of [l1] has the URL of an article of [l2]. *)
Definition urlsDisjoint (h : heap) (l1 l2 : list loc) : bool :=
  forallb (notRefreshed h l2) l1.

(** What the update pass leaves alone in every object: everything but
    the two counters. *)
Definition sameIdentity (a b : Article) : Prop :=
  url a = url b /\ title a = title b /\ createdAt a = createdAt b /\
  tag a = tag b.

(** The heap that holds the articles of a list at the locations 0, 1,
    ... and [d] everywhere else. *)
Definition heapOf (l : list Article) (d : Article) : heap :=
  fun r => nth r l d.

(** The collection that [mergeArticles] returns, read in the heap that
    the call leaves behind. *)
Definition mergedCollection (h : heap) (existing : gmap string (list loc))
    (newArticles : list loc) (tg : string) : list Article :=
  let (h', r) := mergeArticles h existing newArticles tg in
  collection h' (merged r).

(** Two runs of the per-tag step of [main]: batch [A] is merged and
    stored, then batch [B] is merged into what the first run stored. *)
Definition mergeTwice (h : heap) (existing : gmap string (list loc))
    (A B : list loc) (tg : string) : list Article :=
  let (h1, r1) := mergeArticles h existing A tg in
  mergedCollection h1 (storeMerged existing tg r1) B tg.

(** Descending claps, null counted as 0. *)
Definition clapsDescending (l : list Article) : Prop :=
  StronglySorted (fun a b => (clapsOrZero b <= clapsOrZero a)%Z) l.

(** An article with its capture time blanked, to compare records aside
    from [createdAt]. *)
Definition withoutCreatedAt (a : Article) : Article :=
  {| url := url a; title := title a; createdAt := "";
     claps := claps a; comments := comments a; tag := tag a |}.

(** *** Sample data *)

Definition sampleArticle (u t c : string) (k m : Z) : Article :=
  {| url := Some u; title := Some t; createdAt := c;
     claps := Some k; comments := Some m; tag := "programming" |}.

Definition storedA : Article :=
  sampleArticle "https://medium.com/p/aaa111" "Old title"
                "2025-09-01T08:00:00.000Z" 10 1.

Definition freshA : Article :=
  sampleArticle "https://medium.com/p/aaa111" "New title"
                "2025-09-08T07:53:00.000Z" 20 2.

Definition freshB : Article :=
  sampleArticle "https://medium.com/p/bbb222" "Another story"
                "2025-09-08T07:53:00.001Z" 20 0.

(** One stored article under the tag "programming", at location 0, and a
    fresh article with the same URL at location 1. *)
Definition sampleHeap : heap := heapOf [storedA; freshA; freshB] storedA.

Definition sampleStore : gmap string (list loc) :=
  {[ "programming" := [0] ]}.

(** Two fresh objects with the same URL, as when two selectors match the
    same card, and nothing stored. *)
Definition twinHeap : heap := heapOf [freshA; freshA] freshA.

(** Two fresh articles with different URLs and equal claps. *)
Definition tieHeap : heap := heapOf [freshA; freshB] freshA.

(** The options of the filter example: [--include ai --exclude scam
    --minClaps 100], with any limit. *)
Definition filterOptions (lim : number) : ScrapeOptions :=
  {| opt_scrolls := of_Z 6; opt_minClaps := of_Z 100; opt_limit := lim;
     opt_include := ["ai"]; opt_exclude := ["scam"]; opt_headless := true |}.

(** A raw candidate with other time fields. *)
Definition relabel (d l : option string) (x : RawArticle) : RawArticle :=
  {| raw_url := raw_url x; raw_title := raw_title x;
     raw_datetime := d; raw_timeLabel := l;
     raw_claps := raw_claps x; raw_comments := raw_comments x |}.

(** The URL records that the model of [normalizeArticleUrl] can hold:
    what the parser returns, and what the two setters make of it. *)
Inductive Reachable (parseURL : string -> option URL) : URL -> Prop :=
  | Reachable_parsed s u : parseURL s = Some u -> Reachable parseURL u
  | Reachable_search u :
      Reachable parseURL u -> Reachable parseURL (clear_search u)
  | Reachable_hash u :
      Reachable parseURL u -> Reachable parseURL (clear_hash u).

(** The round trip that the URL Standard promises of its parser and
    serializer: the serialization of a URL object parses back to the same
    URL record. *)
Definition roundTrips (parseURL : string -> option URL) : Prop :=
  forall u, Reachable parseURL u -> parseURL (href u) = Some u.

(** *** Sample URLs

    A parser that knows the listed strings only, with the records that
    the URL Standard assigns to them. *)
Fixpoint tableParse (table : list (string * URL)) (s : string) : option URL :=
  match table with
  | [] => None
  | (k, u) :: rest => if String.eqb s k then Some u else tableParse rest s
  end.

Definition mediumURL (q f : option string) : URL :=
  {| scheme := "https"; username := ""; password := "";
     host := Some "medium.com"; port := None;
     path := ListPath ["p"; "abc123"]; query := q; fragment := f |}.

Definition sampleParse : string -> option URL :=
  tableParse
    [ ("https://medium.com/p/abc123?source=home#top",
       mediumURL (Some "source=home") (Some "top"));
      ("https://medium.com/p/abc123?source=home",
       mediumURL (Some "source=home") None);
      ("https://medium.com/p/abc123#top", mediumURL None (Some "top"));
      ("https://medium.com/p/abc123", mediumURL None None) ].

Definition credentialsURL : URL :=
  {| scheme := "https"; username := "user"; password := "pw";
     host := Some "medium.com"; port := Some 8080%N;
     path := ListPath ["p"; "abc123"]; query := Some "source=home";
     fragment := Some "top" |}.

Definition credentialsParse : string -> option URL :=
  tableParse
    [ ("https://user:pw@medium.com:8080/p/abc123?source=home#top",
       credentialsURL) ].

(** *** Vocabulary for the properties of [toNum] *)

Definition starts_with (p : ascii -> bool) (s : string) : bool :=
  match s with
  | String c _ => p c
  | EmptyString => false
  end.

(** A point with a digit right after it. *)
Definition starts_with_fraction (s : string) : bool :=
  match s with
  | String "." r => starts_with is_digit r
  | _ => false
  end.

Definition no_digit (s : string) : bool :=
  forall_chars (fun c => negb (is_digit c)) s.

(** The suffix letter at the head of a string, or the empty string. *)
Definition suffixOf (s : string) : string :=
  match s with
  | String k _ => if is_suffix k then String k EmptyString else ""
  | EmptyString => ""
  end.

(** The number [n] scaled by the suffix: [k] is a thousand, [m] a
    million, in either case of the letter. *)
Definition scaleBy (suf : string) (n : number) : number :=
  if String.eqb (toLowerCase suf) "k" then mul n (of_Z 1000)
  else if String.eqb (toLowerCase suf) "m" then mul n (of_Z 1000000)
  else n.

(** *** Sample platform for [loadExistingData] *)

Definition missingFile (path : string) : outcome string :=
  Thrown "ENOENT: no such file or directory".

Definition corruptFile (path : string) : outcome string :=
  Returned "{ not json".

Definition rejectingParse (text : string)
  : outcome (gmap string (list Article)) :=
  Thrown "SyntaxError: Unexpected token".

(** The two runs of the end-to-end scenario: run 1 stored article A with
    10 claps (location 0); run 2 scrapes A with 20 claps (location 1) and
    a new article with 5 claps (location 2). *)
Definition freshC : Article :=
  sampleArticle "https://medium.com/p/ccc333" "A third story"
                "2025-09-08T07:53:00.002Z" 5 0.

Definition scenarioHeap : heap := heapOf [storedA; freshA; freshC] storedA.

(** ** Further vocabulary for [mergeArticles] *)

(** Whether the URL of [n] is the URL of one of the stored articles. *)
Definition isStored (h : heap) (existingArticles : list loc) (n : loc) : bool :=
  existsb (fun e => bool_decide (url (h e) = url (h n))) existingArticles.

(** Two heaps that hold the same article at every location. *)
Definition sameHeap (h h' : heap) : Prop := forall r, h' r = h r.

#[global] Instance Article_eq_dec : EqDecision Article.
Proof. solve_decision. Defined.

(** The second of two runs of the per-tag step of [main]: batch [B]
    merged into what the run on batch [A] left in the heap and stored. *)
Definition secondMerge (h : heap) (existing : gmap string (list loc))
    (A B : list loc) (tg : string) : heap * MergeResult :=
  mergeArticles (fst (mergeArticles h existing A tg))
                (storeMerged existing tg (snd (mergeArticles h existing A tg)))
                B tg.

(** *** Sample candidates *)

Definition sampleClock (k : nat) : string := "2025-09-08T07:53:00.000Z".

Definition rawCandidate (u t : string) (k : Z) : RawArticle :=
  {| raw_url := Some u; raw_title := Some t; raw_datetime := None;
     raw_timeLabel := Some "3 days ago"; raw_claps := Some k;
     raw_comments := None |}.

Definition sampleCandidates : list RawArticle :=
  [ rawCandidate "https://medium.com/p/abc123?source=home#top"
                 "AI Breakthrough" 150;
    rawCandidate "https://medium.com/p/abc123" "Practical AI" 200 ].

(** *** Vocabulary for the properties of [parseArgs] *)

Fixpoint ends_with (p : ascii -> bool) (s : string) : bool :=
  match s with
  | EmptyString => false
  | String c EmptyString => p c
  | String _ s' => ends_with p s'
  end.

Definition no_comma (s : string) : bool :=
  forall_chars (fun c => negb (Ascii.eqb c ",")) s.

(** An entry of a comma-separated option as the code keeps it: not
    empty, no white space at either end, no comma. *)
Definition cleanEntry (s : string) : bool :=
  nonempty s && negb (starts_with is_space s) &&
  negb (ends_with is_space s) && no_comma s.

Definition isNaN (x : number) : bool :=
  match x with S754_nan => true | _ => false end.

(** A number that is neither NaN nor negative: +0, a positive finite
    number or +Infinity. *)
Definition nonnegative (x : number) : bool :=
  match x with
  | S754_nan => false
  | S754_zero s | S754_infinity s | S754_finite s _ _ => negb s
  end.

Definition is_decimal_char (c : ascii) : bool :=
  is_digit c || Ascii.eqb c ".".

(** The text of a decimal number: digits, and a point and digits when
    [fp] is not empty. *)
Definition decimalToken (ip fp : string) : string :=
  if nonempty fp then ip ++ "." ++ fp else ip.

(** ** [monthStamp] *)

(** [String(z)] for an integer [z] (below 10^21 in size, where the
    conversion prints every digit). *)
Definition String_of_Z (z : Z) : string :=
  NilZero.string_of_int (Z.to_int z).

(** The first [k] characters of [cur] followed by [fill] over and over. *)
Fixpoint cycle (k : nat) (cur fill : string) : string :=
  match k with
  | O => EmptyString
  | S k' =>
      match cur with
      | String c cur' => String c (cycle k' cur' fill)
      | EmptyString =>
          match fill with
          | String c fill' => String c (cycle k' fill' fill)
          | EmptyString => EmptyString
          end
      end
  end.

(** [s.padStart(n, fill)] *)
Definition padStart (n : nat) (fill : string) (s : string) : string :=
  cycle (n - String.length s) fill fill ++ s.

(** What [monthStamp] reads of its date: a valid [Date], with the local
    year and the month index 0..11. *)
Record Date := {
  getFullYear : Z;
  getMonth : Z
}.

Definition monthStamp (d : Date) : string :=
  let y := getFullYear d in
  let m := padStart 2 "0" (String_of_Z (getMonth d + 1)) in
  String_of_Z y ++ "-" ++ m.

(** ** The link test of [extractFromPage] *)

(** [u.pathname]: the URL path serializer. *)
Definition pathname (u : URL) : string :=
  match path u with
  | OpaquePath p => p
  | ListPath segs => fold_right (fun seg acc => "/" ++ seg ++ acc) "" segs
  end.

Definition is_slash (c : ascii) : bool := Ascii.eqb c "/".
Definition not_slash (c : ascii) : bool := negb (is_slash c).

(** [[a-zA-Z0-9]] and [[a-f0-9]] *)
Definition is_alnum (c : ascii) : bool :=
  in_range 97 122 c || in_range 65 90 c || is_digit c.
Definition is_hex (c : ascii) : bool := in_range 97 102 c || is_digit c.

(** A leading slash and the longest run of other characters after it:
    [\/[^/]*] at the start of [s], with what follows. *)
Definition leadingSegment (s : string) : option (string * string) :=
  match s with
  | String "/" r => Some (span not_slash r)
  | _ => None
  end.

(** [[^/]+-[a-f0-9]{6,}$] on a string without slash: some hyphen that is
    not the first character is followed by six or more hexadecimal digits
    up to the end.  [seen] tells whether a character came before. *)
Fixpoint hexSuffixedFrom (seen : bool) (s : string) : bool :=
  match s with
  | EmptyString => false
  | String c r =>
      (seen && Ascii.eqb c "-" && forall_chars is_hex r &&
       (6 <=? String.length r)%nat)
      || hexSuffixedFrom true r
  end.

Definition hexSuffixed (s : string) : bool := hexSuffixedFrom false s.

(** The two segments of a path [/s1/s2] with nothing after [s2]. *)
Definition twoSegments (p : string) : option (string * string) :=
  match leadingSegment p with
  | Some (s1, r) =>
      match leadingSegment r with
      | Some (s2, EmptyString) => Some (s1, s2)
      | _ => None
      end
  | None => None
  end.

(** [/^\/p\/[a-zA-Z0-9]+/] *)
Definition pathShortId (p : string) : bool :=
  match p with
  | String "/" (String "p" (String "/" (String c _))) => is_alnum c
  | _ => false
  end.

(** [/^\/@[^/]+\/[^/]+-[a-f0-9]{6,}$/] *)
Definition pathProfileHex (p : string) : bool :=
  match twoSegments p with
  | Some (String "@" (String _ _), s2) => hexSuffixed s2
  | _ => false
  end.

(** [/^\/[^/]+\/[^/]+-[a-f0-9]{6,}$/] *)
Definition pathHex (p : string) : bool :=
  match twoSegments p with
  | Some (String _ _, s2) => hexSuffixed s2
  | _ => false
  end.

(** [/^\/@[^/]+\/[^/]+$/] *)
Definition pathProfile (p : string) : bool :=
  match twoSegments p with
  | Some (String "@" (String _ _), String _ _) => true
  | _ => false
  end.

(** [/^\/[^/@][^/]*\/[^/]+$/] *)
Definition pathTwoSegment (p : string) : bool :=
  match twoSegments p with
  | Some (String c _, String _ _) => negb (Ascii.eqb c "@")
  | _ => false
  end.

(** The condition of the [if] on [urlObj.pathname]. *)
Definition articlePath (p : string) : bool :=
  pathShortId p || pathProfileHex p || pathHex p || pathProfile p ||
  pathTwoSegment p.

Section SelectUrl.
(** [toAbs]: [new URL(href, location.origin).toString()], null when the
    constructor throws; [parseURL]: [new URL(abs)]. *)
Variable toAbs : string -> option string.
Variable parseURL : string -> option URL.

(** Whether the loop over the links of a container stops at this
    [href] attribute, and with which URL. *)
Definition linkUrl (href : option string) : option string :=
  match href with
  | None | Some EmptyString => None
  | Some h =>
      match toAbs h with
      | None | Some EmptyString => None
      | Some abs =>
          if includes abs "medium.com" then
            match parseURL abs with
            | Some u => if articlePath (pathname u) then Some abs else None
            | None => None
            end
          else None
      end
  end.

(** The loop [for (const a of links)]: the URL of the first link that
    qualifies; [None] is the container without URL, which is dropped. *)
Fixpoint selectUrl (hrefs : list (option string)) : option string :=
  match hrefs with
  | [] => None
  | href :: rest =>
      match linkUrl href with
      | Some abs => Some abs
      | None => selectUrl rest
      end
  end.
End SelectUrl.

(** ** [autoScroll] *)

(** [z < x] for an integer [z] and a number [x], compared exactly. *)
Definition Z_lt_number (z : Z) (x : number) : bool :=
  match x with
  | S754_nan => false
  | S754_infinity s => negb s
  | S754_zero _ => (z <? 0)%Z
  | S754_finite s m e =>
      let sm := if s then Z.neg m else Z.pos m in
      if (0 <=? e)%Z then (z <? sm * 2 ^ e)%Z
      else (z * 2 ^ (- e) <? sm)%Z
  end.

(** An integer that no loop counter below [x] reaches, for every [x]
    but +Infinity. *)
Definition upperBound (x : number) : Z :=
  match x with
  | S754_finite false m e =>
      if (0 <=? e)%Z then (Z.pos m * 2 ^ e)%Z
      else (- (Z.neg m / 2 ^ (- e)))%Z
  | _ => 0%Z
  end.

(** What a run of [autoScroll] did: the scroll commands it issued, the
    times the height had not changed after a scroll, the heights it read
    and the milliseconds of pause it asked for. *)
Record ScrollLog := {
  scrollsDone : nat;
  stalls : nat;
  reads : nat;
  slept : Z
}.

(** The loop counter [i] is a JavaScript number that starts at 0 and
    grows by [i++].  Every integer up to 2^53 is a binary64 value, so the
    counter is exact until it gets there; 2^53 + 1 is not one and rounds
    back to 2^53, so from then on [i++] leaves the counter where it is. *)
Definition maxCounter : Z := 9007199254740992.

Definition increment (i : Z) : Z :=
  if (i <? maxCounter)%Z then (i + 1)%Z else i.

(** The value of the counter when [k] scrolls have been done. *)
Definition counterAt (k : nat) : Z := Z.min (Z.of_nat k) maxCounter.

Section AutoScroll.
(** The page as the loop sees it: [heights k] is the value of the
    [k]-th evaluation of [document.body.scrollHeight]. *)
Variable heights : nat -> Z.
Variable maxScrolls : number.
Variable waitForLoad : Z.

(** The [for] loop from counter [i]; [None] when [fuel] iterations were
    not enough to leave it. *)
Fixpoint scrollLoop (fuel : nat) (i : Z) (previousHeight : Z)
    (log : ScrollLog) : option ScrollLog :=
  if Z_lt_number i maxScrolls then
    match fuel with
    | O => None
    | S fuel' =>
        let newHeight := heights (reads log) in
        let log1 := {| scrollsDone := S (scrollsDone log);
                       stalls := stalls log;
                       reads := S (reads log);
                       slept := slept log + waitForLoad + 500 |} in
        if (newHeight =? previousHeight)%Z then
          let finalHeight := heights (reads log1) in
          let log2 := {| scrollsDone := scrollsDone log1;
                         stalls := S (stalls log1);
                         reads := S (reads log1);
                         slept := slept log1 + 1000 |} in
          if (finalHeight =? previousHeight)%Z then Some log2
          else scrollLoop fuel' (increment i) finalHeight log2
        else scrollLoop fuel' (increment i) newHeight log1
    end
  else Some log.

Definition autoScroll (fuel : nat) : option ScrollLog :=
  scrollLoop fuel 0 (heights 0)
    {| scrollsDone := 0; stalls := 0; reads := 1; slept := 0 |}.
End AutoScroll.

(** The bookkeeping that every iteration of [autoScroll] keeps: the
    reads, the pauses, and that the counter was below [maxScrolls] when
    each scroll was issued. *)
Definition scrollAccounts (maxScrolls : number) (waitForLoad : Z)
    (log : ScrollLog) : Prop :=
  reads log = 1 + scrollsDone log + stalls log /\
  slept log = (Z.of_nat (scrollsDone log) * (waitForLoad + 500)
               + Z.of_nat (stalls log) * 1000)%Z /\
  stalls log <= scrollsDone log /\
  forall k, k < scrollsDone log ->
            Z_lt_number (counterAt k) maxScrolls = true.

(** A page that never grows, and one that grows at every read. *)
Definition stablePage (k : nat) : Z := 4000.
Definition growingPage (k : nat) : Z := 4000 + 800 * Z.of_nat k.

(** The two ways out of the loop of [autoScroll]: the counter reached
    [maxScrolls], or the last three heights read were the same. *)
Definition stoppedAtBound (maxScrolls : number) (log : ScrollLog) : Prop :=
  Z_lt_number (Z.of_nat (scrollsDone log)) maxScrolls = false.

Definition stoppedOnStall (heights : nat -> Z) (log : ScrollLog) : Prop :=
  3 <= reads log /\
  heights (reads log - 2) = heights (reads log - 3) /\
  heights (reads log - 1) = heights (reads log - 3).

(** ** Calls of [mergeArticles] on a plain object

    [existingData] is a plain JavaScript object, so [existing[tag]] looks
    at its own properties first and at [Object.prototype] next.  For a
    tag that is no own property and names a member of [Object.prototype],
    [existing[tag] || []] is that member: a function, or the prototype
    object for [__proto__].  It is truthy and has no [map], so line 422
    throws a TypeError before anything is counted or written.
    [mergeArticles] above is the function on the other tags, where the
    lookup gives an own collection or [undefined]. *)
Definition objectPrototypeKeys : list string :=
  [ "constructor"; "hasOwnProperty"; "isPrototypeOf";
    "propertyIsEnumerable"; "toLocaleString"; "toString"; "valueOf";
    "__proto__"; "__defineGetter__"; "__defineSetter__";
    "__lookupGetter__"; "__lookupSetter__" ].

Definition inheritedKey (tg : string) : bool :=
  existsb (String.eqb tg) objectPrototypeKeys.

(** What [existing[tag]] evaluates to. *)
Inductive PropertyValue :=
  | OwnProperty (l : list loc)
  | InheritedMember
  | Undefined.

Definition getProperty (existing : gmap string (list loc)) (tg : string)
  : PropertyValue :=
  match existing !! tg with
  | Some l => OwnProperty l
  | None => if inheritedKey tg then InheritedMember else Undefined
  end.

(** A call [mergeArticles(existing, newArticles, tag)]. *)
Definition mergeArticlesCall (h : heap) (existing : gmap string (list loc))
    (newArticles : list loc) (tg : string) : outcome (heap * MergeResult) :=
  match getProperty existing tg with
  | InheritedMember => Thrown "existingArticles.map is not a function"
  | OwnProperty _ | Undefined =>
      Returned (mergeArticles h existing newArticles tg)
  end.

(** The call returns for this tag. *)
Definition mergeable (existing : gmap string (list loc)) (tg : string)
  : Prop :=
  getProperty existing tg <> InheritedMember.

(** ** [main]: the loop over the tags *)

(** [JSON.stringify(existingData)]: every collection with its articles
    as they are in the heap when the file is written. *)
Definition snapshot (h : heap) (existing : gmap string (list loc))
  : gmap string (list Article) :=
  collection h <$> existing.

(** The heap after the articles that [scrapeTag] returns have been
    created as new objects at [n], [n + 1], ... *)
Definition allocate (h : heap) (n : loc) (articles : list Article) : heap :=
  fun r => if Nat.leb n r then nth (r - n) articles (h r) else h r.

(** The state of [main] between two tags: the heap and the first unused
    location, [existingData], and what the last [fs.writeFile] of the run
    that returned has written. *)
Record MainState := {
  objects : heap;
  allocated : loc;
  existingData : gmap string (list loc);
  written : option (gmap string (list Article))
}.

(** What happens to one tag: the tag, what [scrapeTag] does and what
    [fs.writeFile] would do. *)
Record TagRun := {
  run_tag : string;
  run_scrape : outcome (list Article);
  run_write : outcome unit
}.

(** The body of [for (const tag of tags)], its [catch] included: the
    [catch] is reached from [scrapeTag], from [mergeArticles] (then the
    scraped objects exist but the store and the file are as they were)
    and from [fs.writeFile] (then the store has the merge already). *)
Definition processTag (st : MainState) (run : TagRun) : MainState :=
  match run_scrape run with
  | Thrown _ => st
  | Returned articles =>
      let h0 := allocate (objects st) (allocated st) articles in
      let batch := seq (allocated st) (length articles) in
      match mergeArticlesCall h0 (existingData st) batch (run_tag run) with
      | Thrown _ =>
          {| objects := h0;
             allocated := allocated st + length articles;
             existingData := existingData st;
             written := written st |}
      | Returned (h1, r) =>
          let store := storeMerged (existingData st) (run_tag run) r in
          {| objects := h1;
             allocated := allocated st + length articles;
             existingData := store;
             written := match run_write run with
                        | Returned _ => Some (snapshot h1 store)
                        | Thrown _ => written st
                        end |}
      end
  end.

Definition mainLoop (runs : list TagRun) (st : MainState) : MainState :=
  fold_left processTag runs st.

(** The objects of the store are allocated, and no object belongs to the
    collections of two tags: what [JSON.parse] yields, which creates one
    object per record. *)
Definition wellFormed (st : MainState) : Prop :=
  (forall tg l r, existingData st !! tg = Some l -> In r l ->
                  r < allocated st) /\
  (forall tg1 tg2 l1 l2 r, tg1 <> tg2 ->
     existingData st !! tg1 = Some l1 -> existingData st !! tg2 = Some l2 ->
     In r l1 -> ~ In r l2).

(** The tag of a run stays out of [tg] whenever its scrape returned. *)
Definition leavesAlone (tg : string) (run : TagRun) : Prop :=
  match run_scrape run with
  | Returned _ => run_tag run <> tg
  | Thrown _ => True
  end.

Definition scrapeThrows (run : TagRun) : Prop :=
  match run_scrape run with
  | Returned _ => False
  | Thrown _ => True
  end.

(** The collection of [tg] as a written file would show it. *)
Definition stored (st : MainState) (tg : string) : option (list Article) :=
  snapshot (objects st) (existingData st) !! tg.

(** The collection of [tg] holds the URL [u]. *)
Definition holdsUrl (st : MainState) (tg : string) (u : option string)
  : Prop :=
  exists c, stored st tg = Some c /\ In u (map url c).

(** The collection of [tg] exists and is in descending order of claps. *)
Definition holdsSorted (st : MainState) (tg : string) : Prop :=
  exists c, stored st tg = Some c /\ clapsDescending c.



(** *** Sample run of [main] *)

Definition otherArticle : Article :=
  {| url := Some "https://medium.com/p/ccc333"; title := Some "On models";
     createdAt := "2025-09-02T10:00:00.000Z";
     claps := Some 5%Z; comments := None; tag := "ai" |}.

(** A store with one article under each of two tags. *)
Definition sampleState : MainState :=
  {| objects := heapOf [storedA; otherArticle] storedA;
     allocated := 2;
     existingData := {[ "programming" := [0]; "ai" := [1] ]};
     written := None |}.

(** A scrape of the tag "constructor", which no store has as its own
    key. *)
Definition prototypeRun : TagRun :=
  {| run_tag := "constructor"; run_scrape := Returned [freshA; freshB];
     run_write := Returned tt |}.

(** The tag "programming" is scraped but the file cannot be written;
    the tag "design" fails in the browser; the tag "ai" is scraped,
    finds nothing, and the file is written. *)
Definition sampleRuns : list TagRun :=
  [ {| run_tag := "programming"; run_scrape := Returned [freshA; freshB];
       run_write := Thrown "EACCES" |};
    {| run_tag := "design"; run_scrape := Thrown "Target closed";
       run_write := Returned tt |};
    {| run_tag := "ai"; run_scrape := Returned [];
       run_write := Returned tt |} ].

(** Two URL records that differ in query and fragment at most. *)
Definition sameResource (u v : URL) : Prop :=
  scheme u = scheme v /\ username u = username v /\
  password u = password v /\ host u = host v /\ port u = port v /\
  path u = path v.

(* ================================================================== *)
(** * Part II: properties                                              *)
(* ================================================================== *)

Example Number_samples :
  Number "0" = S754_zero false /\ Number "30" = of_Z 30 /\
  Number " 12 " = of_Z 12 /\ Number "abc" = NaN /\ Number "" = S754_zero false /\
  Number "0x1F" = of_Z 31 /\ Number "-0x1F" = NaN /\ Number "1e3" = of_Z 1000 /\
  Number "5." = of_Z 5 /\ Number "." = NaN /\ Number "1.5e1" = of_Z 15 /\
  Number ".5e1" = of_Z 5 /\ Number "-Infinity" = S754_infinity true /\
  Number "1e" = NaN /\ Number "12px" = NaN /\ Number "0.0" = S754_zero false /\
  Number "2e400" = Infinity /\ Number "0b102" = NaN.
Proof. vm_compute. repeat split. Qed.

(** ** [Array_sort]: permutation, order, stability *)

Lemma sort_insert_Permutation {A} (cmp : A -> A -> Z) x l :
  Permutation (sort_insert cmp x l) (x :: l).
Proof.
  induction l as [|y l IH]; simpl; [reflexivity|].
  destruct (0 <? cmp x y)%Z; [|reflexivity].
  rewrite IH. apply perm_swap.
Qed.

Lemma Array_sort_Permutation {A} (cmp : A -> A -> Z) l :
  Permutation (Array_sort cmp l) l.
Proof.
  induction l as [|x l IH]; simpl; [reflexivity|].
  rewrite sort_insert_Permutation. now constructor.
Qed.

Lemma Array_sort_In {A} (cmp : A -> A -> Z) l x :
  In x (Array_sort cmp l) <-> In x l.
Proof.
  split; apply Permutation_in;
    [|symmetry]; apply Array_sort_Permutation.
Qed.

(** A list on which the comparator never asks for a swap is left as it
    is: the sort is stable. *)
Lemma Array_sort_sorted_id {A} (cmp : A -> A -> Z) l :
  Sorted (fun a b => (cmp a b <= 0)%Z) l -> Array_sort cmp l = l.
Proof.
  induction 1 as [|x l Hs IH Hhd]; simpl; [reflexivity|].
  rewrite IH. destruct Hhd as [|y l' Hxy]; simpl; [reflexivity|].
  destruct (Z.ltb_spec 0 (cmp x y)); [lia|reflexivity].
Qed.

Section KeySort.
Context {A : Type} (key : A -> Z).
Local Abbreviation desc := (desc key).
Local Abbreviation key_ge := (key_ge key).

Lemma sort_insert_HdRel x y l :
  key_ge y x -> HdRel key_ge y l -> HdRel key_ge y (sort_insert desc x l).
Proof.
  intros Hyx Hhd. destruct l as [|z l]; simpl; [now constructor|].
  destruct (0 <? desc x z)%Z; constructor; [|assumption].
  now inversion Hhd.
Qed.

Lemma sort_insert_Sorted x l :
  Sorted key_ge l -> Sorted key_ge (sort_insert desc x l).
Proof.
  induction 1 as [|y l Hs IH Hhd]; simpl; [repeat constructor|].
  destruct (Z.ltb_spec 0 (desc x y)) as [Hlt|Hge].
  - constructor; [assumption|].
    apply sort_insert_HdRel; [|assumption].
    unfold key_ge, desc in *. lia.
  - constructor; [now constructor|].
    constructor. unfold key_ge, desc in *. lia.
Qed.

Lemma Array_sort_Sorted l : Sorted key_ge (Array_sort desc l).
Proof.
  induction l as [|x l IH]; simpl; [constructor|].
  now apply sort_insert_Sorted.
Qed.

Lemma key_ge_trans : Relations_1.Transitive key_ge.
Proof. intros a b c. unfold key_ge. lia. Qed.

Lemma Array_sort_StronglySorted l :
  StronglySorted key_ge (Array_sort desc l).
Proof.
  apply Sorted_StronglySorted; [apply key_ge_trans|apply Array_sort_Sorted].
Qed.

Lemma Array_sort_idempotent l :
  Array_sort desc (Array_sort desc l) = Array_sort desc l.
Proof.
  apply Array_sort_sorted_id.
  eapply Sorted_ind with (P := fun l => Sorted _ l);
    [constructor| |apply (Array_sort_Sorted l)].
  intros a l0 _ IH Hhd. constructor; [assumption|].
  destruct Hhd; constructor. unfold key_ge, desc in *. lia.
Qed.

(** Sorting a batch put in front of an already sorted collection gives
    what sorting the two unsorted lists together gives. *)
Lemma Array_sort_app_sorted l1 l2 :
  Array_sort desc (l1 ++ Array_sort desc l2) = Array_sort desc (l1 ++ l2).
Proof.
  induction l1 as [|x l1 IH]; simpl.
  - apply Array_sort_idempotent.
  - now rewrite IH.
Qed.
End KeySort.

(** ** The URL index and the update pass of [mergeArticles] *)

Lemma urlIndex_fold_None (h : heap) (E : list loc) (m : gmap (option string) loc) u :
  foldl (fun m a => <[url (h a) := a]> m) m E !! u = None <->
  m !! u = None /\ ~ In u (urls h E).
Proof.
  revert m. induction E as [|e E IH]; intros m; simpl.
  - tauto.
  - rewrite IH. rewrite lookup_insert_None. tauto.
Qed.

Lemma urlIndex_fold_Some (h : heap) (E : list loc) (m : gmap (option string) loc) u e :
  foldl (fun m a => <[url (h a) := a]> m) m E !! u = Some e ->
  m !! u = Some e \/ (In e E /\ url (h e) = u).
Proof.
  revert m. induction E as [|x E IH]; intros m; simpl; [tauto|].
  intros H. apply IH in H. destruct H as [H|[H1 H2]]; [|tauto].
  apply lookup_insert_Some in H. destruct H as [[<- <-]|[_ H]]; tauto.
Qed.

Lemma urlIndex_None (h : heap) (E : list loc) u :
  urlIndex h E !! u = None <-> ~ In u (urls h E).
Proof.
  unfold urlIndex. rewrite urlIndex_fold_None, lookup_empty. tauto.
Qed.

Lemma urlIndex_Some (h : heap) (E : list loc) u e :
  urlIndex h E !! u = Some e -> In e E /\ url (h e) = u.
Proof.
  unfold urlIndex. intros H. apply urlIndex_fold_Some in H.
  rewrite lookup_empty in H. destruct H; [discriminate|assumption].
Qed.

Lemma sameIdentity_refl a : sameIdentity a a.
Proof. repeat split. Qed.

Lemma sameIdentity_trans a b c :
  sameIdentity a b -> sameIdentity b c -> sameIdentity a c.
Proof. unfold sameIdentity. intuition congruence. Qed.

(** One visit keeps the identity of every object. *)
Lemma visitNew_identity idx h nc uc n h' nc' uc' r :
  visitNew idx (h, nc, uc) n = (h', nc', uc') ->
  sameIdentity (h' r) (h r).
Proof.
  unfold visitNew. destruct (idx !! url (h n)) as [e|].
  - intros [= <- _ _]. unfold sameIdentity, update.
    destruct (Nat.eqb_spec r e) as [->|Hne]; simpl.
    + rewrite Nat.eqb_refl. simpl. tauto.
    + tauto.
  - intros [= <- _ _]. apply sameIdentity_refl.
Qed.

Lemma visitNew_fold_identity idx fresh h nc uc h' nc' uc' r :
  fold_left (visitNew idx) fresh (h, nc, uc) = (h', nc', uc') ->
  sameIdentity (h' r) (h r).
Proof.
  revert h nc uc.
  induction fresh as [|n fresh IH]; intros h nc uc; cbn [fold_left].
  - intros [= <- _ _]. apply sameIdentity_refl.
  - destruct (visitNew idx (h, nc, uc) n) as [[h1 nc1] uc1] eqn:E1.
    intros H. apply IH in H.
    eapply sameIdentity_trans; [exact H|].
    eapply visitNew_identity; exact E1.
Qed.

(** When no fresh URL is indexed the pass writes nothing and counts
    every article as new. *)
Lemma visitNew_fold_no_hit idx fresh h nc uc :
  (forall n, In n fresh -> idx !! url (h n) = None) ->
  fold_left (visitNew idx) fresh (h, nc, uc) = (h, length fresh + nc, uc).
Proof.
  revert nc. induction fresh as [|n fresh IH]; intros nc Hno; cbn [fold_left].
  - reflexivity.
  - unfold visitNew at 2. rewrite (Hno n) by now left.
    rewrite IH by (intros; apply Hno; now right).
    simpl. do 2 f_equal. lia.
Qed.

(** ** [mergeArticles] *)

Lemma urls_identity (h h' : heap) (l : list loc) :
  (forall r, sameIdentity (h' r) (h r)) -> urls h' l = urls h l.
Proof.
  intros Hid. unfold urls. apply map_ext. intros r. apply (Hid r).
Qed.

Lemma notRefreshed_true (h : heap) (fresh : list loc) (e : loc) :
  notRefreshed h fresh e = true <-> ~ In (url (h e)) (urls h fresh).
Proof.
  unfold notRefreshed, urls. rewrite negb_true_iff.
  rewrite <- not_true_iff_false, existsb_exists, in_map_iff.
  split; intros H [n Hn]; apply H; exists n.
  - destruct Hn as [Hu Hin]. split; [assumption|].
    now apply bool_decide_eq_true.
  - destruct Hn as [Hin Hu]. apply bool_decide_eq_true in Hu. now split.
Qed.

Lemma notRefreshed_identity (h h' : heap) (fresh : list loc) (e : loc) :
  (forall r, sameIdentity (h' r) (h r)) ->
  notRefreshed h' fresh e = notRefreshed h fresh e.
Proof.
  intros Hid. apply eq_true_iff_eq. rewrite !notRefreshed_true.
  rewrite (urls_identity h h' fresh Hid).
  destruct (Hid e) as [-> _]. reflexivity.
Qed.

Lemma urlsDisjoint_true (h : heap) (l1 l2 : list loc) :
  urlsDisjoint h l1 l2 = true <->
  forall a b, In a l1 -> In b l2 -> url (h a) <> url (h b).
Proof.
  unfold urlsDisjoint. rewrite forallb_forall. split.
  - intros H a b Ha Hb Heq. apply H in Ha.
    apply notRefreshed_true in Ha. apply Ha. rewrite Heq.
    unfold urls. apply in_map_iff. now exists b.
  - intros H a Ha. apply notRefreshed_true. unfold urls.
    rewrite in_map_iff. intros [b [Heq Hb]]. now apply (H a b).
Qed.

(** The result of [mergeArticles] in terms of the heap [h'] that the
    update pass leaves. *)
Lemma mergeArticles_eq (h : heap) (store : gmap string (list loc))
    (fresh : list loc) (tg : string) h' nc uc :
  fold_left (visitNew (urlIndex h (default [] (store !! tg)))) fresh (h, 0, 0)
    = (h', nc, uc) ->
  mergeArticles h store fresh tg =
  (h', {| merged := Array_sort (desc (fun r => clapsOrZero (h' r)))
                      (fresh ++ List.filter (notRefreshed h' fresh)
                                            (default [] (store !! tg)));
          newCount := nc; updatedCount := uc |}).
Proof. intros H. unfold mergeArticles. rewrite H. reflexivity. Qed.

(** Names the outcome of the update pass and rewrites the call with it. *)
Ltac update_pass Hfold :=
  match goal with
  | |- context [mergeArticles ?h ?store ?batch ?tg] =>
      destruct (fold_left (visitNew (urlIndex h (default [] (store !! tg))))
                  batch (h, 0, 0)) as [[?h' ?nc] ?uc] eqn:Hfold;
      rewrite (mergeArticles_eq _ _ _ _ _ _ _ Hfold)
  end.

(** Every reference of the merged list is a fresh article, or an
    existing article whose URL no fresh article has. *)
Lemma mergeArticles_members (h : heap) (store : gmap string (list loc))
    (fresh : list loc) (tg : string) (r : loc) :
  In r (merged (snd (mergeArticles h store fresh tg))) <->
  In r fresh \/
  (In r (default [] (store !! tg)) /\ ~ In (url (h r)) (urls h fresh)).
Proof.
  update_pass Hfold. cbn [snd merged].
  rewrite Array_sort_In, in_app_iff, filter_In.
  rewrite (notRefreshed_identity h h') by
    (intros r0; eapply visitNew_fold_identity; exact Hfold).
  rewrite notRefreshed_true. tauto.
Qed.

Lemma StronglySorted_map {A B} (R : B -> B -> Prop) (f : A -> B) l :
  StronglySorted (fun a b => R (f a) (f b)) l -> StronglySorted R (map f l).
Proof.
  induction 1 as [|x l Hs IH Hall]; simpl; constructor; [assumption|].
  rewrite List.Forall_forall in *. intros y Hy.
  apply in_map_iff in Hy. destruct Hy as [z [<- Hz]]. now apply Hall.
Qed.

Lemma NoDup_map_filter {A B} (f : A -> B) (p : A -> bool) l :
  List.NoDup (map f l) -> List.NoDup (map f (List.filter p l)).
Proof.
  induction l as [|x l IH]; simpl; [trivial|].
  intros H. apply List.NoDup_cons_iff in H. destruct H as [Hx Hl].
  destruct (p x); simpl; [|now apply IH].
  apply List.NoDup_cons_iff. split; [|now apply IH].
  intros Hin. apply Hx. apply in_map_iff in Hin.
  destruct Hin as [y [Hy Hin]]. apply filter_In in Hin.
  apply in_map_iff. exists y. tauto.
Qed.

Lemma NoDup_append {A} (l1 l2 : list A) :
  List.NoDup l1 -> List.NoDup l2 -> (forall x, In x l1 -> ~ In x l2) ->
  List.NoDup (l1 ++ l2).
Proof.
  induction l1 as [|x l1 IH]; simpl; intros H1 H2 Hd; [assumption|].
  apply List.NoDup_cons_iff in H1. destruct H1 as [Hx H1].
  apply List.NoDup_cons_iff. split.
  - rewrite in_app_iff. intros [H|H]; [tauto|]. apply (Hd x); tauto.
  - apply IH; [assumption..|]. intros y Hy. apply Hd. now right.
Qed.

Lemma mergedCollection_urls (h : heap) (store : gmap string (list loc))
    (fresh : list loc) (tg : string) :
  Permutation (map url (mergedCollection h store fresh tg))
    (urls h (fresh ++ List.filter (notRefreshed h fresh)
                                  (default [] (store !! tg)))).
Proof.
  unfold mergedCollection.
  update_pass Hfold. cbn [merged].
  assert (Hid : forall r, sameIdentity (h' r) (h r))
    by (intros r; eapply visitNew_fold_identity; exact Hfold).
  unfold collection. rewrite map_map.
  change (map (fun x => url (h' x)) ?l) with (urls h' l).
  rewrite (urls_identity h h' _ Hid).
  unfold urls. apply Permutation_map.
  rewrite Array_sort_Permutation.
  erewrite filter_ext; [reflexivity|].
  intros e. now apply notRefreshed_identity.
Qed.

Lemma mergedCollection_sorted (h : heap) (store : gmap string (list loc))
    (fresh : list loc) (tg : string) :
  clapsDescending (mergedCollection h store fresh tg).
Proof.
  unfold mergedCollection, clapsDescending.
  update_pass Hfold. cbn [merged].
  unfold collection. apply StronglySorted_map.
  apply (Array_sort_StronglySorted (fun r => clapsOrZero (h' r))).
Qed.

(** C2, as amended: the collection returned by [mergeArticles] is always
    sorted by claps descending with null counted as 0; it holds no URL
    twice when no URL occurs twice in the fresh list and none occurs twice
    in the existing collection. *)
Theorem mergeArticles_sorted_unique (h : heap)
    (store : gmap string (list loc)) (fresh : list loc) (tg : string) :
  clapsDescending (mergedCollection h store fresh tg) /\
  (List.NoDup (urls h fresh) ->
   List.NoDup (urls h (default [] (store !! tg))) ->
   List.NoDup (map url (mergedCollection h store fresh tg))).
Proof.
  split; [apply mergedCollection_sorted|].
  intros Hfresh Hold.
  eapply Permutation_NoDup;
    [symmetry; apply mergedCollection_urls|].
  unfold urls. rewrite map_app. apply NoDup_append.
  - exact Hfresh.
  - now apply NoDup_map_filter.
  - intros u Hu Hin. apply in_map_iff in Hin.
    destruct Hin as [e [<- He]]. apply filter_In in He.
    destruct He as [_ He]. apply notRefreshed_true in He. now apply He.
Qed.

Lemma mergeArticles_sorted_unique_witness :
  clapsDescending (mergedCollection sampleHeap sampleStore [1; 2] "programming")
  /\ List.NoDup (map url (mergedCollection sampleHeap sampleStore [1; 2]
                                            "programming")).
Proof.
  destruct (mergeArticles_sorted_unique sampleHeap sampleStore [1; 2]
              "programming") as [Hs Hu].
  split; [exact Hs|]. apply Hu.
  - vm_compute. repeat constructor; simpl; intuition discriminate.
  - vm_compute. repeat constructor; simpl; intuition discriminate.
Defined.

(** C2, as stated, fails: a fresh list that carries one URL twice is
    merged into a collection that carries it twice. *)
Lemma mergeArticles_duplicate_urls :
  mergedCollection twinHeap ∅ [0; 1] "programming" = [freshA; freshA] /\
  ~ List.NoDup (map url (mergedCollection twinHeap ∅ [0; 1] "programming")).
Proof.
  split; [vm_compute; reflexivity|].
  intros H. vm_compute in H. apply List.NoDup_cons_iff in H.
  destruct H as [H _]. apply H. now left.
Qed.

(** When no fresh URL is stored yet, the merge writes nothing: it puts
    the fresh articles in front of the stored ones and sorts. *)
Lemma mergeArticles_disjoint (h : heap) (store : gmap string (list loc))
    (fresh : list loc) (tg : string) :
  urlsDisjoint h fresh (default [] (store !! tg)) = true ->
  mergeArticles h store fresh tg =
  (h, {| merged := Array_sort (desc (fun r => clapsOrZero (h r)))
                     (fresh ++ default [] (store !! tg));
         newCount := length fresh; updatedCount := 0 |}).
Proof.
  intros Hd. rewrite urlsDisjoint_true in Hd.
  rewrite (mergeArticles_eq h store fresh tg h (length fresh + 0) 0).
  - rewrite Nat.add_0_r, forallb_filter_id; [reflexivity|].
    apply forallb_forall. intros e He.
    apply notRefreshed_true. unfold urls. rewrite in_map_iff.
    intros [a [Heq Ha]]. now apply (Hd a e).
  - apply visitNew_fold_no_hit. intros n Hn.
    apply urlIndex_None. unfold urls. rewrite in_map_iff.
    intros [e [Heq He]]. apply (Hd n e); congruence.
Qed.

Lemma mergedCollection_disjoint (h : heap) (store : gmap string (list loc))
    (fresh : list loc) (tg : string) :
  urlsDisjoint h fresh (default [] (store !! tg)) = true ->
  mergedCollection h store fresh tg =
  collection h (Array_sort (desc (fun r => clapsOrZero (h r)))
                           (fresh ++ default [] (store !! tg))).
Proof.
  intros Hd. unfold mergedCollection.
  now rewrite mergeArticles_disjoint.
Qed.

Lemma mergeTwice_disjoint (h : heap) (store : gmap string (list loc))
    (A B : list loc) (tg : string) :
  urlsDisjoint h A (default [] (store !! tg)) = true ->
  urlsDisjoint h B (default [] (store !! tg)) = true ->
  urlsDisjoint h B A = true ->
  mergeTwice h store A B tg =
  collection h (Array_sort (desc (fun r => clapsOrZero (h r)))
                           (B ++ A ++ default [] (store !! tg))).
Proof.
  intros HA HB HBA. unfold mergeTwice.
  rewrite mergeArticles_disjoint by assumption.
  unfold storeMerged. cbn [merged].
  rewrite mergedCollection_disjoint; rewrite lookup_insert_eq;
    cbn [from_option]; unfold id.
  - now rewrite Array_sort_app_sorted.
  - rewrite urlsDisjoint_true in *. intros b e Hb He.
    apply Array_sort_In, in_app_iff in He. destruct He; eauto.
Qed.

(** C4, as amended: for batches [A] and [B] whose URLs are disjoint from
    each other and from the stored collection, merging [A] and then [B]
    yields exactly the collection that one merge of [B] followed by [A]
    yields, and for any other order [U] of the union the same records in
    an order that is again sorted by claps (records of equal claps may
    trade places). *)
Theorem mergeArticles_batches (h : heap) (store : gmap string (list loc))
    (A B : list loc) (tg : string) :
  urlsDisjoint h A (default [] (store !! tg)) = true ->
  urlsDisjoint h B (default [] (store !! tg)) = true ->
  urlsDisjoint h B A = true ->
  mergeTwice h store A B tg = mergedCollection h store (B ++ A) tg /\
  forall U, Permutation U (A ++ B) ->
    Permutation (mergeTwice h store A B tg) (mergedCollection h store U tg) /\
    clapsDescending (mergedCollection h store U tg).
Proof.
  intros HA HB HBA. rewrite mergeTwice_disjoint by assumption. split.
  - rewrite mergedCollection_disjoint.
    + now rewrite <- app_assoc.
    + rewrite urlsDisjoint_true in *. intros x e Hx He.
      apply in_app_iff in Hx. destruct Hx; eauto.
  - intros U HU. split; [|apply mergedCollection_sorted].
    rewrite mergedCollection_disjoint.
    + unfold collection. apply Permutation_map.
      rewrite !Array_sort_Permutation, HU.
      rewrite app_assoc. apply Permutation_app_tail, Permutation_app_comm.
    + rewrite urlsDisjoint_true in *. intros x e Hx He.
      apply (Permutation_in _ HU), in_app_iff in Hx. destruct Hx; eauto.
Qed.

Lemma mergeArticles_batches_witness :
  mergeTwice tieHeap ∅ [0] [1] "programming"
    = mergedCollection tieHeap ∅ ([1] ++ [0]) "programming" /\
  forall U, Permutation U ([0] ++ [1]) ->
    Permutation (mergeTwice tieHeap ∅ [0] [1] "programming")
                (mergedCollection tieHeap ∅ U "programming") /\
    clapsDescending (mergedCollection tieHeap ∅ U "programming").
Proof.
  apply (mergeArticles_batches tieHeap ∅ [0] [1] "programming");
    vm_compute; reflexivity.
Defined.

(** C4, as stated, fails for the batch [A ++ B]: two articles with equal
    claps come out in the other order, whatever their capture times. *)
Lemma mergeArticles_batches_order :
  urlsDisjoint tieHeap [0] [] = true /\
  urlsDisjoint tieHeap [1] [] = true /\
  urlsDisjoint tieHeap [1] [0] = true /\
  mergeTwice tieHeap ∅ [0] [1] "programming" = [freshB; freshA] /\
  mergedCollection tieHeap ∅ ([0] ++ [1]) "programming" = [freshA; freshB] /\
  map withoutCreatedAt (mergeTwice tieHeap ∅ [0] [1] "programming") <>
  map withoutCreatedAt (mergedCollection tieHeap ∅ ([0] ++ [1]) "programming").
Proof.
  repeat split; try (vm_compute; reflexivity).
  vm_compute. discriminate.
Qed.

(** C1: the claim holds for claps and comments and fails for the title
    and the capture time.  With one stored article and one fresh article
    of the same URL, [mergeArticles] returns the fresh object, with the
    fresh title and the fresh [createdAt]; the stored object does get the
    fresh counters written in place, and is then left out of the result. *)
Theorem mergeArticles_shared_url :
  mergedCollection sampleHeap sampleStore [1] "programming" = [freshA] /\
  merged (snd (mergeArticles sampleHeap sampleStore [1] "programming")) = [1] /\
  updatedCount (snd (mergeArticles sampleHeap sampleStore [1] "programming")) = 1 /\
  newCount (snd (mergeArticles sampleHeap sampleStore [1] "programming")) = 0 /\
  fst (mergeArticles sampleHeap sampleStore [1] "programming") 0
    = write_comments (Some 2%Z) (write_claps (Some 20%Z) storedA) /\
  url freshA = url storedA /\
  title freshA <> title storedA /\
  createdAt freshA <> createdAt storedA.
Proof.
  repeat split; try (vm_compute; reflexivity); vm_compute; discriminate.
Qed.

(** In general the record that the merged collection holds for a URL of
    the fresh batch is one of the fresh objects. *)
Lemma mergeArticles_refreshed_is_fresh (h : heap)
    (store : gmap string (list loc)) (fresh : list loc) (tg : string)
    (r : loc) :
  In r (merged (snd (mergeArticles h store fresh tg))) ->
  In (url (h r)) (urls h fresh) ->
  In r fresh.
Proof.
  intros Hr Hu. apply mergeArticles_members in Hr. tauto.
Qed.

(** ** The normalise/filter/rank tail of [scrapeTag] *)

Lemma slice_to_In {A} (l : list A) (x : number) (a : A) :
  In a (slice_to l x) -> In a l.
Proof.
  unfold slice_to. destruct (toIntegerOrInfinity x) as [|z|];
    [intros []| |trivial].
  destruct (z <? 0)%Z; intros H;
    match type of H with In _ (firstn ?n _) =>
      rewrite <- (firstn_skipn n l); apply in_or_app; now left
    end.
Qed.

Lemma filterItems_In (o : ScrapeOptions) (l : list Article) (a : Article) :
  In a (filterItems o l) <->
  In a l /\ has_url a = true /\ passes_include o a = true /\
  passes_exclude o a = true /\ passes_minClaps o a = true.
Proof. unfold filterItems. rewrite !filter_In. tauto. Qed.

Lemma filterItems_app (o : ScrapeOptions) (l1 l2 : list Article) :
  filterItems o (l1 ++ l2) = (filterItems o l1 ++ filterItems o l2)%list.
Proof. unfold filterItems. now rewrite !List.filter_app. Qed.

Lemma rankItems_In parseURL clock tg o t items a :
  In a (rankItems parseURL clock tg o t items) ->
  In a (filterItems o (normalizeItems parseURL clock tg t items)).
Proof.
  unfold rankItems. intros H. apply slice_to_In in H.
  now apply Array_sort_In in H.
Qed.

Lemma normalizeItems_In parseURL clock tg t items a :
  In a (normalizeItems parseURL clock tg t items) ->
  exists i x, nth_error items i = Some x /\
              a = normalizeItem parseURL clock tg (t + i) x.
Proof.
  revert t. induction items as [|x items IH]; intros t; simpl; [tauto|].
  intros [<-|H].
  - exists 0, x. now rewrite Nat.add_0_r.
  - apply IH in H. destruct H as [i [y [Hi ->]]].
    exists (S i), y. split; [exact Hi|]. f_equal. lia.
Qed.

Lemma normalizeItems_relabel parseURL clock tg t f g items :
  normalizeItems parseURL clock tg t
    (map (fun x => relabel (f x) (g x) x) items)
  = normalizeItems parseURL clock tg t items.
Proof.
  revert t. induction items as [|x items IH]; intros t; simpl; [reflexivity|].
  now rewrite IH.
Qed.

(** C5: with [--include ai --exclude scam --minClaps 100], an article
    titled "AI and Scam Alert" with 150 claps is in no result of the
    filters, nor of [scrapeTag] (the exclude filter wins over the include
    filter); an article titled "AI Breakthrough" with 50 claps is in none
    either (below the threshold); an article titled "AI Breakthrough"
    with 150 claps and a URL passes the filters wherever it stands in
    the list; and, for every option record, an article whose claps are
    null passes the minimum-claps filter. *)
Theorem filter_composition :
  (forall lim u c m tg l parseURL clock tg' t page,
     let a := {| url := u; title := Some "AI and Scam Alert"; createdAt := c;
                 claps := Some 150%Z; comments := m; tag := tg |} in
     passes_include (filterOptions lim) a = true /\
     passes_exclude (filterOptions lim) a = false /\
     ~ In a (filterItems (filterOptions lim) l) /\
     ~ In a (scrapeTag parseURL clock tg' (filterOptions lim) t page)) /\
  (forall lim u c m tg l parseURL clock tg' t page,
     let a := {| url := u; title := Some "AI Breakthrough"; createdAt := c;
                 claps := Some 50%Z; comments := m; tag := tg |} in
     passes_minClaps (filterOptions lim) a = false /\
     ~ In a (filterItems (filterOptions lim) l) /\
     ~ In a (scrapeTag parseURL clock tg' (filterOptions lim) t page)) /\
  (forall lim u c m tg l1 l2,
     let a := {| url := Some u; title := Some "AI Breakthrough"; createdAt := c;
                 claps := Some 150%Z; comments := m; tag := tg |} in
     filterItems (filterOptions lim) (l1 ++ a :: l2) =
     (filterItems (filterOptions lim) l1 ++
      a :: filterItems (filterOptions lim) l2)%list) /\
  (forall o u ti c m tg,
     passes_minClaps o {| url := u; title := ti; createdAt := c;
                          claps := None; comments := m; tag := tg |} = true).
Proof.
  split; [|split; [|split]].
  - intros lim u c m tg l parseURL clock tg' t page a.
    assert (Hex : passes_exclude (filterOptions lim) a = false)
      by (vm_compute; reflexivity).
    assert (Hno : forall l', ~ In a (filterItems (filterOptions lim) l')).
    { intros l' H. apply filterItems_In in H. destruct H as (_ & _ & _ & H & _).
      rewrite Hex in H. discriminate. }
    split; [|split; [exact Hex|split; [apply Hno|]]].
    { vm_compute. reflexivity. }
    destruct page as [items|]; simpl; [|tauto].
    intros H. apply rankItems_In in H. now apply Hno in H.
  - intros lim u c m tg l parseURL clock tg' t page a.
    assert (Hmin : passes_minClaps (filterOptions lim) a = false)
      by (vm_compute; reflexivity).
    assert (Hno : forall l', ~ In a (filterItems (filterOptions lim) l')).
    { intros l' H. apply filterItems_In in H. destruct H as (_ & _ & _ & _ & H).
      rewrite Hmin in H. discriminate. }
    split; [exact Hmin|split; [apply Hno|]].
    destruct page as [items|]; simpl; [|tauto].
    intros H. apply rankItems_In in H. now apply Hno in H.
  - intros lim u c m tg l1 l2 a.
    rewrite filterItems_app. reflexivity.
  - reflexivity.
Qed.

(** C7: every article that [scrapeTag] returns is the normalisation of
    one of the raw candidates, and its [createdAt] is the clock reading
    taken when that candidate was normalised; the result is the same
    whatever the [datetime] and [timeLabel] of the candidates are, so
    nothing computed from the time label reaches the record. *)
Theorem createdAt_is_capture_time parseURL clock tg o t :
  (forall k x, createdAt (normalizeItem parseURL clock tg k x) = clock k) /\
  (forall items,
     List.Forall
       (fun a => exists i x, nth_error items i = Some x /\
                  a = normalizeItem parseURL clock tg (t + i) x /\
                  createdAt a = clock (t + i))
       (scrapeTag parseURL clock tg o t (Some items))) /\
  (forall f g page,
     scrapeTag parseURL clock tg o t
       (option_map (map (fun x => relabel (f x) (g x) x)) page)
     = scrapeTag parseURL clock tg o t page).
Proof.
  split; [reflexivity|split].
  - intros items. apply List.Forall_forall. intros a Ha. simpl in Ha.
    apply rankItems_In, filterItems_In in Ha. destruct Ha as [Ha _].
    apply normalizeItems_In in Ha. destruct Ha as [i [x [Hi ->]]].
    now exists i, x.
  - intros f g [items|]; simpl; [|reflexivity].
    unfold rankItems. now rewrite normalizeItems_relabel.
Qed.

(** ** [normalizeArticleUrl] *)

Lemma append_empty_r (s : string) : s ++ "" = s.
Proof.
  induction s as [|c s IH]; [reflexivity|].
  change (String c s ++ "") with (String c (s ++ "")). now rewrite IH.
Qed.

Lemma append_associative (a b c : string) : (a ++ b) ++ c = a ++ b ++ c.
Proof.
  induction a as [|x a IH]; [reflexivity|].
  change ((String x a ++ b) ++ c) with (String x ((a ++ b) ++ c)).
  now rewrite IH.
Qed.

Lemma href_nonempty (u : URL) : href u <> "".
Proof.
  unfold href, origin_part. destruct (scheme u); simpl; discriminate.
Qed.

Lemma strip_trailing_spaces_idempotent (s : string) :
  strip_trailing_spaces (strip_trailing_spaces s) = strip_trailing_spaces s.
Proof.
  induction s as [|c s IH]; simpl; [reflexivity|].
  destruct (strip_trailing_spaces s) as [|d t] eqn:E.
  - destruct (Ascii.eqb c " ") eqn:Ec; simpl; [reflexivity|].
    now rewrite Ec.
  - cbn [strip_trailing_spaces] in *. rewrite IH. reflexivity.
Qed.

(** Both setters together: query and fragment are gone, an opaque path
    has lost its trailing spaces, the rest is as parsed. *)
Lemma cleared_form (u : URL) :
  clear_hash (clear_search u) =
  {| scheme := scheme u; username := username u; password := password u;
     host := host u; port := port u;
     path := match path u with
             | OpaquePath p => OpaquePath (strip_trailing_spaces p)
             | ListPath segs => ListPath segs
             end;
     query := None; fragment := None |}.
Proof.
  destruct u as [sc un pw ho po [p|segs] q [f|]];
    lazy [clear_hash clear_search potentially_strip
          scheme username password host port path query fragment];
    try reflexivity.
  now rewrite strip_trailing_spaces_idempotent.
Qed.

Lemma cleared_fields (u : URL) :
  let v := clear_hash (clear_search u) in
  scheme v = scheme u /\ username v = username u /\
  password v = password u /\ host v = host u /\ port v = port u /\
  query v = None /\ fragment v = None.
Proof. cbv zeta. rewrite cleared_form. cbn. tauto. Qed.

(** Clearing an already cleared record changes nothing. *)
Lemma cleared_fixed (u : URL) :
  clear_hash (clear_search (clear_hash (clear_search u)))
  = clear_hash (clear_search u).
Proof.
  rewrite (cleared_form u). rewrite cleared_form. cbn.
  destruct (path u); [|reflexivity].
  now rewrite strip_trailing_spaces_idempotent.
Qed.

Lemma href_cleared (u : URL) :
  query u = None -> fragment u = None ->
  href u = origin_part u ++ path_part u.
Proof.
  unfold href. intros -> ->. now rewrite !append_empty_r.
Qed.

Lemma normalizeArticleUrl_Some parseURL (s : string) (u : URL) :
  s <> "" -> parseURL s = Some u ->
  normalizeArticleUrl parseURL (Some s) = Some (href (clear_hash (clear_search u))).
Proof.
  intros Hs Hp. unfold normalizeArticleUrl.
  destruct s; [congruence|]. now rewrite Hp.
Qed.

Lemma normalizeArticleUrl_inv parseURL absUrl out :
  normalizeArticleUrl parseURL absUrl = Some out ->
  exists s u, absUrl = Some s /\ s <> "" /\ parseURL s = Some u /\
              out = href (clear_hash (clear_search u)).
Proof.
  unfold normalizeArticleUrl. destruct absUrl as [[|c s]|]; try discriminate.
  destruct (parseURL (String c s)) as [u|] eqn:Hp; [|discriminate].
  intros [= <-]. exists (String c s), u. repeat split; congruence.
Qed.

(** C3, as amended: [normalizeArticleUrl] returns null exactly when the
    input is absent, empty or rejected by the URL parser; otherwise it
    returns the serialization of the parsed URL without query and
    fragment, which is the scheme, the authority (credentials and port
    included when the URL has them, besides the host) and the path.  The
    path is the parsed one, except that an opaque path (that of a URL
    such as [mailto:] or [data:], which has no segments) has lost its
    trailing spaces.  For a URL with a host, a path of segments and
    neither credentials nor port the result is the scheme, [://], the
    host and every segment with a slash before it. *)
Theorem normalizeArticleUrl_shape parseURL (absUrl : option string) :
  (normalizeArticleUrl parseURL absUrl = None /\
   (absUrl = None \/ absUrl = Some "" \/
    exists s, absUrl = Some s /\ parseURL s = None)) \/
  (exists s u,
     absUrl = Some s /\ s <> "" /\ parseURL s = Some u /\
     let v := clear_hash (clear_search u) in
     scheme v = scheme u /\ username v = username u /\
     password v = password u /\ host v = host u /\ port v = port u /\
     path v = match path u with
              | OpaquePath p => OpaquePath (strip_trailing_spaces p)
              | ListPath segs => ListPath segs
              end /\
     query v = None /\ fragment v = None /\
     normalizeArticleUrl parseURL absUrl = Some (origin_part v ++ path_part v) /\
     (forall h segs,
        host u = Some h -> path u = ListPath segs ->
        username u = "" -> password u = "" -> port u = None ->
        normalizeArticleUrl parseURL absUrl
        = Some (scheme u ++ "://" ++ h ++
                fold_right (fun seg acc => "/" ++ seg ++ acc) "" segs))).
Proof.
  destruct absUrl as [[|c s]|].
  - left. split; [reflexivity|]. right. now left.
  - destruct (parseURL (String c s)) as [u|] eqn:Hp.
    + right. exists (String c s), u.
      split; [reflexivity|]. split; [discriminate|]. split; [exact Hp|].
      destruct (cleared_fields u) as (H1 & H2 & H3 & H4 & H5 & H6 & H7).
      cbv zeta. repeat (split; [assumption|]).
      split; [now rewrite cleared_form|].
      repeat (split; [assumption|]).
      assert (Hout : normalizeArticleUrl parseURL (Some (String c s))
                = Some (origin_part (clear_hash (clear_search u)) ++
                        path_part (clear_hash (clear_search u)))).
      { rewrite <- href_cleared by assumption.
        now apply normalizeArticleUrl_Some. }
      split; [exact Hout|].
      intros h segs Hh Hsegs Hu Hpw Hpo. rewrite Hout, cleared_form.
      unfold origin_part, path_part.
      cbn [scheme username password host port path].
      rewrite Hh, Hsegs, Hu, Hpw, Hpo. cbn [nonempty orb].
      change ("//" ++ "" ++ h ++ "") with ("//" ++ h ++ "").
      rewrite append_empty_r.
      change ("" ++ fold_right ?f "" segs) with (fold_right f "" segs).
      rewrite !append_associative. reflexivity.
    + left. split.
      * unfold normalizeArticleUrl. now rewrite Hp.
      * right. right. now exists (String c s).
  - left. split; [reflexivity|]. now left.
Qed.

(** C3, as stated, fails: the credentials and the port of the input are
    kept, so the result is more than scheme, host and path. *)
Lemma normalizeArticleUrl_keeps_credentials :
  normalizeArticleUrl credentialsParse
    (Some "https://user:pw@medium.com:8080/p/abc123?source=home#top")
  = Some "https://user:pw@medium.com:8080/p/abc123" /\
  normalizeArticleUrl credentialsParse
    (Some "https://user:pw@medium.com:8080/p/abc123?source=home#top")
  <> Some "https://medium.com/p/abc123".
Proof. split; [vm_compute; reflexivity|vm_compute; discriminate]. Qed.

(** C8: when the platform's parser reads the serialization of a URL
    object back into the same URL record, [normalizeArticleUrl] maps each
    of its results to itself. *)
Theorem normalizeArticleUrl_idempotent parseURL (absUrl : option string)
    (out : string) :
  roundTrips parseURL ->
  normalizeArticleUrl parseURL absUrl = Some out ->
  normalizeArticleUrl parseURL (Some out) = Some out.
Proof.
  intros Hrt H. apply normalizeArticleUrl_inv in H.
  destruct H as (s & u & _ & _ & Hp & ->).
  rewrite (normalizeArticleUrl_Some parseURL _ (clear_hash (clear_search u))).
  - now rewrite cleared_fixed.
  - apply href_nonempty.
  - apply Hrt. apply Reachable_hash, Reachable_search.
    now apply (Reachable_parsed _ s).
Qed.

Lemma sampleParse_reachable (u : URL) :
  Reachable sampleParse u ->
  In u [mediumURL (Some "source=home") (Some "top");
        mediumURL (Some "source=home") None;
        mediumURL None (Some "top"); mediumURL None None].
Proof.
  induction 1 as [s u Hs|u _ IH|u _ IH].
  - unfold sampleParse, tableParse in Hs.
    repeat (destruct (String.eqb s _);
            [injection Hs as <-; simpl; tauto|]).
    discriminate.
  - simpl in IH. destruct IH as [<-|[<-|[<-|[<-|[]]]]]; vm_compute; tauto.
  - simpl in IH. destruct IH as [<-|[<-|[<-|[<-|[]]]]]; vm_compute; tauto.
Qed.

Lemma sampleParse_roundTrips : roundTrips sampleParse.
Proof.
  intros u Hu. apply sampleParse_reachable in Hu. simpl in Hu.
  destruct Hu as [<-|[<-|[<-|[<-|[]]]]]; vm_compute; reflexivity.
Qed.

Lemma normalizeArticleUrl_idempotent_witness :
  normalizeArticleUrl sampleParse
    (Some "https://medium.com/p/abc123?source=home#top")
  = Some "https://medium.com/p/abc123" /\
  normalizeArticleUrl sampleParse (Some "https://medium.com/p/abc123")
  = Some "https://medium.com/p/abc123".
Proof.
  split; [vm_compute; reflexivity|].
  apply (normalizeArticleUrl_idempotent sampleParse
           (Some "https://medium.com/p/abc123?source=home#top")).
  - exact sampleParse_roundTrips.
  - vm_compute. reflexivity.
Defined.

(** ** [loadExistingData] *)

(** C9: [loadExistingData] always returns and never throws; when reading
    the file throws, or the file is read and [JSON.parse] throws on its
    text, the result is the empty mapping; when both succeed the result
    is the parsed document. *)
Theorem loadExistingData_recovers readFile JSON_parse (filePath : string) :
  (exists store,
     loadExistingData readFile JSON_parse filePath = Returned store) /\
  ((exists e, readFile filePath = Thrown e) \/
   (exists text e, readFile filePath = Returned text /\
                   JSON_parse text = Thrown e) ->
   loadExistingData readFile JSON_parse filePath = Returned ∅) /\
  (forall text store,
     readFile filePath = Returned text -> JSON_parse text = Returned store ->
     loadExistingData readFile JSON_parse filePath = Returned store).
Proof.
  unfold loadExistingData, tryCatch, andThen.
  destruct (readFile filePath) as [text|e] eqn:Hr.
  - destruct (JSON_parse text) as [store|e] eqn:Hj.
    + split; [now exists store|]. split.
      * intros [[e He]|(t & e & Ht & He)]; [discriminate|].
        injection Ht as <-. congruence.
      * intros t st [= <-] Hst. congruence.
    + split; [now exists ∅|]. split; [reflexivity|].
      intros t st [= <-] Hst. congruence.
  - split; [now exists ∅|]. split; [reflexivity|]. discriminate.
Qed.

Lemma loadExistingData_recovers_witness :
  loadExistingData missingFile rejectingParse
    "medium_recommended/medium-articles-2025-09.json" = Returned ∅ /\
  loadExistingData corruptFile rejectingParse
    "medium_recommended/medium-articles-2025-09.json" = Returned ∅.
Proof.
  split.
  - apply (loadExistingData_recovers missingFile rejectingParse).
    left. eexists. reflexivity.
  - apply (loadExistingData_recovers corruptFile rejectingParse).
    right. do 2 eexists. split; reflexivity.
Defined.

(** ** The numeric token parser [toNum] *)

Lemma span_digits_app (ip rest : string) :
  forall_chars is_digit ip = true ->
  starts_with is_digit rest = false ->
  span is_digit (ip ++ rest) = (ip, rest).
Proof.
  intros Hip Hrest. induction ip as [|c ip IH].
  - destruct rest as [|d rest]; simpl in *; [reflexivity|].
    now rewrite Hrest.
  - simpl in Hip. apply andb_true_iff in Hip. destruct Hip as [Hc Hip].
    change (String c ip ++ rest) with (String c (ip ++ rest)).
    cbn [span]. rewrite Hc, (IH Hip). reflexivity.
Qed.

Lemma exec_number_skip (pre s : string) :
  no_digit pre = true -> exec_number (pre ++ s) = exec_number s.
Proof.
  induction pre as [|c pre IH]; intros H; [reflexivity|].
  simpl in H. apply andb_true_iff in H. destruct H as [Hc H].
  change (String c pre ++ s) with (String c (pre ++ s)).
  cbn [exec_number]. apply negb_true_iff in Hc. rewrite Hc. now apply IH.
Qed.

Lemma exec_number_head (s : string) :
  starts_with is_digit s = true ->
  exec_number s =
  let (ip, r1) := span is_digit s in
  let (num, r2) :=
    match r1 with
    | String "." r =>
        let (fp, r') := span is_digit r in
        if nonempty fp then (ip ++ "." ++ fp, r') else (ip, r1)
    | _ => (ip, r1)
    end in
  Some (num, suffixOf r2).
Proof.
  destruct s as [|c s]; simpl; [discriminate|].
  intros ->. reflexivity.
Qed.

Lemma starts_with_app (p : ascii -> bool) (a b : string) :
  nonempty a = true -> starts_with p (a ++ b) = starts_with p a.
Proof. destruct a; [discriminate|reflexivity]. Qed.

Lemma forall_chars_head (p : ascii -> bool) (a : string) :
  nonempty a = true -> forall_chars p a = true -> starts_with p a = true.
Proof.
  destruct a; [discriminate|]. simpl. intros _ H.
  now apply andb_true_iff in H.
Qed.

(** The match on a run of digits that no fraction follows. *)
Lemma exec_number_integer (pre ip rest : string) :
  no_digit pre = true ->
  nonempty ip = true -> forall_chars is_digit ip = true ->
  starts_with is_digit rest = false ->
  starts_with_fraction rest = false ->
  exec_number (pre ++ ip ++ rest) = Some (ip, suffixOf rest).
Proof.
  intros Hpre Hne Hip Hrest Hfrac.
  rewrite exec_number_skip by assumption.
  rewrite exec_number_head
    by (rewrite starts_with_app by assumption; now apply forall_chars_head).
  rewrite span_digits_app by assumption.
  destruct rest as [|c rest]; [reflexivity|].
  destruct (Ascii.eqb_spec c "."%char) as [->|Hc].
  - simpl in Hfrac.
    destruct rest as [|d rest]; [reflexivity|].
    simpl in Hfrac. cbn [span]. rewrite Hfrac. reflexivity.
  - destruct c as [[] [] [] [] [] [] [] []]; try reflexivity.
    now contradiction Hc.
Qed.

(** The match on digits, a point and digits. *)
Lemma exec_number_fraction (pre ip fp rest : string) :
  no_digit pre = true ->
  nonempty ip = true -> forall_chars is_digit ip = true ->
  nonempty fp = true -> forall_chars is_digit fp = true ->
  starts_with is_digit rest = false ->
  exec_number (pre ++ ip ++ "." ++ fp ++ rest)
  = Some (ip ++ "." ++ fp, suffixOf rest).
Proof.
  intros Hpre Hne Hip Hnf Hfp Hrest.
  rewrite exec_number_skip by assumption.
  rewrite exec_number_head
    by (rewrite starts_with_app by assumption; now apply forall_chars_head).
  rewrite span_digits_app by (assumption || reflexivity).
  change ("." ++ fp ++ rest) with (String "." (fp ++ rest)).
  cbv iota. rewrite span_digits_app by assumption. now rewrite Hnf.
Qed.

Lemma exec_number_None (s : string) :
  exec_number s = None <-> no_digit s = true.
Proof.
  induction s as [|c s IH]; [simpl; tauto|].
  cbn [exec_number no_digit forall_chars].
  destruct (is_digit c) eqn:Hc.
  - destruct (span is_digit (String c s)) as [ip r1].
    destruct (match r1 with
              | String "." r =>
                  let (fp, r') := span is_digit r in
                  if nonempty fp then (ip ++ "." ++ fp, r') else (ip, r1)
              | _ => (ip, r1)
              end) as [num r2].
    simpl. split; discriminate.
  - simpl. exact IH.
Qed.

Lemma no_digit_keep_chars (s : string) :
  no_digit (keep_chars is_numeric_char s) = no_digit s.
Proof.
  induction s as [|c s IH]; [reflexivity|].
  cbn [keep_chars]. unfold is_numeric_char at 1.
  destruct (is_digit c) eqn:Hc; simpl.
  - unfold no_digit. simpl. now rewrite Hc.
  - destruct (Ascii.eqb c "." || is_suffix c); unfold no_digit in *; simpl;
      rewrite Hc; simpl; exact IH.
Qed.

(** [toNum] in one equation: null for a null or empty input, else the
    rounded, scaled first number of the cleaned string. *)
Lemma toNum_eq (s : string) :
  toNum (Some s) =
  if nonempty s then
    match exec_number (keep_chars is_numeric_char s) with
    | Some (m1, m2) => Some (Math_round (scaleBy m2 (Number m1)))
    | None => None
    end
  else None.
Proof.
  unfold toNum, scaleBy. destruct s as [|c s]; [reflexivity|].
  cbn [nonempty].
  destruct (exec_number (keep_chars is_numeric_char (String c s)))
    as [[m1 m2]|]; [|reflexivity].
  destruct m2 as [|k m2]; [reflexivity|]. cbn [str_or].
  destruct (String.eqb (toLowerCase (String k m2)) "k"); [reflexivity|].
  destruct (String.eqb (toLowerCase (String k m2)) "m"); reflexivity.
Qed.

(** [nearestInteger] is the integer within one half of the value, the
    upper one at a tie: [z - 1/2 <= m * 2^e < z + 1/2], with both sides
    multiplied by [2 * 2^(-e)]. *)
Lemma nearestInteger_spec (s : bool) (m : positive) (e : Z) :
  (e < 0)%Z ->
  let sm := if s then Z.neg m else Z.pos m in
  let z := nearestInteger s m e in
  ((2 * z - 1) * 2 ^ (- e) <= 2 * sm < (2 * z + 1) * 2 ^ (- e))%Z.
Proof.
  intros He sm z. unfold z, nearestInteger. fold sm.
  assert (Hd : (0 < 2 ^ (- e))%Z) by (apply Z.pow_pos_nonneg; lia).
  set (d := (2 ^ (- e))%Z) in *.
  pose proof (Z.div_mod (2 * sm + d) (2 * d) ltac:(lia)) as Hdm.
  pose proof (Z.mod_pos_bound (2 * sm + d) (2 * d) ltac:(lia)) as Hb.
  nia.
Qed.

Lemma nonempty_app_r (a b : string) :
  nonempty b = true -> nonempty (a ++ b) = true.
Proof. destruct a; [trivial|reflexivity]. Qed.

Lemma nonempty_app_l (a b : string) :
  nonempty a = true -> nonempty (a ++ b) = true.
Proof. destruct a; [discriminate|reflexivity]. Qed.

Lemma keep_chars_nonempty (p : ascii -> bool) (s : string) :
  nonempty (keep_chars p s) = true -> nonempty s = true.
Proof. destruct s; [discriminate|reflexivity]. Qed.

(** C6: [toNum] drops every character but digits, the point and the
    letters k, K, m, M; in what is left it takes the first run of digits
    (the leading one when the string starts with a digit), with the
    fraction that follows it, and the suffix letter right after; it
    scales by 1,000 for k and 1,000,000 for m and rounds to the nearest
    integer.  "1.2k" gives 1200, "3M" gives 3000000, "42" gives 42; null,
    the empty string and every string without a digit give null. *)
Theorem toNum_numeric_token :
  (* the examples *)
  (toNum (Some "1.2k") = Some (of_Z 1200) /\
   toNum (Some "3M") = Some (of_Z 3000000) /\
   toNum (Some "42") = Some (of_Z 42) /\
   toNum (Some "") = None /\ toNum None = None /\
   toNum (Some "no claps yet") = None) /\
  (* null exactly when there is no digit *)
  (forall s, toNum (Some s) = None <-> no_digit s = true) /\
  (* only the kept characters matter *)
  (forall s s', nonempty s = true -> nonempty s' = true ->
     keep_chars is_numeric_char s = keep_chars is_numeric_char s' ->
     toNum (Some s) = toNum (Some s')) /\
  (* digits, an optional fraction, an optional suffix *)
  (forall s pre ip rest,
     keep_chars is_numeric_char s = pre ++ ip ++ rest ->
     no_digit pre = true ->
     nonempty ip = true -> forall_chars is_digit ip = true ->
     starts_with is_digit rest = false ->
     starts_with_fraction rest = false ->
     toNum (Some s) = Some (Math_round (scaleBy (suffixOf rest) (Number ip)))) /\
  (forall s pre ip fp rest,
     keep_chars is_numeric_char s = pre ++ ip ++ "." ++ fp ++ rest ->
     no_digit pre = true ->
     nonempty ip = true -> forall_chars is_digit ip = true ->
     nonempty fp = true -> forall_chars is_digit fp = true ->
     starts_with is_digit rest = false ->
     toNum (Some s)
     = Some (Math_round (scaleBy (suffixOf rest) (Number (ip ++ "." ++ fp))))) /\
  (* the scale of each suffix *)
  (forall n, scaleBy "k" n = mul n (of_Z 1000) /\
             scaleBy "K" n = mul n (of_Z 1000) /\
             scaleBy "m" n = mul n (of_Z 1000000) /\
             scaleBy "M" n = mul n (of_Z 1000000) /\
             scaleBy "" n = n) /\
  (* rounding to the nearest integer *)
  (forall sg m e, (e < 0)%Z ->
     let z := nearestInteger sg m e in
     Math_round (S754_finite sg m e) = binary_normalize prec emax z 0 sg /\
     ((2 * z - 1) * 2 ^ (- e)
        <= 2 * (if sg then Z.neg m else Z.pos m)
        < (2 * z + 1) * 2 ^ (- e))%Z).
Proof.
  split; [repeat split; vm_compute; reflexivity|].
  split; [|split; [|split; [|split; [|split]]]].
  - intros s. rewrite toNum_eq. destruct s as [|c s]; [simpl; tauto|].
    cbn [nonempty]. rewrite <- no_digit_keep_chars, <- exec_number_None.
    destruct (exec_number _) as [[m1 m2]|]; split; congruence.
  - intros s s' Hs Hs' Heq. rewrite !toNum_eq, Hs, Hs', Heq. reflexivity.
  - intros s pre ip rest Hk Hpre Hne Hip Hrest Hfrac.
    rewrite toNum_eq, Hk, exec_number_integer by assumption.
    rewrite (keep_chars_nonempty is_numeric_char); [reflexivity|].
    rewrite Hk. now apply nonempty_app_r, nonempty_app_l.
  - intros s pre ip fp rest Hk Hpre Hne Hip Hnf Hfp Hrest.
    rewrite toNum_eq, Hk, exec_number_fraction by assumption.
    rewrite (keep_chars_nonempty is_numeric_char); [reflexivity|].
    rewrite Hk. now apply nonempty_app_r, nonempty_app_l.
  - intros n. repeat split.
  - intros sg m e He z. split.
    + unfold Math_round. destruct (Z.leb_spec 0 e); [lia|reflexivity].
    + now apply nearestInteger_spec.
Qed.

Lemma toNum_numeric_token_witness :
  toNum (Some "Clap 1.2K times")
    = Some (Math_round (scaleBy "K" (Number "1.2"))) /\
  toNum (Some "3M") = Some (Math_round (scaleBy "M" (Number "3"))) /\
  toNum (Some "1,234") = toNum (Some "1234") /\
  (toNum (Some "k") = None) /\
  Math_round (Number "2.5") = of_Z 3.
Proof.
  destruct toNum_numeric_token as (_ & Hnull & Hkeep & Hint & Hfrac & _ & Hround).
  split; [|split; [|split; [|split]]].
  - apply (Hfrac "Clap 1.2K times" "" "1" "2" "Km"); reflexivity.
  - apply (Hint "3M" "" "3" "M"); reflexivity.
  - apply Hkeep; reflexivity.
  - apply Hnull. reflexivity.
  - destruct (Hround false 5629499534213120%positive (-51)%Z ltac:(lia))
      as [H _].
    vm_compute in H |- *. exact H.
Defined.

(** ** [parseArgs] *)

Lemma num_or_truthy (x d : number) :
  truthy d = true -> truthy (num_or x d) = true.
Proof. unfold num_or. destruct (truthy x) eqn:Hx; trivial. Qed.

Lemma set_option_limit_truthy (a : string) (v : option string)
    (p : ParsedArgs) :
  truthy (limit p) = true -> truthy (limit (set_option a v p)) = true.
Proof.
  intros Hp. unfold set_option.
  repeat match goal with
         | |- context [if String.eqb a ?k then _ else _] =>
             destruct (String.eqb a k)
         end; try exact Hp.
  now apply num_or_truthy.
Qed.

Lemma parseOptions_limit_truthy (args : list string) (p : ParsedArgs) :
  truthy (limit p) = true -> truthy (limit (parseOptions args p)) = true.
Proof.
  remember (length args) as n eqn:Hn.
  revert args p Hn. induction n as [n IH] using lt_wf_ind.
  intros [|a [|v rest]] p Hn Hp.
  - exact Hp.
  - simpl. destruct (is_option a); [now apply set_option_limit_truthy|exact Hp].
  - change (parseOptions (a :: v :: rest) p)
      with (if is_option a then parseOptions rest (set_option a (Some v) p)
            else parseOptions (v :: rest) p).
    simpl in Hn. destruct (is_option a).
    + apply (IH (length rest)); [lia|reflexivity|].
      now apply set_option_limit_truthy.
    + apply (IH (length (v :: rest))); [simpl; lia|reflexivity|exact Hp].
Qed.

Lemma set_option_numeric (v : option string) (p : ParsedArgs) :
  scrolls (set_option "--scrolls" v p) = num_or (Number (default "6" v)) (of_Z 6) /\
  minClaps (set_option "--minClaps" v p) = num_or (Number (default "0" v)) (of_Z 0) /\
  limit (set_option "--limit" v p) = num_or (Number (default "30" v)) (of_Z 30).
Proof. repeat split. Qed.

Lemma num_or_falsy (x d : number) : truthy x = false -> num_or x d = d.
Proof. unfold num_or. now intros ->. Qed.

(** C10: a value of [--scrolls], [--minClaps] or [--limit] whose
    [Number] is 0 or NaN gives the option its default (6, 0 and 30),
    whatever the option held before; [--limit 0] gives 30, [--scrolls 0]
    gives 6, a value that is no number gives the defaults; and no
    command line makes the limit 0 or NaN. *)
Theorem parseArgs_numeric_fallback :
  (forall v p, truthy (Number v) = false ->
     scrolls (set_option "--scrolls" (Some v) p) = of_Z 6 /\
     minClaps (set_option "--minClaps" (Some v) p) = of_Z 0 /\
     limit (set_option "--limit" (Some v) p) = of_Z 30) /\
  (forall a0 v, truthy (Number v) = false ->
     (exists p, parseArgs [a0; "--scrolls"; v] = Some p /\ scrolls p = of_Z 6) /\
     (exists p, parseArgs [a0; "--minClaps"; v] = Some p /\ minClaps p = of_Z 0) /\
     (exists p, parseArgs [a0; "--limit"; v] = Some p /\ limit p = of_Z 30)) /\
  (truthy (Number "0") = false /\ truthy (Number "many") = false /\
   option_map limit (parseArgs ["ai"; "--limit"; "0"]) = Some (of_Z 30) /\
   option_map scrolls (parseArgs ["ai"; "--scrolls"; "0"]) = Some (of_Z 6) /\
   option_map scrolls (parseArgs ["ai"; "--scrolls"; "many"]) = Some (of_Z 6) /\
   option_map minClaps (parseArgs ["ai"; "--minClaps"; "many"]) = Some (of_Z 0) /\
   option_map limit (parseArgs ["ai"; "--limit"; "many"]) = Some (of_Z 30) /\
   option_map limit (parseArgs ["ai"; "--limit"; "50"; "--limit"; "0"])
     = Some (of_Z 30)) /\
  (forall a0 rest,
     exists p, parseArgs (a0 :: rest) = Some p /\ truthy (limit p) = true).
Proof.
  split; [|split; [|split]].
  - intros v p Hv.
    destruct (set_option_numeric (Some v) p) as (-> & -> & ->).
    cbn [default from_option id]. now rewrite !num_or_falsy.
  - intros a0 v Hv.
    split; [|split]; eexists; (split; [reflexivity|]);
      cbn [parseOptions is_option];
      match goal with
      | |- context [set_option ?a (Some v) ?p] =>
          destruct (set_option_numeric (Some v) p) as (H1 & H2 & H3)
      end;
      cbn [default from_option id] in *; rewrite num_or_falsy in * by exact Hv.
    + exact H1.
    + exact H2.
    + exact H3.
  - repeat split; vm_compute; reflexivity.
  - intros a0 rest. eexists. split; [reflexivity|].
    apply parseOptions_limit_truthy. reflexivity.
Qed.

Lemma parseArgs_numeric_fallback_witness :
  limit (set_option "--limit" (Some "0") (defaults ["ai"])) = of_Z 30 /\
  scrolls (set_option "--scrolls" (Some "-0.0") (defaults ["ai"])) = of_Z 6 /\
  (exists p, parseArgs ["ai"; "--minClaps"; "1oo"] = Some p /\
             minClaps p = of_Z 0).
Proof.
  destruct parseArgs_numeric_fallback as (Hset & Hargs & _).
  split; [|split].
  - apply (Hset "0"). vm_compute. reflexivity.
  - apply (Hset "-0.0"). vm_compute. reflexivity.
  - apply (Hargs "ai" "1oo"). vm_compute. reflexivity.
Defined.

(** The end-to-end scenario: the second run reports one new and one
    updated article and stores the refreshed A before the new one. *)
Example mergeArticles_scenario :
  mergedCollection scenarioHeap sampleStore [1; 2] "programming"
    = [freshA; freshC] /\
  newCount (snd (mergeArticles scenarioHeap sampleStore [1; 2] "programming")) = 1 /\
  updatedCount (snd (mergeArticles scenarioHeap sampleStore [1; 2] "programming")) = 1.
Proof. repeat split; vm_compute; reflexivity. Qed.

(** ** More on [mergeArticles]: counters, retention, frame *)

Lemma isStored_true (h : heap) (E : list loc) (n : loc) :
  isStored h E n = true <-> In (url (h n)) (urls h E).
Proof.
  unfold isStored, urls. rewrite existsb_exists, in_map_iff.
  split; intros [e He]; exists e.
  - destruct He as [Hin Hu]. apply bool_decide_eq_true in Hu. now split.
  - destruct He as [Hu Hin]. split; [assumption|].
    now apply bool_decide_eq_true.
Qed.

Lemma urlIndex_is_Some (h : heap) (E : list loc) (n : loc) :
  isStored h E n = true -> exists e, urlIndex h E !! url (h n) = Some e.
Proof.
  intros H. apply isStored_true in H.
  destruct (urlIndex h E !! url (h n)) as [e|] eqn:Hl; [now exists e|].
  apply urlIndex_None in Hl. contradiction.
Qed.

Lemma urlIndex_is_None (h : heap) (E : list loc) (n : loc) :
  isStored h E n = false -> urlIndex h E !! url (h n) = None.
Proof.
  intros H. apply urlIndex_None. rewrite <- isStored_true. congruence.
Qed.

(** The counters after the update pass, from any heap that agrees with
    [h] on the identity of every object. *)
Lemma visitNew_fold_counts (h : heap) (E batch : list loc) :
  forall h0 nc uc h' nc' uc',
    (forall r, sameIdentity (h0 r) (h r)) ->
    fold_left (visitNew (urlIndex h E)) batch (h0, nc, uc) = (h', nc', uc') ->
    uc' = uc + length (List.filter (isStored h E) batch) /\
    nc' = nc + length (List.filter (fun n => negb (isStored h E n)) batch).
Proof.
  induction batch as [|n batch IH]; intros h0 nc uc h' nc' uc' Hid;
    cbn [fold_left List.filter].
  - intros [= _ <- <-]. simpl. lia.
  - destruct (visitNew (urlIndex h E) (h0, nc, uc) n) as [[h1 nc1] uc1] eqn:E1.
    intros Hfold. apply IH in Hfold.
    + assert (Hu : url (h0 n) = url (h n)) by apply Hid.
      unfold visitNew in E1. rewrite Hu in E1.
      destruct (isStored h E n) eqn:Hs; cbn [negb length].
      * destruct (urlIndex_is_Some _ _ _ Hs) as [e He]. rewrite He in E1.
        injection E1 as _ <- <-. lia.
      * rewrite (urlIndex_is_None _ _ _ Hs) in E1.
        injection E1 as _ <- <-. lia.
    + intros r. eapply sameIdentity_trans; [|apply Hid].
      eapply visitNew_identity. exact E1.
Qed.

(** X1 ([mergeArticles], src/index.ts 424-438): the two counters of a
    merge.  [updatedCount] is the number of batch articles whose URL a
    stored article of the tag has, [newCount] the number of the others,
    so together they count every article of the batch once, repeated
    URLs included. *)
Theorem mergeArticles_counts (h : heap) (store : gmap string (list loc))
    (batch : list loc) (tg : string) :
  let r := snd (mergeArticles h store batch tg) in
  let E := default [] (store !! tg) in
  updatedCount r = length (List.filter (isStored h E) batch) /\
  newCount r = length (List.filter (fun n => negb (isStored h E n)) batch) /\
  newCount r + updatedCount r = length batch.
Proof.
  cbv zeta. update_pass Hfold. cbn [snd newCount updatedCount].
  apply visitNew_fold_counts in Hfold; [|intros r; apply sameIdentity_refl].
  destruct Hfold as [-> ->]. cbn [Nat.add].
  split; [reflexivity|split; [reflexivity|]].
  pose proof (List.filter_length (isStored h (default [] (store !! tg))) batch).
  lia.
Qed.

(** One visit writes at most one object, a stored one that has the URL
    of the visited article. *)
Lemma visitNew_writes (h : heap) (E : list loc) h0 nc uc n h1 nc1 uc1 r :
  (forall r, sameIdentity (h0 r) (h r)) ->
  visitNew (urlIndex h E) (h0, nc, uc) n = (h1, nc1, uc1) ->
  h1 r <> h0 r ->
  In r E /\ url (h r) = url (h n).
Proof.
  intros Hid. unfold visitNew.
  destruct (urlIndex h E !! url (h0 n)) as [e|] eqn:Hl.
  - intros [= <- _ _] Hne.
    destruct (Nat.eqb_spec r e) as [->|Hr].
    + apply urlIndex_Some in Hl. destruct Hl as [Hin Hu].
      split; [assumption|]. rewrite Hu. apply Hid.
    + exfalso. apply Hne. unfold update.
      destruct (Nat.eqb_spec r e); [contradiction|reflexivity].
  - intros [= <- _ _] Hne. now contradiction Hne.
Qed.

Lemma visitNew_fold_writes (h : heap) (E batch : list loc) :
  forall h0 nc uc h' nc' uc' r,
    (forall r, sameIdentity (h0 r) (h r)) ->
    fold_left (visitNew (urlIndex h E)) batch (h0, nc, uc) = (h', nc', uc') ->
    h' r <> h0 r ->
    In r E /\ In (url (h r)) (urls h batch).
Proof.
  induction batch as [|n batch IH]; intros h0 nc uc h' nc' uc' r Hid;
    cbn [fold_left].
  - intros [= <- _ _] Hne. now contradiction Hne.
  - destruct (visitNew (urlIndex h E) (h0, nc, uc) n) as [[h1 nc1] uc1] eqn:E1.
    intros Hfold Hne.
    destruct (decide (h1 r = h0 r)) as [Heq|Hw].
    + rewrite <- Heq in Hne.
      eapply IH in Hfold; [| |exact Hne].
      * destruct Hfold as [Hin Hu]. split; [assumption|]. now right.
      * intros r0. eapply sameIdentity_trans; [|apply Hid].
        eapply visitNew_identity. exact E1.
    + eapply visitNew_writes in Hw; [| exact Hid | exact E1].
      destruct Hw as [Hin Hu]. split; [assumption|].
      left. now symmetry.
Qed.

(** X2: the merge changes nothing but counters, and only in stored
    articles that the batch refreshes.  Every object keeps its url, title,
    createdAt and tag; an object that differs after the call is one of
    the stored articles of the tag and has the URL of a fresh article. *)
Theorem mergeArticles_frame (h : heap) (store : gmap string (list loc))
    (batch : list loc) (tg : string) (r : loc) :
  let h' := fst (mergeArticles h store batch tg) in
  sameIdentity (h' r) (h r) /\
  (h' r <> h r ->
   In r (default [] (store !! tg)) /\ In (url (h r)) (urls h batch)).
Proof.
  cbv zeta. update_pass Hfold. cbn [fst]. split.
  - eapply visitNew_fold_identity. exact Hfold.
  - eapply visitNew_fold_writes; [|exact Hfold].
    intros r0. apply sameIdentity_refl.
Qed.

Lemma mergeArticles_frame_witness :
  fst (mergeArticles scenarioHeap sampleStore [1; 2] "programming") 0
    <> scenarioHeap 0 /\
  In 0 (default [] (sampleStore !! "programming")) /\
  In (url (scenarioHeap 0)) (urls scenarioHeap [1; 2]).
Proof.
  assert (H : fst (mergeArticles scenarioHeap sampleStore [1; 2] "programming") 0
              <> scenarioHeap 0) by (vm_compute; discriminate).
  split; [exact H|].
  exact (proj2 (mergeArticles_frame scenarioHeap sampleStore [1; 2]
                  "programming" 0) H).
Defined.

(** X3: a merge loses no URL and invents none: the URLs of the returned
    collection are those of the stored collection together with those of
    the fresh batch, and the collection has one record per fresh article
    plus one per stored article that the batch does not refresh. *)
Theorem mergeArticles_retains (h : heap) (store : gmap string (list loc))
    (batch : list loc) (tg : string) :
  let E := default [] (store !! tg) in
  (forall u, In u (map url (mergedCollection h store batch tg)) <->
             In u (urls h batch) \/ In u (urls h E)) /\
  length (mergedCollection h store batch tg)
    = length batch + length (List.filter (notRefreshed h batch) E).
Proof.
  cbv zeta. split.
  - intros u.
    transitivity (In u (urls h (batch ++ List.filter (notRefreshed h batch)
                                         (default [] (store !! tg))))).
    { split; apply Permutation_in;
        [|symmetry]; apply mergedCollection_urls. }
    unfold urls. rewrite map_app, in_app_iff, !in_map_iff.
    split.
    + intros [H|[e [Hu He]]]; [now left|].
      right. exists e. apply filter_In in He. tauto.
    + intros [H|[e [Hu He]]]; [now left|].
      destruct (notRefreshed h batch e) eqn:Hn.
      * right. exists e. split; [assumption|]. apply filter_In. tauto.
      * left. unfold notRefreshed in Hn. apply negb_false_iff in Hn.
        apply existsb_exists in Hn. destruct Hn as [n [Hin Hn]].
        apply bool_decide_eq_true in Hn. exists n. split; congruence.
  - rewrite <- (length_map url).
    rewrite (Permutation_length (mergedCollection_urls h store batch tg)).
    unfold urls. now rewrite length_map, length_app.
Qed.

(** ** [mergeArticles] on its edge cases and on a batch merged twice *)

Lemma Array_sort_ext {A} (cmp cmp' : A -> A -> Z) (l : list A) :
  (forall a b, cmp a b = cmp' a b) -> Array_sort cmp l = Array_sort cmp' l.
Proof.
  intros Hext. induction l as [|x l IH]; simpl; [reflexivity|].
  rewrite IH. generalize (Array_sort cmp' l). intros k.
  induction k as [|y k IHk]; simpl; [reflexivity|].
  now rewrite Hext, IHk.
Qed.

Lemma filter_idempotent {A} (p : A -> bool) (l : list A) :
  List.filter p (List.filter p l) = List.filter p l.
Proof.
  induction l as [|x l IH]; simpl; [reflexivity|].
  destruct (p x) eqn:Hp; simpl; [rewrite Hp|]; now rewrite ?IH.
Qed.

Lemma filter_none {A} (p : A -> bool) (l : list A) :
  (forall x, In x l -> p x = false) -> List.filter p l = [].
Proof.
  induction l as [|x l IH]; simpl; intros H; [reflexivity|].
  rewrite (H x) by now left. apply IH. intros y Hy. apply H. now right.
Qed.

Section FilterSorted.
Context {A : Type} (key : A -> Z) (p : A -> bool).

Lemma sort_insert_above (x : A) (l : list A) :
  List.Forall (fun y => (key y <= key x)%Z) l ->
  sort_insert (desc key) x l = x :: l.
Proof.
  intros H. destruct H as [|y l Hy _]; simpl; [reflexivity|].
  unfold desc. destruct (Z.ltb_spec 0 (key y - key x)); [lia|reflexivity].
Qed.

Lemma filter_sort_insert (x : A) (l : list A) :
  StronglySorted (key_ge key) l ->
  List.filter p (sort_insert (desc key) x l) =
  if p x then sort_insert (desc key) x (List.filter p l) else List.filter p l.
Proof.
  induction 1 as [|y l Hs IH Hall]; simpl.
  - destruct (p x); reflexivity.
  - destruct (Z.ltb_spec 0 (desc key x y)) as [Hlt|Hge]; simpl.
    + rewrite IH. destruct (p y), (p x); simpl; try reflexivity.
      destruct (Z.ltb_spec 0 (desc key x y)); [reflexivity|lia].
    + destruct (p x); [|reflexivity].
      rewrite sort_insert_above; [reflexivity|].
      apply List.Forall_forall. intros z Hz.
      assert (Hin : In z (y :: l)).
      { destruct (p y); [destruct Hz as [<-|Hz]; [now left|]|];
          right; apply filter_In in Hz; tauto. }
      unfold desc in Hge. destruct Hin as [<-|Hin]; [lia|].
      rewrite List.Forall_forall in Hall. apply Hall in Hin.
      unfold key_ge in Hin. lia.
Qed.

(** Filtering a sorted array is sorting the filtered array: the sort is
    stable. *)
Lemma filter_Array_sort (l : list A) :
  List.filter p (Array_sort (desc key) l)
  = Array_sort (desc key) (List.filter p l).
Proof.
  induction l as [|x l IH]; simpl; [reflexivity|].
  rewrite filter_sort_insert by apply Array_sort_StronglySorted.
  rewrite IH. destruct (p x); reflexivity.
Qed.
End FilterSorted.

Lemma NoDup_map_injective {A B} (f : A -> B) (l : list A) (a b : A) :
  List.NoDup (map f l) -> In a l -> In b l -> f a = f b -> a = b.
Proof.
  induction l as [|x l IH]; simpl; [tauto|].
  intros Hnd Ha Hb Hf. apply List.NoDup_cons_iff in Hnd.
  destruct Hnd as [Hx Hnd].
  destruct Ha as [<-|Ha], Hb as [<-|Hb]; [reflexivity| | |now apply IH].
  - exfalso. apply Hx. rewrite Hf. now apply in_map.
  - exfalso. apply Hx. rewrite <- Hf. now apply in_map.
Qed.

(** A pass over articles that the index maps to themselves writes to
    each its own counters: the heap holds the same articles after it. *)
Lemma visitNew_fold_self (h : heap) (idx : gmap (option string) loc)
    (batch : list loc) :
  (forall n, In n batch -> idx !! url (h n) = Some n) ->
  forall h0 nc uc, sameHeap h h0 ->
  exists h',
    fold_left (visitNew idx) batch (h0, nc, uc) = (h', nc, uc + length batch) /\
    sameHeap h h'.
Proof.
  intros Hself. induction batch as [|n batch IH]; intros h0 nc uc Hh0;
    cbn [fold_left].
  - exists h0. split; [|assumption]. simpl. do 2 f_equal. lia.
  - unfold visitNew at 2. rewrite (Hh0 n), (Hself n) by now left.
    edestruct IH as [h' [Hfold Hh']];
      [intros; apply Hself; now right| |exists h'; split; [|exact Hh']].
    2:{ rewrite Hfold. simpl. do 2 f_equal. lia. }
    intros r. unfold update.
    destruct (Nat.eqb_spec r n) as [->|Hr]; [|apply Hh0].
    rewrite ?Nat.eqb_refl, (Hh0 n). now destruct (h n).
Qed.

Lemma StronglySorted_unmap {A B} (R : B -> B -> Prop) (f : A -> B) l :
  StronglySorted R (map f l) -> StronglySorted (fun a b => R (f a) (f b)) l.
Proof.
  induction l as [|x l IH]; simpl; intros H; [constructor|].
  apply StronglySorted_inv in H. destruct H as [Hs Hall].
  constructor; [now apply IH|].
  rewrite List.Forall_forall in *. intros y Hy. apply Hall. now apply in_map.
Qed.

(** X4: the edge cases of a call of [mergeArticles].  When the lookup
    of the tag gives an own collection or nothing, an empty batch writes
    nothing, counts nothing and returns the stored collection sorted, in
    the very order it is stored in when that order is already descending
    by claps.  A tag that the store does not have, and that names no
    member of [Object.prototype], makes every article of the batch a new
    one and returns the batch sorted.  A tag that the store does not have
    and that names a member of [Object.prototype] makes the call throw,
    whatever the batch. *)
Theorem mergeArticles_edge_cases (h : heap) (store : gmap string (list loc))
    (batch : list loc) (tg : string) :
  let E := default [] (store !! tg) in
  (mergeable store tg ->
   mergeArticlesCall h store [] tg =
     Returned
       (h, {| merged := Array_sort (desc (fun r => clapsOrZero (h r))) E;
              newCount := 0; updatedCount := 0 |})) /\
  (mergeable store tg -> clapsDescending (collection h E) ->
   mergeArticlesCall h store [] tg =
     Returned (h, {| merged := E; newCount := 0; updatedCount := 0 |})) /\
  (getProperty store tg = Undefined ->
   mergeArticlesCall h store batch tg =
     Returned
       (h, {| merged := Array_sort (desc (fun r => clapsOrZero (h r))) batch;
              newCount := length batch; updatedCount := 0 |})) /\
  (store !! tg = None -> inheritedKey tg = true ->
   exists e, mergeArticlesCall h store batch tg = Thrown e).
Proof.
  cbv zeta.
  assert (H0 : mergeArticles h store [] tg =
    (h, {| merged := Array_sort (desc (fun r => clapsOrZero (h r)))
                                (default [] (store !! tg));
           newCount := 0; updatedCount := 0 |}))
    by (now rewrite mergeArticles_disjoint).
  assert (Hcall : forall b, mergeable store tg ->
            mergeArticlesCall h store b tg
            = Returned (mergeArticles h store b tg)).
  { intros b Hm. unfold mergeArticlesCall, mergeable in *.
    destruct (getProperty store tg);
      [reflexivity|now contradiction Hm|reflexivity]. }
  split; [|split; [|split]].
  - intros Hm. now rewrite Hcall, H0.
  - intros Hm Hsorted. rewrite Hcall, H0 by exact Hm. do 3 f_equal.
    apply Array_sort_sorted_id. apply StronglySorted_Sorted.
    apply StronglySorted_unmap in Hsorted.
    eapply StronglySorted_ind with (P := fun l => StronglySorted _ l);
      [constructor| |exact Hsorted].
    intros a l _ IH Hall. constructor; [exact IH|].
    eapply List.Forall_impl; [|exact Hall]. intros b Hb.
    simpl in Hb. unfold desc. lia.
  - intros Hu.
    assert (Hnone : store !! tg = None).
    { unfold getProperty in Hu. destruct (store !! tg); [discriminate|].
      reflexivity. }
    rewrite Hcall by (unfold mergeable; rewrite Hu; discriminate).
    f_equal. rewrite mergeArticles_disjoint; rewrite Hnone; cbn.
    + now rewrite app_nil_r.
    + unfold urlsDisjoint. apply forallb_forall. reflexivity.
  - intros Hnone Hk. unfold mergeArticlesCall, getProperty.
    rewrite Hnone, Hk. eauto.
Qed.

Lemma mergeArticles_edge_cases_witness :
  mergeArticlesCall sampleHeap sampleStore [] "programming"
    = Returned (sampleHeap,
                {| merged := [0]; newCount := 0; updatedCount := 0 |}) /\
  mergeArticlesCall sampleHeap sampleStore [1; 2] "ai"
    = Returned
        (sampleHeap,
         {| merged := Array_sort (desc (fun r => clapsOrZero (sampleHeap r)))
                                 [1; 2];
            newCount := 2; updatedCount := 0 |}) /\
  exists e,
    mergeArticlesCall sampleHeap sampleStore [1; 2] "constructor" = Thrown e.
Proof.
  destruct (mergeArticles_edge_cases sampleHeap sampleStore [1; 2] "programming")
    as (_ & Hsorted & _).
  destruct (mergeArticles_edge_cases sampleHeap sampleStore [1; 2] "ai")
    as (_ & _ & Hnew & _).
  destruct (mergeArticles_edge_cases sampleHeap sampleStore [1; 2]
              "constructor") as (_ & _ & _ & Hthrow).
  split; [|split].
  - apply Hsorted.
    + unfold mergeable. vm_compute. discriminate.
    + vm_compute. repeat constructor.
  - apply Hnew. vm_compute. reflexivity.
  - apply Hthrow; vm_compute; reflexivity.
Defined.

(** X5: merging a batch without repeated URLs a second time, into what
    the first merge stored, changes nothing: the heap holds the same
    articles, the collection is the same list of the same records, and
    the second call counts every article as updated and none as new. *)
Theorem mergeArticles_again (h : heap) (store : gmap string (list loc))
    (batch : list loc) (tg : string) :
  List.NoDup (urls h batch) ->
  let first := mergeArticles h store batch tg in
  let second := secondMerge h store batch batch tg in
  sameHeap (fst first) (fst second) /\
  merged (snd second) = merged (snd first) /\
  collection (fst second) (merged (snd second))
    = collection (fst first) (merged (snd first)) /\
  newCount (snd second) = 0 /\
  updatedCount (snd second) = length batch.
Proof.
  intros Hnd. cbv zeta. unfold secondMerge.
  pose proof (mergeArticles_members h store batch tg) as Hmem.
  destruct (fold_left (visitNew (urlIndex h (default [] (store !! tg))))
              batch (h, 0, 0)) as [[h1 nc1] uc1] eqn:Hfold.
  assert (Hid : forall r, sameIdentity (h1 r) (h r))
    by (intros r; eapply visitNew_fold_identity; exact Hfold).
  rewrite (mergeArticles_eq _ _ _ _ _ _ _ Hfold) in *.
  cbn [fst snd merged] in *.
  set (key1 := fun r => clapsOrZero (h1 r)) in *.
  set (C := List.filter (notRefreshed h1 batch) (default [] (store !! tg))) in *.
  set (E1 := Array_sort (desc key1) (batch ++ C)%list) in *.
  (* the index of the stored result maps each fresh article to itself *)
  assert (Hself : forall n, In n batch -> urlIndex h1 E1 !! url (h1 n) = Some n).
  { intros n Hn.
    destruct (urlIndex h1 E1 !! url (h1 n)) as [e|] eqn:Hl.
    - f_equal. apply urlIndex_Some in Hl. destruct Hl as [He Hu].
      assert (Hu' : url (h e) = url (h n)).
      { destruct (Hid e) as [<- _]. destruct (Hid n) as [<- _]. exact Hu. }
      apply Hmem in He. destruct He as [He|[_ He]].
      + now apply (NoDup_map_injective (fun r => url (h r)) batch).
      + exfalso. apply He. rewrite Hu'. unfold urls.
        apply in_map_iff. now exists n.
    - exfalso. apply urlIndex_None in Hl. apply Hl. unfold urls.
      apply in_map_iff. exists n. split; [reflexivity|].
      apply Hmem. now left. }
  destruct (visitNew_fold_self h1 (urlIndex h1 E1) batch Hself h1 0 0)
    as [h2 [Hfold2 Hh2]]; [intros r; reflexivity|].
  unfold storeMerged. cbn [merged].
  rewrite (mergeArticles_eq h1 _ batch tg h2 0 (0 + length batch));
    rewrite lookup_insert_eq; cbn [from_option]; unfold id;
    [|exact Hfold2].
  cbn [fst snd merged newCount updatedCount].
  assert (Hmerged :
    Array_sort (desc (fun r => clapsOrZero (h2 r)))
      (batch ++ List.filter (notRefreshed h2 batch) E1)%list = E1).
  { rewrite (Array_sort_ext _ (desc key1))
      by (intros a b; unfold desc, key1; now rewrite !Hh2).
    erewrite filter_ext with (g := notRefreshed h1 batch).
    2:{ intros e. apply notRefreshed_identity. intros r. rewrite Hh2.
        apply sameIdentity_refl. }
    unfold E1 at 1. rewrite filter_Array_sort, List.filter_app.
    rewrite (filter_none _ batch).
    2:{ intros n Hn. apply not_true_iff_false.
        rewrite notRefreshed_true. intros Hno. apply Hno.
        unfold urls. apply in_map_iff. now exists n. }
    unfold C at 1. rewrite filter_idempotent. fold C. cbn [app].
    apply Array_sort_app_sorted. }
  split; [exact Hh2|]. split; [exact Hmerged|]. split.
  - rewrite Hmerged. unfold collection. apply map_ext. exact Hh2.
  - split; [reflexivity|lia].
Qed.

Lemma mergeArticles_again_witness :
  merged (snd (secondMerge scenarioHeap sampleStore [1; 2] [1; 2] "programming"))
    = merged (snd (mergeArticles scenarioHeap sampleStore [1; 2] "programming"))
  /\ newCount (snd (secondMerge scenarioHeap sampleStore [1; 2] [1; 2]
                                "programming")) = 0.
Proof.
  destruct (mergeArticles_again scenarioHeap sampleStore [1; 2] "programming")
    as (_ & Hm & _ & Hn & _).
  - vm_compute. repeat constructor; simpl; intuition discriminate.
  - split; [exact Hm|exact Hn].
Defined.

(** ** More on the tail of [scrapeTag]: ranking, limit, invariants *)

Lemma slice_to_prefix {A} (l : list A) (x : number) :
  exists rest, l = (slice_to l x ++ rest)%list.
Proof.
  unfold slice_to. destruct (toIntegerOrInfinity x) as [|z|].
  - now exists l.
  - destruct (z <? 0)%Z; eexists; symmetry; apply firstn_skipn.
  - exists []. now rewrite app_nil_r.
Qed.

Lemma slice_to_length {A} (l : list A) (x : number) (z : Z) :
  toIntegerOrInfinity x = Integer z ->
  Z.of_nat (length (slice_to l x)) =
  if (z <? 0)%Z then Z.max (Z.of_nat (length l) + z) 0
  else Z.min z (Z.of_nat (length l)).
Proof.
  intros Hx. unfold slice_to. rewrite Hx.
  destruct (Z.ltb_spec z 0); rewrite length_firstn; lia.
Qed.

Lemma StronglySorted_app_inv {A} (R : A -> A -> Prop) (l1 l2 : list A) :
  StronglySorted R (l1 ++ l2) ->
  StronglySorted R l1 /\ forall a b, In a l1 -> In b l2 -> R a b.
Proof.
  induction l1 as [|x l1 IH]; simpl; intros H.
  - split; [constructor|tauto].
  - apply StronglySorted_inv in H. destruct H as [Hs Hall].
    apply IH in Hs. destruct Hs as [Hs Hcross].
    rewrite List.Forall_forall in Hall. split.
    + constructor; [assumption|]. apply List.Forall_forall.
      intros y Hy. apply Hall, in_or_app. now left.
    + intros a b [<-|Ha] Hb; [|now apply Hcross].
      apply Hall, in_or_app. now right.
Qed.

Lemma Array_sort_length {A} (cmp : A -> A -> Z) (l : list A) :
  length (Array_sort cmp l) = length l.
Proof. apply Permutation_length, Array_sort_Permutation. Qed.

Lemma normalizeItems_length parseURL clock tg t items :
  length (normalizeItems parseURL clock tg t items) = length items.
Proof.
  revert t. induction items as [|x items IH]; intros t; simpl;
    [reflexivity|now rewrite IH].
Qed.

Lemma normalizeItems_tag parseURL clock tg t items a :
  In a (normalizeItems parseURL clock tg t items) -> tag a = tg.
Proof.
  intros H. apply normalizeItems_In in H.
  now destruct H as [i [x [_ ->]]].
Qed.

(** X6: what [scrapeTag] returns is the head of the ranking: the
    candidates that pass the filters, sorted by claps descending, are the
    result followed by the articles that the limit cut off, and no
    article that was cut off has more claps than one that was kept.  The
    result is itself sorted by claps descending. *)
Theorem scrapeTag_keeps_top parseURL clock tg o t items :
  exists cut,
    Array_sort by_claps (filterItems o (normalizeItems parseURL clock tg t items))
      = (scrapeTag parseURL clock tg o t (Some items) ++ cut)%list /\
    (forall a b, In a (scrapeTag parseURL clock tg o t (Some items)) ->
                 In b cut -> (clapsOrZero b <= clapsOrZero a)%Z) /\
    clapsDescending (scrapeTag parseURL clock tg o t (Some items)).
Proof.
  cbn [scrapeTag]. unfold rankItems.
  set (ranked := Array_sort by_claps
                   (filterItems o (normalizeItems parseURL clock tg t items))).
  destruct (slice_to_prefix ranked (opt_limit o)) as [cut Hcut].
  exists cut. split; [exact Hcut|].
  assert (Hs : StronglySorted (key_ge clapsOrZero) ranked)
    by apply (Array_sort_StronglySorted clapsOrZero).
  rewrite Hcut in Hs. apply StronglySorted_app_inv in Hs.
  destruct Hs as [Hs Hcross]. split; [exact Hcross|exact Hs].
Qed.

(** X7: every article that [scrapeTag] returns has a URL, carries the
    tag of the call and passes the include, exclude and minimum-claps
    filters; the result is never longer than the list of candidates, and
    it is empty when loading the page failed. *)
Theorem scrapeTag_result_invariants parseURL clock tg o t page :
  List.Forall
    (fun a => url a <> None /\ tag a = tg /\
              passes_include o a = true /\ passes_exclude o a = true /\
              passes_minClaps o a = true)
    (scrapeTag parseURL clock tg o t page) /\
  length (scrapeTag parseURL clock tg o t page)
    <= length (default [] page) /\
  scrapeTag parseURL clock tg o t None = [].
Proof.
  split; [|split; [|reflexivity]].
  - apply List.Forall_forall. intros a Ha.
    destruct page as [items|]; [|destruct Ha]. cbn [scrapeTag] in Ha.
    apply rankItems_In, filterItems_In in Ha.
    destruct Ha as (Hin & Hurl & Hinc & Hexc & Hmin).
    split; [|split; [now apply normalizeItems_tag in Hin|tauto]].
    unfold has_url in Hurl. destruct (url a); [discriminate|discriminate].
  - destruct page as [items|]; [|simpl; lia]. cbn [scrapeTag from_option id].
    unfold rankItems.
    destruct (slice_to_prefix
                (Array_sort by_claps
                   (filterItems o (normalizeItems parseURL clock tg t items)))
                (opt_limit o)) as [cut Hcut].
    apply (f_equal (@length _)) in Hcut.
    rewrite length_app, Array_sort_length in Hcut.
    assert (Hf : length (filterItems o (normalizeItems parseURL clock tg t items))
                 <= length items).
    { rewrite <- (normalizeItems_length parseURL clock tg t items).
      unfold filterItems.
      repeat (etransitivity; [apply List.filter_length_le|]). reflexivity. }
    lia.
Qed.

(** X8: the limit counts from the front when it is 0 or more and from
    the back when it is negative: with [k] candidates left by the
    filters, a limit whose integer part is [z >= 0] returns [min z k]
    articles, and a negative one, which [parseArgs] accepts, returns
    [max (k + z) 0], all but the [-z] least clapped. *)
Theorem scrapeTag_limit parseURL clock tg o t items (z : Z) :
  toIntegerOrInfinity (opt_limit o) = Integer z ->
  let k := Z.of_nat (length (filterItems o
                               (normalizeItems parseURL clock tg t items))) in
  Z.of_nat (length (scrapeTag parseURL clock tg o t (Some items))) =
  if (z <? 0)%Z then Z.max (k + z) 0 else Z.min z k.
Proof.
  intros Hz. cbn [scrapeTag]. unfold rankItems.
  rewrite (slice_to_length _ _ z Hz), Array_sort_length. reflexivity.
Qed.

Lemma scrapeTag_limit_witness :
  option_map limit (parseArgs ["ai"; "--limit"; "-1"]) = Some (Number "-1") /\
  Z.of_nat (length (scrapeTag sampleParse sampleClock "ai"
                      (filterOptions (Number "-1")) 0 (Some sampleCandidates)))
  = 1%Z.
Proof.
  split; [vm_compute; reflexivity|].
  rewrite (scrapeTag_limit sampleParse sampleClock "ai"
             (filterOptions (Number "-1")) 0 sampleCandidates (-1)).
  - vm_compute. reflexivity.
  - vm_compute. reflexivity.
Defined.

(** ** The keyword filters [includesAny] and [excludesAll] *)

Lemma prefix_app (n h : string) :
  String.prefix n h = true <-> exists post, h = n ++ post.
Proof.
  revert h. induction n as [|c n IH]; intros h.
  - split; [intros _; now exists h|intros _; now destruct h].
  - destruct h as [|d h]; simpl.
    + split; [discriminate|intros [post H]; discriminate].
    + destruct (ascii_dec c d) as [->|Hcd].
      * rewrite IH. split; intros [post H]; exists post.
        -- now rewrite H.
        -- now injection H.
      * split; [discriminate|]. intros [post H]. injection H as H1 H2.
        congruence.
Qed.

Lemma includes_occurs (hay needle : string) :
  includes hay needle = true <->
  exists pre post, hay = pre ++ needle ++ post.
Proof.
  induction hay as [|c hay IH]; cbn [includes].
  - rewrite orb_false_r, prefix_app. split.
    + intros [post H]. now exists "", post.
    + intros [pre [post H]]. destruct pre; [now exists post|discriminate].
  - rewrite orb_true_iff, prefix_app, IH. split.
    + intros [[post H]|[pre [post H]]].
      * now exists "", post.
      * exists (String c pre), post. simpl. now rewrite H.
    + intros [pre [post H]]. destruct pre as [|d pre].
      * left. now exists post.
      * right. simpl in H. injection H as _ H. now exists pre, post.
Qed.

Lemma str_or_Some_empty (t : string) : str_or (Some t) "" = t.
Proof. now destruct t. Qed.

(** X9: the keyword filters match substrings without regard to letter
    case, and a missing title counts as the empty title.  [includesAny]
    holds exactly when the keyword list is empty or the lower-cased text
    contains a lower-cased keyword at some position; [excludesAll] holds
    exactly when the lower-cased text contains no lower-cased keyword. *)
Theorem keyword_filters_match (text : option string) (kws : list string) :
  let low := toLowerCase (str_or text "") in
  (includesAny text kws = true <->
   kws = [] \/
   exists k pre post, In k kws /\ low = pre ++ toLowerCase k ++ post) /\
  (excludesAll text kws = true <->
   forall k pre post, In k kws -> low <> pre ++ toLowerCase k ++ post).
Proof.
  cbv zeta. unfold includesAny, excludesAll.
  destruct kws as [|k0 kws].
  - split; split; tauto.
  - set (ks := k0 :: kws). split.
    + rewrite existsb_exists. split.
      * intros [k [Hin Hk]]. right. apply includes_occurs in Hk.
        destruct Hk as [pre [post Hk]]. now exists k, pre, post.
      * intros [H|[k [pre [post [Hin Hk]]]]]; [discriminate|].
        exists k. split; [assumption|]. apply includes_occurs.
        now exists pre, post.
    + rewrite negb_true_iff, <- not_true_iff_false, existsb_exists. split.
      * intros Hno k pre post Hin Hk. apply Hno. exists k.
        split; [assumption|]. apply includes_occurs. now exists pre, post.
      * intros Hno [k [Hin Hk]]. apply includes_occurs in Hk.
        destruct Hk as [pre [post Hk]]. now apply (Hno k pre post).
Qed.

Lemma toLowerCase_nonempty (k : string) :
  nonempty k = true -> nonempty (toLowerCase k) = true.
Proof. now destruct k. Qed.

Lemma includes_empty_hay (needle : string) :
  nonempty needle = true -> includes "" needle = false.
Proof. now destruct needle. Qed.

(** X10: an article without a title, or with the empty title, fails
    every include filter and passes every exclude filter, as long as the
    keyword lists hold no empty keyword (and the include list is not
    empty). *)
Theorem untitled_articles (o : ScrapeOptions) (a : Article) :
  title a = None \/ title a = Some "" ->
  (opt_include o <> [] -> forallb nonempty (opt_include o) = true ->
   passes_include o a = false) /\
  (forallb nonempty (opt_exclude o) = true -> passes_exclude o a = true).
Proof.
  intros Ht.
  assert (Hlow : str_or (title a) "" = "") by now destruct Ht as [-> | ->].
  assert (Hnone : forall kws, forallb nonempty kws = true ->
            existsb (fun k => includes "" (toLowerCase k)) kws = false).
  { induction kws as [|k kws IH]; cbn [existsb forallb]; [reflexivity|].
    intros H. apply andb_true_iff in H. destruct H as [Hk H].
    rewrite (includes_empty_hay _ (toLowerCase_nonempty _ Hk)).
    now apply IH. }
  unfold passes_include, passes_exclude, includesAny, excludesAll.
  rewrite Hlow. cbn [str_or toLowerCase]. split.
  - intros Hne Hall. destruct (opt_include o); [contradiction|].
    now apply Hnone.
  - intros Hall. destruct (opt_exclude o); [reflexivity|].
    now rewrite Hnone.
Qed.

Lemma untitled_articles_witness :
  passes_include (filterOptions (of_Z 30))
    {| url := Some "https://medium.com/p/abc123"; title := None;
       createdAt := "2025-09-08T07:53:00.000Z"; claps := Some 500%Z;
       comments := None; tag := "ai" |} = false.
Proof.
  apply (untitled_articles (filterOptions (of_Z 30))); [now left| |];
    [discriminate|reflexivity].
Defined.

(** ** More on [parseArgs]: lists and numbers it can produce *)

Lemma trimStart_starts (s : string) :
  starts_with is_space (trimStart s) = false.
Proof.
  induction s as [|c s IH]; simpl; [reflexivity|].
  destruct (is_space c) eqn:Hc; [exact IH|simpl; exact Hc].
Qed.

Lemma trimEnd_starts (s : string) :
  starts_with is_space s = false -> starts_with is_space (trimEnd s) = false.
Proof.
  destruct s as [|c s]; simpl; [reflexivity|]. intros Hc.
  destruct (trimEnd s); rewrite ?Hc; simpl; exact Hc.
Qed.

Lemma trimEnd_ends (s : string) : ends_with is_space (trimEnd s) = false.
Proof.
  induction s as [|c s IH]; simpl; [reflexivity|].
  destruct (trimEnd s) as [|d t] eqn:E.
  - destruct (is_space c) eqn:Hc; simpl; [reflexivity|exact Hc].
  - exact IH.
Qed.

Lemma trimStart_chars (q : ascii -> bool) (s : string) :
  forall_chars q s = true -> forall_chars q (trimStart s) = true.
Proof.
  induction s as [|c s IH]; simpl; [reflexivity|].
  intros H. apply andb_true_iff in H. destruct H as [Hc H].
  destruct (is_space c); [now apply IH|simpl; now rewrite Hc, H].
Qed.

Lemma trimEnd_chars (q : ascii -> bool) (s : string) :
  forall_chars q s = true -> forall_chars q (trimEnd s) = true.
Proof.
  induction s as [|c s IH]; simpl; [reflexivity|].
  intros H. apply andb_true_iff in H. destruct H as [Hc H].
  specialize (IH H). destruct (trimEnd s) as [|d t].
  - destruct (is_space c); simpl; [reflexivity|now rewrite Hc].
  - cbn [forall_chars] in *. now rewrite Hc, IH.
Qed.

Lemma forall_chars_app (q : ascii -> bool) (a b : string) :
  forall_chars q (a ++ b) = forall_chars q a && forall_chars q b.
Proof.
  induction a as [|c a IH]; [reflexivity|].
  change (String c a ++ b) with (String c (a ++ b)). cbn [forall_chars].
  now rewrite IH, andb_assoc.
Qed.

Lemma split_from_chars (cur s : string) :
  no_comma cur = true ->
  forallb no_comma (split_from "," cur s) = true.
Proof.
  revert cur. induction s as [|c s IH]; intros cur Hcur; cbn [split_from].
  - simpl. now rewrite Hcur.
  - destruct (Ascii.eqb c ",") eqn:Hc; cbn [forallb].
    + rewrite Hcur. now apply IH.
    + apply IH. unfold no_comma. rewrite forall_chars_app. fold (no_comma cur).
      rewrite Hcur. simpl. now rewrite Hc.
Qed.

Lemma csv_clean (s : string) : forallb cleanEntry (csv s) = true.
Proof.
  unfold csv, split. pose proof (split_from_chars "" s eq_refl) as H.
  induction (split_from "," "" s) as [|x l IH]; [reflexivity|].
  cbn [forallb map List.filter] in *.
  apply andb_true_iff in H. destruct H as [Hx H].
  destruct (nonempty (trim x)) eqn:Hne; [|now apply IH].
  cbn [forallb]. rewrite (IH H), andb_true_r.
  unfold cleanEntry, trim in *. rewrite Hne.
  rewrite trimEnd_starts by apply trimStart_starts.
  rewrite trimEnd_ends. unfold no_comma.
  now rewrite trimEnd_chars by now apply trimStart_chars.
Qed.

(** Whatever every branch of the loop body preserves holds after the
    loop. *)
Lemma parseOptions_invariant (P : ParsedArgs -> Prop) :
  (forall a v p, P p -> P (set_option a v p)) ->
  forall args p, P p -> P (parseOptions args p).
Proof.
  intros Hstep args. remember (length args) as n eqn:Hn.
  revert args Hn. induction n as [n IH] using lt_wf_ind.
  intros [|a [|v rest]] Hn p Hp.
  - exact Hp.
  - simpl. destruct (is_option a); [now apply Hstep|exact Hp].
  - change (parseOptions (a :: v :: rest) p)
      with (if is_option a then parseOptions rest (set_option a (Some v) p)
            else parseOptions (v :: rest) p).
    simpl in Hn. destruct (is_option a).
    + apply (IH (length rest)); [lia|reflexivity|now apply Hstep].
    + apply (IH (length (v :: rest))); [simpl; lia|reflexivity|exact Hp].
Qed.

Ltac option_cases a :=
  unfold set_option;
  repeat match goal with
         | |- context [if String.eqb a ?k then _ else _] =>
             destruct (String.eqb a k)
         end.

(** X11: the lists that [parseArgs] produces are clean: the tags are
    the entries of the first argument and no option changes them, and
    every tag, include keyword and exclude keyword is non-empty, has no
    white space at either end and holds no comma. *)
Theorem parseArgs_lists_clean (a0 : string) (rest : list string) :
  exists p, parseArgs (a0 :: rest) = Some p /\
    tags p = csv a0 /\
    forallb cleanEntry (tags p) = true /\
    forallb cleanEntry (include p) = true /\
    forallb cleanEntry (exclude p) = true.
Proof.
  eexists. split; [reflexivity|].
  apply (parseOptions_invariant
           (fun p => tags p = csv a0 /\
                     forallb cleanEntry (tags p) = true /\
                     forallb cleanEntry (include p) = true /\
                     forallb cleanEntry (exclude p) = true)).
  - intros a v p (Ht & H1 & H2 & H3).
    option_cases a; cbn [tags include exclude];
      repeat split; try assumption; apply csv_clean.
  - cbn [defaults tags include exclude forallb].
    repeat split. apply csv_clean.
Qed.

Lemma num_or_not_NaN (x d : number) :
  isNaN d = false -> isNaN (num_or x d) = false.
Proof. unfold num_or. now destruct x. Qed.

(** X12: no command line gives a numeric option the value NaN, and
    [--scrolls], like [--limit], can never be 0: the parsed scroll count
    is truthy and the parsed minimum of claps is a number. *)
Theorem parseArgs_numbers (a0 : string) (rest : list string) :
  exists p, parseArgs (a0 :: rest) = Some p /\
    truthy (scrolls p) = true /\
    isNaN (scrolls p) = false /\ isNaN (minClaps p) = false /\
    isNaN (limit p) = false.
Proof.
  eexists. split; [reflexivity|].
  assert (Hinv : forall p : ParsedArgs,
            truthy (scrolls p) = true /\ truthy (limit p) = true /\
            isNaN (minClaps p) = false ->
            truthy (scrolls p) = true /\ isNaN (scrolls p) = false /\
            isNaN (minClaps p) = false /\ isNaN (limit p) = false).
  { intros p (H1 & H2 & H3). repeat split; try assumption.
    - now destruct (scrolls p).
    - now destruct (limit p). }
  apply Hinv.
  apply (parseOptions_invariant
           (fun p => truthy (scrolls p) = true /\ truthy (limit p) = true /\
                     isNaN (minClaps p) = false)).
  - intros a v p (H1 & H2 & H3).
    option_cases a; cbn [scrolls limit minClaps];
      repeat split; try assumption;
      first [now apply num_or_truthy | now apply num_or_not_NaN].
  - repeat split.
Qed.

(** ** Signs in binary64 arithmetic *)

Lemma shr_1_nonneg (mrs : shr_record) :
  (0 <= shr_m mrs)%Z -> (0 <= shr_m (shr_1 mrs))%Z.
Proof.
  destruct mrs as [m r s]. simpl.
  destruct m as [|[p|p|]|p]; simpl; lia.
Qed.

Lemma iter_shr_1_nonneg (p : positive) (mrs : shr_record) :
  (0 <= shr_m mrs)%Z -> (0 <= shr_m (SpecFloat.iter_pos shr_1 p mrs))%Z.
Proof.
  revert mrs. induction p as [p IH|p IH|]; intros mrs H; simpl.
  - apply IH, IH. now apply shr_1_nonneg.
  - now apply IH, IH.
  - now apply shr_1_nonneg.
Qed.

Lemma shr_fexp_nonneg (m e : Z) (l : location) :
  (0 <= m)%Z -> (0 <= shr_m (fst (shr_fexp prec emax m e l)))%Z.
Proof.
  intros Hm. unfold shr_fexp, shr.
  assert (H0 : (0 <= shr_m (shr_record_of_loc m l))%Z)
    by (destruct l as [|[]]; exact Hm).
  destruct (fexp prec emax (Zdigits2 m + e) - e)%Z; simpl;
    [assumption|now apply iter_shr_1_nonneg|assumption].
Qed.

Lemma round_nearest_even_nonneg (m : Z) (l : location) :
  (0 <= m)%Z -> (0 <= round_nearest_even m l)%Z.
Proof.
  intros Hm. unfold round_nearest_even.
  destruct l as [|[]]; try destruct (Z.even m); lia.
Qed.

(** Rounding a non-negative significand gives +0, a positive number or
    +Infinity. *)
Lemma binary_round_aux_nonnegative (m e : Z) (l : location) :
  (0 <= m)%Z -> nonnegative (binary_round_aux prec emax false m e l) = true.
Proof.
  intros Hm. unfold binary_round_aux.
  pose proof (shr_fexp_nonneg m e l Hm) as H1.
  destruct (shr_fexp prec emax m e l) as [mrs1 e1]. cbn [fst] in H1.
  pose proof (shr_fexp_nonneg _ e1 loc_Exact
                (round_nearest_even_nonneg _ (loc_of_shr_record mrs1) H1)) as H2.
  destruct (shr_fexp prec emax
              (round_nearest_even (shr_m mrs1) (loc_of_shr_record mrs1))
              e1 loc_Exact) as [mrs2 e2].
  cbn [fst] in H2. destruct (shr_m mrs2) as [|p|p]; [reflexivity| |lia].
  destruct (e2 <=? emax - prec)%Z; reflexivity.
Qed.

Lemma binary_normalize_nonnegative (z e : Z) :
  (0 <= z)%Z -> nonnegative (binary_normalize prec emax z e false) = true.
Proof.
  intros Hz. unfold binary_normalize. destruct z as [|p|p]; [reflexivity| |lia].
  unfold binary_round.
  destruct (shl_align p e (fexp prec emax (Z.pos (digits2_pos p) + e)))
    as [mz ez].
  now apply binary_round_aux_nonnegative.
Qed.

Lemma SFdiv_nonnegative (p q : positive) (e1 e2 : Z) :
  nonnegative (SFdiv prec emax (S754_finite false p e1) (S754_finite false q e2))
  = true.
Proof.
  cbn [SFdiv xorb]. unfold SFdiv_core_binary.
  set (s := (e1 - e2 - _)%Z).
  set (m' := match s with
             | Z.pos _ => Z.shiftl (Z.pos p) s
             | 0%Z => Z.pos p
             | Z.neg _ => 0%Z
             end).
  assert (Hm' : (0 <= m')%Z).
  { unfold m'. destruct s; [lia| |lia]. apply Z.shiftl_nonneg. lia. }
  pose proof (Z.div_pos m' (Z.pos q) Hm' ltac:(lia)) as Hq.
  unfold Z.div in Hq. destruct (Z.div_eucl m' (Z.pos q)) as [qq rr].
  cbn [fst] in Hq. now apply binary_round_aux_nonnegative.
Qed.

Lemma of_decimal_nonnegative (m : N) (e : Z) :
  nonnegative (of_decimal false m e) = true.
Proof.
  unfold of_decimal. destruct m as [|p]; [reflexivity|].
  destruct e as [|k|k].
  - apply binary_normalize_nonnegative. lia.
  - apply binary_normalize_nonnegative.
    assert (0 < 10 ^ Z.pos k)%Z by (apply Z.pow_pos_nonneg; lia). lia.
  - apply SFdiv_nonnegative.
Qed.

Lemma mul_nonnegative (x : number) (m : positive) (e : Z) :
  nonnegative x = true ->
  nonnegative (mul x (S754_finite false m e)) = true.
Proof.
  unfold mul. destruct x as [s|s| |s mx ex]; cbn [nonnegative SFmul];
    try discriminate; intros Hs; apply negb_true_iff in Hs; subst s;
    try reflexivity.
  now apply binary_round_aux_nonnegative.
Qed.

Lemma Math_round_nonnegative (x : number) :
  nonnegative x = true -> nonnegative (Math_round x) = true.
Proof.
  destruct x as [s|s| |s m e]; try (intros H; exact H).
  cbn [nonnegative]. intros Hs. apply negb_true_iff in Hs. subst s.
  unfold Math_round. destruct (Z.leb_spec 0 e) as [He|He]; [reflexivity|].
  apply binary_normalize_nonnegative. unfold nearestInteger. cbv zeta.
  assert (0 < 2 ^ (- e))%Z by (apply Z.pow_pos_nonneg; lia).
  apply Z.div_pos; lia.
Qed.

(** ** More on [toNum]: what it matches and what it can return *)

Lemma span_spec (p : ascii -> bool) (s a b : string) :
  span p s = (a, b) ->
  s = a ++ b /\ forall_chars p a = true /\ starts_with p b = false.
Proof.
  revert a b. induction s as [|c s IH]; intros a b; cbn [span].
  - intros [= <- <-]. repeat split.
  - destruct (p c) eqn:Hc.
    + destruct (span p s) as [a' b'] eqn:Hs. intros [= <- <-].
      destruct (IH a' b' eq_refl) as (-> & Ha & Hb).
      repeat split; [|exact Hb]. simpl. now rewrite Hc, Ha.
    + intros [= <- <-]. repeat split. simpl. exact Hc.
Qed.

(** What the regular expression captures: a decimal token and at most
    one suffix letter. *)
Lemma exec_number_shape (s m1 m2 : string) :
  exec_number s = Some (m1, m2) ->
  (exists ip fp,
     nonempty ip = true /\ forall_chars is_digit ip = true /\
     forall_chars is_digit fp = true /\ m1 = decimalToken ip fp) /\
  (m2 = "" \/ exists k, is_suffix k = true /\ m2 = String k "").
Proof.
  induction s as [|c s IH]; cbn [exec_number]; [discriminate|].
  destruct (is_digit c) eqn:Hc; [|exact IH].
  destruct (span is_digit (String c s)) as [ip r1] eqn:Hspan.
  assert (Hip : nonempty ip = true /\ forall_chars is_digit ip = true).
  { pose proof (span_spec _ _ _ _ Hspan) as (_ & Hd & _).
    split; [|exact Hd]. cbn [span] in Hspan. rewrite Hc in Hspan.
    destruct (span is_digit s). now injection Hspan as <- _. }
  destruct Hip as [Hne Hd].
  assert (Hsuf : forall r2, suffixOf r2 = "" \/
            exists k, is_suffix k = true /\ suffixOf r2 = String k "").
  { intros [|k r]; simpl; [now left|].
    destruct (is_suffix k) eqn:Hk; [right; now exists k|now left]. }
  assert (Hint : forall r2 x y, Some (ip, suffixOf r2) = Some (x, y) ->
    (exists ip fp, nonempty ip = true /\ forall_chars is_digit ip = true /\
       forall_chars is_digit fp = true /\ x = decimalToken ip fp) /\
    (y = "" \/ exists k, is_suffix k = true /\ y = String k "")).
  { intros r2 x y [= <- <-]. split; [|apply Hsuf].
    exists ip, "". repeat split; assumption. }
  destruct r1 as [|d r]; [apply (Hint "")|].
  destruct (Ascii.eqb_spec d "."%char) as [->|Hd'].
  - destruct (span is_digit r) as [fp r'] eqn:Hfp.
    pose proof (span_spec _ _ _ _ Hfp) as (_ & Hfd & _).
    destruct (nonempty fp) eqn:Hnf; [|apply (Hint (String "." r))].
    intros [= <- <-]. split; [|apply (Hsuf r')].
    exists ip, fp. unfold decimalToken. rewrite Hnf. repeat split; assumption.
  - destruct d as [[] [] [] [] [] [] [] []];
      try (apply (Hint (String _ r))).
    now contradiction Hd'.
Qed.

Lemma decimal_char_cases (c : ascii) :
  is_decimal_char c = true ->
  is_space c = false /\ Ascii.eqb c "x" = false /\ Ascii.eqb c "X" = false /\
  Ascii.eqb c "o" = false /\ Ascii.eqb c "O" = false /\
  Ascii.eqb c "b" = false /\ Ascii.eqb c "B" = false.
Proof.
  destruct c as [[] [] [] [] [] [] [] []]; vm_compute;
    try discriminate; intros _; repeat split.
Qed.

Lemma digit_cases (c : ascii) :
  is_digit c = true ->
  is_decimal_char c = true /\ Ascii.eqb c "+" = false /\
  Ascii.eqb c "-" = false /\ Ascii.eqb c "I" = false.
Proof.
  destruct c as [[] [] [] [] [] [] [] []]; vm_compute;
    try discriminate; intros _; repeat split.
Qed.

Lemma trimEnd_id (s : string) :
  forall_chars (fun c => negb (is_space c)) s = true -> trimEnd s = s.
Proof.
  induction s as [|c s IH]; simpl; [reflexivity|].
  intros H. apply andb_true_iff in H. destruct H as [Hc H].
  rewrite (IH H). apply negb_true_iff in Hc. rewrite Hc.
  now destruct s.
Qed.

Lemma trim_id (s : string) :
  forall_chars (fun c => negb (is_space c)) s = true -> trim s = s.
Proof.
  intros H. unfold trim.
  assert (Hs : trimStart s = s).
  { destruct s as [|c s]; [reflexivity|]. simpl in *.
    apply andb_true_iff in H. destruct H as [Hc _].
    apply negb_true_iff in Hc. now rewrite Hc. }
  rewrite Hs. now apply trimEnd_id.
Qed.

Lemma forall_chars_impl (p q : ascii -> bool) (s : string) :
  (forall c, p c = true -> q c = true) ->
  forall_chars p s = true -> forall_chars q s = true.
Proof.
  intros Hpq. induction s as [|c s IH]; simpl; [reflexivity|].
  intros H. apply andb_true_iff in H. destruct H as [Hc H].
  now rewrite (Hpq c Hc), (IH H).
Qed.

Lemma decimalToken_chars (ip fp : string) :
  forall_chars is_digit ip = true -> forall_chars is_digit fp = true ->
  forall_chars is_decimal_char (decimalToken ip fp) = true.
Proof.
  intros Hip Hfp.
  assert (Hd : forall s, forall_chars is_digit s = true ->
                         forall_chars is_decimal_char s = true).
  { intros s. apply forall_chars_impl. intros c Hc.
    now apply digit_cases in Hc. }
  unfold decimalToken. destruct (nonempty fp); [|now apply Hd].
  rewrite !forall_chars_app. rewrite (Hd ip Hip), (Hd fp Hfp). reflexivity.
Qed.

Lemma non_decimal_None (t : string) :
  forall_chars is_decimal_char t = true -> non_decimal t = None.
Proof.
  destruct t as [|c [|c2 r]]; [reflexivity| |].
  - intros _. now destruct c as [[] [] [] [] [] [] [] []].
  - intros H. cbn [forall_chars] in H.
    apply andb_true_iff in H. destruct H as [_ H].
    apply andb_true_iff in H. destruct H as [H2 _].
    apply decimal_char_cases in H2.
    destruct H2 as (_ & Hx & HX & Ho & HO & Hb & HB).
    destruct c as [[] [] [] [] [] [] [] []]; try reflexivity.
    cbn [non_decimal]. now rewrite Hx, HX, Ho, HO, Hb, HB.
Qed.

(** [Number] on the text of a decimal number is never NaN and never
    negative. *)
Lemma Number_decimalToken (ip fp : string) :
  nonempty ip = true -> forall_chars is_digit ip = true ->
  forall_chars is_digit fp = true ->
  nonnegative (Number (decimalToken ip fp)) = true.
Proof.
  intros Hne Hip Hfp.
  pose proof (decimalToken_chars ip fp Hip Hfp) as Hchars.
  unfold Number. rewrite trim_id.
  2:{ eapply forall_chars_impl; [|exact Hchars]. intros c Hc.
      apply decimal_char_cases in Hc. destruct Hc as [-> _]. reflexivity. }
  rewrite (non_decimal_None _ Hchars).
  assert (Hhead : exists c r, decimalToken ip fp = String c r /\
                              is_digit c = true).
  { destruct ip as [|c ip]; [discriminate|]. simpl in Hip.
    apply andb_true_iff in Hip. destruct Hip as [Hc _].
    unfold decimalToken. destruct (nonempty fp); eexists _, _;
      (split; [reflexivity|exact Hc]). }
  destruct Hhead as (c & r & Htok & Hc).
  assert (Hun : nonnegative (unsigned_decimal false (decimalToken ip fp)) = true).
  { unfold unsigned_decimal, decimalToken.
    destruct (nonempty fp) eqn:Hnf.
    - rewrite span_digits_app by (assumption || reflexivity).
      change ("." ++ fp) with (String "." fp).
      cbv iota. rewrite <- (append_empty_r fp) at 1.
      rewrite span_digits_app by (assumption || reflexivity).
      rewrite Hne. cbn [orb exponent_part]. apply of_decimal_nonnegative.
    - rewrite <- (append_empty_r ip) at 1.
      rewrite span_digits_app by (assumption || reflexivity).
      rewrite Hne. cbn [orb exponent_part]. apply of_decimal_nonnegative. }
  rewrite Htok in *. apply digit_cases in Hc.
  destruct Hc as (_ & Hplus & Hminus & HI).
  rewrite Hplus, Hminus. cbn [String.eqb]. rewrite HI. exact Hun.
Qed.

(** X13: [toNum] returns null or a number that is neither NaN nor
    negative: +0, a positive number or +Infinity. *)
Theorem toNum_nonnegative (s : option string) (x : number) :
  toNum s = Some x -> nonnegative x = true.
Proof.
  destruct s as [s|]; [|discriminate].
  rewrite toNum_eq. destruct (nonempty s); [|discriminate].
  destruct (exec_number (keep_chars is_numeric_char s)) as [[m1 m2]|] eqn:He;
    [|discriminate].
  intros [= <-]. apply exec_number_shape in He.
  destruct He as [(ip & fp & Hne & Hip & Hfp & ->) _].
  apply Math_round_nonnegative.
  pose proof (Number_decimalToken ip fp Hne Hip Hfp) as Hn.
  unfold scaleBy.
  destruct (String.eqb (toLowerCase m2) "k");
    [|destruct (String.eqb (toLowerCase m2) "m")]; [| |exact Hn].
  - change (of_Z 1000) with (S754_finite false 8796093022208000 (-43)).
    now apply mul_nonnegative.
  - change (of_Z 1000000) with (S754_finite false 8589934592000000 (-33)).
    now apply mul_nonnegative.
Qed.

Lemma toNum_nonnegative_witness :
  nonnegative (Math_round (mul (Number "1.2") (of_Z 1000))) = true.
Proof.
  apply (toNum_nonnegative (Some "1.2k")). vm_compute. reflexivity.
Defined.

Lemma keep_chars_app (p : ascii -> bool) (a b : string) :
  keep_chars p (a ++ b) = keep_chars p a ++ keep_chars p b.
Proof.
  induction a as [|c a IH]; [reflexivity|].
  change (String c a ++ b) with (String c (a ++ b)). cbn [keep_chars].
  rewrite IH. now destruct (p c).
Qed.

Lemma keep_chars_all (p : ascii -> bool) (a : string) :
  forall_chars p a = true -> keep_chars p a = a.
Proof.
  induction a as [|c a IH]; simpl; [reflexivity|].
  intros H. apply andb_true_iff in H. destruct H as [Hc H].
  now rewrite Hc, (IH H).
Qed.

Lemma suffix_cases (k : ascii) :
  is_suffix k = true ->
  is_digit k = false /\ Ascii.eqb k "." = false.
Proof.
  destruct k as [[] [] [] [] [] [] [] []]; vm_compute;
    try discriminate; intros _; repeat split.
Qed.

(** X14: the suffix is read from what is left after cleaning, so a
    letter k or m of a word that follows the number scales it: when the
    first character that survives cleaning after the digits is k, K, m or
    M, the number is multiplied by a thousand or a million, as in
    "12 comments", which gives twelve million. *)
Theorem toNum_suffix_from_word (ip w rest : string) (k : ascii) :
  nonempty ip = true -> forall_chars is_digit ip = true ->
  keep_chars is_numeric_char w = String k rest -> is_suffix k = true ->
  toNum (Some (ip ++ w))
  = Some (Math_round (scaleBy (String k "") (Number ip))).
Proof.
  intros Hne Hip Hw Hk.
  rewrite toNum_eq, nonempty_app_l by assumption.
  rewrite keep_chars_app, Hw, keep_chars_all.
  2:{ eapply forall_chars_impl; [|exact Hip]. intros c Hc.
      unfold is_numeric_char. now rewrite Hc. }
  apply suffix_cases in Hk as Hk'. destruct Hk' as [Hd Hp].
  change (ip ++ String k rest) with ("" ++ ip ++ String k rest).
  rewrite (exec_number_integer "" ip (String k rest));
    try assumption; try reflexivity.
  - simpl. now rewrite Hk.
  - simpl.
    destruct k as [[] [] [] [] [] [] [] []]; try reflexivity; discriminate.
Qed.

Lemma toNum_suffix_from_word_witness :
  toNum (Some "12 comments") = Some (of_Z 12000000) /\
  toNum (Some "3 min read") = Some (of_Z 3000000).
Proof.
  split.
  - exact (toNum_suffix_from_word "12" " comments" "m" "m"
             eq_refl eq_refl eq_refl eq_refl).
  - exact (toNum_suffix_from_word "3" " min read" "" "m"
             eq_refl eq_refl eq_refl eq_refl).
Defined.

(** ** [monthStamp] *)

Lemma append_length (a b : string) :
  String.length (a ++ b) = String.length a + String.length b.
Proof.
  induction a as [|c a IH]; [reflexivity|].
  change (String c a ++ b) with (String c (a ++ b)). simpl. now rewrite IH.
Qed.

Lemma append_inj_tail (a a' b b' : string) :
  a ++ b = a' ++ b' -> String.length b = String.length b' ->
  a = a' /\ b = b'.
Proof.
  revert a'. induction a as [|c a IH]; intros [|c' a'] H Hlen.
  - now split.
  - exfalso. change (b = String c' a' ++ b') in H. rewrite H in Hlen.
    rewrite append_length in Hlen. simpl in Hlen. lia.
  - exfalso. change (String c a ++ b = b') in H. rewrite <- H in Hlen.
    rewrite append_length in Hlen. simpl in Hlen. lia.
  - change (String c (a ++ b) = String c' (a' ++ b')) in H.
    injection H as -> H. destruct (IH a' H Hlen) as [-> ->]. now split.
Qed.

Lemma String_of_Z_inj (z z' : Z) : String_of_Z z = String_of_Z z' -> z = z'.
Proof.
  unfold String_of_Z. intros H. apply DecimalZ.to_int_inj.
  assert (Hnn : forall x, Z.to_int x <> Decimal.Pos Decimal.Nil /\
                          Z.to_int x <> Decimal.Neg Decimal.Nil).
  { intros [|p|p]; simpl; split; try discriminate;
      intros [= Hp]; now apply DecimalPos.Unsigned.to_uint_nonnil in Hp. }
  destruct (Hnn z) as [H1 H2]. destruct (Hnn z') as [H1' H2'].
  pose proof (NilZero.isi _ H1 H2) as E. rewrite H in E.
  rewrite (NilZero.isi _ H1' H2') in E. now injection E.
Qed.

Lemma month_cases (m : Z) :
  (0 <= m <= 11)%Z ->
  In m [0; 1; 2; 3; 4; 5; 6; 7; 8; 9; 10; 11]%Z.
Proof.
  intros H. simpl.
  assert (m = 0 \/ m = 1 \/ m = 2 \/ m = 3 \/ m = 4 \/ m = 5 \/ m = 6 \/
          m = 7 \/ m = 8 \/ m = 9 \/ m = 10 \/ m = 11)%Z by lia.
  intuition.
Qed.

Lemma month_part (m : Z) :
  (0 <= m <= 11)%Z ->
  String.length (padStart 2 "0" (String_of_Z (m + 1))) = 2 /\
  forall_chars is_digit (padStart 2 "0" (String_of_Z (m + 1))) = true.
Proof.
  intros H. apply month_cases in H. simpl in H.
  repeat (destruct H as [<-|H]; [split; reflexivity|]). destruct H.
Qed.

Lemma month_part_inj (m m' : Z) :
  (0 <= m <= 11)%Z -> (0 <= m' <= 11)%Z ->
  padStart 2 "0" (String_of_Z (m + 1)) = padStart 2 "0" (String_of_Z (m' + 1)) ->
  m = m'.
Proof.
  intros H H'. apply month_cases in H. apply month_cases in H'.
  simpl in H, H'.
  repeat (destruct H as [<-|H]);
    try (destruct H);
    repeat (destruct H' as [<-|H']);
    try (destruct H');
    try reflexivity; vm_compute; discriminate.
Qed.

(** X15: for dates with a month index between 0 and 11, [monthStamp]
    is the year, a hyphen and a two-digit month, and two dates have the
    same stamp exactly when they have the same year and month: each
    calendar month gets a file name of its own. *)
Theorem monthStamp_per_month (d d' : Date) :
  (0 <= getMonth d <= 11)%Z -> (0 <= getMonth d' <= 11)%Z ->
  (exists mm, monthStamp d = String_of_Z (getFullYear d) ++ "-" ++ mm /\
              String.length mm = 2 /\ forall_chars is_digit mm = true) /\
  (monthStamp d = monthStamp d' <->
   getFullYear d = getFullYear d' /\ getMonth d = getMonth d').
Proof.
  intros Hm Hm'. split.
  - eexists. split; [reflexivity|]. now apply month_part.
  - split.
    + unfold monthStamp. cbv zeta. intros H.
      rewrite <- !(append_associative _ "-") in H.
      apply append_inj_tail in H.
      * destruct H as [Hy Hmm]. split; [|now apply month_part_inj].
        apply (append_inj_tail _ _ "-" "-") in Hy; [|reflexivity].
        now apply String_of_Z_inj.
      * destruct (month_part _ Hm) as [-> _].
        now destruct (month_part _ Hm') as [-> _].
    + intros [Hy Hmo]. unfold monthStamp. now rewrite Hy, Hmo.
Qed.

Lemma monthStamp_per_month_witness :
  monthStamp {| getFullYear := 2025; getMonth := 8 |} = "2025-09" /\
  monthStamp {| getFullYear := 2025; getMonth := 8 |}
    <> monthStamp {| getFullYear := 2025; getMonth := 9 |}.
Proof.
  split; [reflexivity|].
  intros H.
  apply (monthStamp_per_month {| getFullYear := 2025; getMonth := 8 |}
           {| getFullYear := 2025; getMonth := 9 |}) in H;
    [|simpl; lia|simpl; lia].
  destruct H as [_ H]. discriminate H.
Defined.

(** ** The link test of [extractFromPage] *)

Lemma span_app (p : ascii -> bool) (a b : string) :
  forall_chars p a = true -> starts_with p b = false ->
  span p (a ++ b) = (a, b).
Proof.
  intros Ha Hb. induction a as [|c a IH].
  - destruct b as [|d b]; simpl in *; [reflexivity|]. now rewrite Hb.
  - simpl in Ha. apply andb_true_iff in Ha. destruct Ha as [Hc Ha].
    change (String c a ++ b) with (String c (a ++ b)).
    cbn [span]. now rewrite Hc, (IH Ha).
Qed.

Lemma leadingSegment_spec (s seg rest : string) :
  leadingSegment s = Some (seg, rest) <->
  s = "/" ++ seg ++ rest /\ forall_chars not_slash seg = true /\
  starts_with not_slash rest = false.
Proof.
  split.
  - destruct s as [|c r]; [discriminate|]. unfold leadingSegment.
    destruct (Ascii.eqb_spec c "/"%char) as [->|Hc].
    + intros [= H]. apply span_spec in H. destruct H as (-> & H1 & H2).
      now repeat split.
    + destruct c as [[] [] [] [] [] [] [] []]; try discriminate.
      now contradiction Hc.
  - intros (-> & H1 & H2).
    change ("/" ++ seg ++ rest) with (String "/" (seg ++ rest)).
    unfold leadingSegment. now rewrite span_app.
Qed.

(** [twoSegments] reads exactly the paths [/s1/s2] whose two segments
    hold no slash. *)
Lemma twoSegments_spec (p s1 s2 : string) :
  twoSegments p = Some (s1, s2) <->
  p = "/" ++ s1 ++ "/" ++ s2 /\
  forall_chars not_slash s1 = true /\ forall_chars not_slash s2 = true.
Proof.
  unfold twoSegments. split.
  - destruct (leadingSegment p) as [[a r]|] eqn:H1; [|discriminate].
    destruct (leadingSegment r) as [[b [|c t]]|] eqn:H2; try discriminate.
    intros [= <- <-]. apply leadingSegment_spec in H1, H2.
    destruct H1 as (-> & Ha & _). destruct H2 as (-> & Hb & _).
    rewrite append_empty_r. now repeat split.
  - intros (-> & H1 & H2).
    assert (E1 : leadingSegment ("/" ++ s1 ++ "/" ++ s2)
                 = Some (s1, "/" ++ s2))
      by (apply leadingSegment_spec; now repeat split).
    assert (E2 : leadingSegment ("/" ++ s2) = Some (s2, ""))
      by (apply leadingSegment_spec; rewrite append_empty_r;
          now repeat split).
    now rewrite E1, E2.
Qed.

Lemma hexSuffixedFrom_nonempty (seen : bool) (s : string) :
  hexSuffixedFrom seen s = true -> nonempty s = true.
Proof. destruct s; [discriminate|reflexivity]. Qed.

(** X16: what the test on the path of a link accepts.  Apart from the
    paths that start with [/p/] and a letter or digit, it accepts exactly
    the paths of two non-empty segments, [/s1/s2], unless [s1] is the one
    character [@] and [s2] has no hyphen followed by six hexadecimal
    digits at its end: the two patterns that ask for a hexadecimal id add
    nothing for any other first segment, so [/tag/programming] passes as
    well as an article link. *)
Theorem articlePath_accepts (p : string) :
  articlePath p = true <->
  pathShortId p = true \/
  exists s1 s2,
    p = "/" ++ s1 ++ "/" ++ s2 /\
    forall_chars not_slash s1 = true /\ forall_chars not_slash s2 = true /\
    nonempty s1 = true /\ nonempty s2 = true /\
    (s1 <> "@" \/ hexSuffixed s2 = true).
Proof.
  unfold articlePath, pathProfileHex, pathHex, pathProfile, pathTwoSegment.
  destruct (pathShortId p); [cbn; split; [now left|reflexivity]|].
  cbn [orb].
  destruct (twoSegments p) as [[s1 s2]|] eqn:Htwo.
  - apply twoSegments_spec in Htwo. destruct Htwo as (Hp & H1 & H2).
    assert (Hinj : forall a b, p = "/" ++ a ++ "/" ++ b ->
              forall_chars not_slash a = true ->
              forall_chars not_slash b = true -> a = s1 /\ b = s2).
    { intros a b Hp' Ha Hb.
      assert (E : twoSegments p = Some (a, b))
        by (apply twoSegments_spec; now repeat split).
      assert (E' : twoSegments p = Some (s1, s2))
        by (apply twoSegments_spec; now repeat split).
      rewrite E in E'. now injection E'. }
    assert (Hback : forall (Q : Prop),
              (nonempty s1 = true /\ nonempty s2 = true /\
               (s1 <> "@" \/ hexSuffixed s2 = true) -> Q) ->
              (false = true \/
               exists a b, p = "/" ++ a ++ "/" ++ b /\
                 forall_chars not_slash a = true /\
                 forall_chars not_slash b = true /\
                 nonempty a = true /\ nonempty b = true /\
                 (a <> "@" \/ hexSuffixed b = true)) -> Q).
    { intros Q HQ [H|(a & b & Hp' & Ha & Hb & Hna & Hnb & Hor)];
        [discriminate|].
      destruct (Hinj a b Hp' Ha Hb) as [-> ->]. now apply HQ. }
    assert (Hforth : nonempty s1 = true -> nonempty s2 = true ->
              (s1 <> "@" \/ hexSuffixed s2 = true) ->
              false = true \/
              exists a b, p = "/" ++ a ++ "/" ++ b /\
                forall_chars not_slash a = true /\
                forall_chars not_slash b = true /\
                nonempty a = true /\ nonempty b = true /\
                (a <> "@" \/ hexSuffixed b = true)).
    { intros. right. exists s1, s2. now repeat split. }
    clear Hinj Hp.
    destruct s1 as [|c s1'].
    { split; [discriminate|]. apply Hback. intros [H _]. discriminate. }
    destruct (hexSuffixed s2) eqn:Hhex.
    + assert (Hn2 : nonempty s2 = true)
        by (eapply hexSuffixedFrom_nonempty; exact Hhex).
      split; [intros _; apply Hforth; auto|intros _].
      destruct c as [[] [] [] [] [] [] [] []], s1'; reflexivity.
    + destruct s2 as [|d s2'].
      { split.
        - destruct c as [[] [] [] [] [] [] [] []], s1'; discriminate.
        - apply Hback. intros (_ & H & _). discriminate. }
      destruct (Ascii.eqb_spec c "@"%char) as [->|Hc].
      * destruct s1' as [|e s1''].
        -- split; [discriminate|]. apply Hback.
           intros (_ & _ & [H|H]); [now contradiction H|discriminate].
        -- split; [intros _|reflexivity].
           apply Hforth; auto; left; discriminate.
      * split.
        -- intros _. apply Hforth; auto; left; intros [= ->];
             now contradiction Hc.
        -- intros _.
           destruct c as [[] [] [] [] [] [] [] []], s1'; try reflexivity;
             now contradiction Hc.
  - split; [discriminate|].
    intros [H|(a & b & Hp' & Ha & Hb & _)]; [discriminate|].
    assert (E : twoSegments p = Some (a, b))
      by (apply twoSegments_spec; now repeat split).
    congruence.
Qed.

Lemma linkUrl_Some toAbs parseURL (href : option string) (abs : string) :
  linkUrl toAbs parseURL href = Some abs ->
  exists h u, href = Some h /\ toAbs h = Some abs /\
    includes abs "medium.com" = true /\
    parseURL abs = Some u /\ articlePath (pathname u) = true.
Proof.
  unfold linkUrl. destruct href as [[|c h]|]; try discriminate.
  destruct (toAbs (String c h)) as [[|d a]|] eqn:Ha; try discriminate.
  destruct (includes (String d a) "medium.com") eqn:Hm; [|discriminate].
  destruct (parseURL (String d a)) as [u|] eqn:Hu; [|discriminate].
  destruct (articlePath (pathname u)) eqn:Hp; [|discriminate].
  intros [= <-]. exists (String c h), u. now repeat split.
Qed.

(** X17: the URL of a container is the absolute URL of its first link
    that qualifies: the text "medium.com" occurs somewhere in it, in the
    host or anywhere else, it parses, and its path passes the path test;
    no link before it qualifies.  A container none of whose links
    qualifies, or without links, gets no URL. *)
Theorem selectUrl_first toAbs parseURL (hrefs : list (option string)) :
  match selectUrl toAbs parseURL hrefs with
  | Some abs =>
      exists pre h post u,
        hrefs = (pre ++ Some h :: post)%list /\
        List.Forall (fun x => linkUrl toAbs parseURL x = None) pre /\
        toAbs h = Some abs /\
        (exists a b, abs = a ++ "medium.com" ++ b) /\
        parseURL abs = Some u /\ articlePath (pathname u) = true
  | None => List.Forall (fun x => linkUrl toAbs parseURL x = None) hrefs
  end.
Proof.
  induction hrefs as [|href rest IH]; cbn [selectUrl]; [constructor|].
  destruct (linkUrl toAbs parseURL href) as [abs|] eqn:Hl.
  - apply linkUrl_Some in Hl.
    destruct Hl as (h & u & -> & Ha & Hm & Hu & Hp).
    exists [], h, rest, u. repeat split; try assumption; [constructor|].
    now apply includes_occurs.
  - destruct (selectUrl toAbs parseURL rest) as [abs|].
    + destruct IH as (pre & h & post & u & -> & Hpre & Hrest).
      exists (href :: pre), h, post, u. split; [reflexivity|].
      split; [now constructor|exact Hrest].
    + now constructor.
Qed.

(** ** [autoScroll] *)

Lemma upperBound_reached (x : number) (z : Z) :
  x <> S754_infinity false -> (upperBound x <= z)%Z -> (0 <= z)%Z ->
  Z_lt_number z x = false.
Proof.
  intros Hx Hz H0. destruct x as [s|[]| |[] m e]; simpl in *;
    try reflexivity; try congruence.
  - apply Z.ltb_ge. lia.
  - destruct (Z.leb_spec 0 e); apply Z.ltb_ge.
    + assert (0 <= 2 ^ e)%Z by (apply Z.pow_nonneg; lia). nia.
    + assert (0 <= 2 ^ (- e))%Z by (apply Z.pow_nonneg; lia). nia.
  - destruct (Z.leb_spec 0 e); apply Z.ltb_ge; [exact Hz|].
    assert (Hp : (0 < 2 ^ (- e))%Z) by (apply Z.pow_pos_nonneg; lia).
    pose proof (Z.div_mod (Z.neg m) (2 ^ (- e)) ltac:(lia)) as Hdm.
    pose proof (Z.mod_pos_bound (Z.neg m) (2 ^ (- e)) Hp) as Hmod.
    nia.
Qed.

(** What is below [x] has everything smaller below [x] too. *)
Lemma Z_lt_number_mono (x : number) (z z' : Z) :
  (z <= z')%Z -> Z_lt_number z' x = true -> Z_lt_number z x = true.
Proof.
  intros Hz. destruct x as [s|s| |s m e]; simpl; try tauto.
  - intros Hlt. apply Z.ltb_lt in Hlt. apply Z.ltb_lt. lia.
  - destruct (Z.leb_spec 0 e) as [He|He]; intros Hlt;
      apply Z.ltb_lt in Hlt; apply Z.ltb_lt; [lia|].
    assert (0 < 2 ^ (- e))%Z by (apply Z.pow_pos_nonneg; lia). nia.
Qed.

(** The saturating counter is the binary64 one: [i + 1] as the float
    addition computes it, below 2^53 and at 2^53. *)
Example increment_binary64 :
  SFadd prec emax (of_Z 41) (of_Z 1) = of_Z (increment 41) /\
  SFadd prec emax (of_Z (maxCounter - 1)) (of_Z 1)
    = of_Z (increment (maxCounter - 1)) /\
  SFadd prec emax (of_Z maxCounter) (of_Z 1) = of_Z (increment maxCounter) /\
  increment maxCounter = maxCounter.
Proof. repeat split; vm_compute; reflexivity. Qed.

Lemma increment_counterAt (k : nat) :
  increment (counterAt k) = counterAt (S k).
Proof.
  unfold increment, counterAt, maxCounter.
  destruct (Z.ltb_spec (Z.min (Z.of_nat k) 9007199254740992)
                       9007199254740992); lia.
Qed.

Lemma scrollLoop_accounts (heights : nat -> Z) (maxScrolls : number)
    (waitForLoad : Z) (fuel : nat) :
  forall (i previousHeight : Z) (log out : ScrollLog),
    i = counterAt (scrollsDone log) ->
    scrollAccounts maxScrolls waitForLoad log ->
    scrollLoop heights maxScrolls waitForLoad fuel i previousHeight log
      = Some out ->
    scrollAccounts maxScrolls waitForLoad out.
Proof.
  induction fuel as [|fuel IH]; intros i p log out Hi Hacc; simpl;
    destruct (Z_lt_number i maxScrolls) eqn:Hlt; try congruence.
  destruct Hacc as (Hr & Hs & Hst & Hk).
  set (log1 := {| scrollsDone := S (scrollsDone log); stalls := stalls log;
                  reads := S (reads log);
                  slept := slept log + waitForLoad + 500 |}).
  assert (Hacc1 : scrollAccounts maxScrolls waitForLoad log1).
  { unfold scrollAccounts, log1; cbn [scrollsDone stalls reads slept].
    repeat split; try lia.
    intros k Hlt'. destruct (Nat.eq_dec k (scrollsDone log)) as [->|].
    - now rewrite <- Hi.
    - apply Hk. lia. }
  set (log2 := {| scrollsDone := scrollsDone log1;
                  stalls := S (stalls log1); reads := S (reads log1);
                  slept := slept log1 + 1000 |}).
  assert (Hacc2 : scrollAccounts maxScrolls waitForLoad log2).
  { destruct Hacc1 as (Hr1 & Hs1 & Hst1 & Hk1).
    unfold scrollAccounts, log2; cbn [scrollsDone stalls reads slept].
    unfold log1 in *; cbn [scrollsDone stalls reads slept] in *.
    repeat split; try lia. exact Hk1. }
  assert (Hnext : increment i = counterAt (S (scrollsDone log)))
    by (rewrite Hi; apply increment_counterAt).
  destruct (heights (reads log) =? p)%Z.
  + destruct (heights (S (reads log)) =? p)%Z.
    * intros H; injection H as H; rewrite <- H; exact Hacc2.
    * apply IH; [exact Hnext|exact Hacc2].
  + apply IH; [exact Hnext|exact Hacc1].
Qed.

Lemma scrollLoop_returns (heights : nat -> Z) (maxScrolls : number)
    (waitForLoad : Z) (fuel : nat) :
  maxScrolls <> S754_infinity false ->
  (upperBound maxScrolls <= maxCounter)%Z ->
  forall (i previousHeight : Z) (log : ScrollLog),
    (0 <= i)%Z -> (upperBound maxScrolls <= i + Z.of_nat fuel)%Z ->
    exists out,
      scrollLoop heights maxScrolls waitForLoad fuel i previousHeight log
        = Some out.
Proof.
  intros Hx Hmax. induction fuel as [|fuel IH]; intros i p log H0 Hb; simpl.
  - rewrite (upperBound_reached maxScrolls i Hx) by lia. eauto.
  - destruct (Z_lt_number i maxScrolls) eqn:Hlt; [|eauto].
    assert (Hi : (i < upperBound maxScrolls)%Z).
    { destruct (Z_lt_ge_dec i (upperBound maxScrolls)) as [?|Hge];
        [assumption|].
      rewrite (upperBound_reached maxScrolls i Hx) in Hlt by lia.
      discriminate. }
    assert (Hinc : increment i = (i + 1)%Z).
    { unfold increment. destruct (Z.ltb_spec i maxCounter); lia. }
    rewrite Hinc.
    destruct (heights (reads log) =? p)%Z.
    + destruct (heights (S (reads log)) =? p)%Z; [eauto|].
      apply IH; lia.
    + apply IH; lia.
Qed.

(** On a page whose height changes at every read, with a bound that the
    counter cannot reach, no number of iterations leaves the loop. *)
Lemma scrollLoop_forever (heights : nat -> Z) (maxScrolls : number)
    (waitForLoad : Z) (fuel : nat) :
  Z_lt_number maxCounter maxScrolls = true ->
  (forall k, heights (S k) <> heights k) ->
  forall (i previousHeight : Z) (log : ScrollLog),
    (i <= maxCounter)%Z -> 1 <= reads log ->
    previousHeight = heights (reads log - 1) ->
    scrollLoop heights maxScrolls waitForLoad fuel i previousHeight log
      = None.
Proof.
  intros Hmax Hgrow. induction fuel as [|fuel IH]; intros i p log Hi Hr Hp;
    simpl; rewrite (Z_lt_number_mono maxScrolls i maxCounter Hi Hmax);
    [reflexivity|].
  destruct (Z.eqb_spec (heights (reads log)) p) as [Heq|_].
  - exfalso. apply (Hgrow (reads log - 1)).
    replace (S (reads log - 1)) with (reads log) by lia. congruence.
  - apply IH; cbn [reads].
    + unfold increment. destruct (Z.ltb_spec i maxCounter); lia.
    + lia.
    + f_equal. lia.
Qed.

(** X18 ([autoScroll], src/index.ts 137-156).  A run of [autoScroll] that
    returns has read the page height once before the loop, once after
    every scroll and once more after every scroll that left the height
    unchanged; it asked for [waitForLoad + 500] milliseconds of pause per
    scroll and 1000 more per unchanged height; and the counter was below
    [maxScrolls] at every scroll.  When [maxScrolls] is at most 2^53 the
    run does return, whatever the page does, after no more scrolls than
    the least integer that is not below [maxScrolls].  When [maxScrolls]
    is above 2^53, finite or not, the counter never gets there, and on a
    page whose height changes at every read the run never returns. *)
Theorem autoScroll_bounded (heights : nat -> Z) (maxScrolls : number)
    (waitForLoad : Z) :
  (forall fuel log,
     autoScroll heights maxScrolls waitForLoad fuel = Some log ->
     scrollAccounts maxScrolls waitForLoad log) /\
  (maxScrolls <> Infinity -> (upperBound maxScrolls <= maxCounter)%Z ->
   forall fuel, (upperBound maxScrolls <= Z.of_nat fuel)%Z ->
     exists log,
       autoScroll heights maxScrolls waitForLoad fuel = Some log /\
       (Z.of_nat (scrollsDone log) <= Z.max 0 (upperBound maxScrolls))%Z) /\
  (Z_lt_number maxCounter maxScrolls = true ->
   (forall k, heights (S k) <> heights k) ->
   forall fuel, autoScroll heights maxScrolls waitForLoad fuel = None).
Proof.
  assert (Hstart : scrollAccounts maxScrolls waitForLoad
            {| scrollsDone := 0; stalls := 0; reads := 1; slept := 0 |}).
  { unfold scrollAccounts; cbn [scrollsDone stalls reads slept].
    repeat split; lia. }
  split; [|split].
  - intros fuel log. unfold autoScroll.
    apply scrollLoop_accounts; [reflexivity|exact Hstart].
  - intros Hx Hmax fuel Hb.
    destruct (scrollLoop_returns heights maxScrolls waitForLoad fuel Hx Hmax
                0 (heights 0)
                {| scrollsDone := 0; stalls := 0; reads := 1; slept := 0 |})
      as [out Hout]; [lia|lia|].
    exists out. split; [exact Hout|].
    assert (Hacc : scrollAccounts maxScrolls waitForLoad out).
    { eapply scrollLoop_accounts; [| |exact Hout];
        [reflexivity|exact Hstart]. }
    destruct Hacc as (_ & _ & _ & Hk).
    destruct (scrollsDone out) as [|n]; [lia|].
    specialize (Hk n (Nat.lt_succ_diag_r n)).
    destruct (Z_le_gt_dec (upperBound maxScrolls) (Z.of_nat n)) as [Hle|Hgt].
    + rewrite (upperBound_reached maxScrolls (counterAt n) Hx) in Hk;
        [discriminate| |]; unfold counterAt, maxCounter in *; lia.
    + lia.
  - intros Hmax Hgrow fuel. unfold autoScroll.
    apply scrollLoop_forever; cbn [reads];
      [exact Hmax|exact Hgrow|unfold maxCounter; lia|lia|reflexivity].
Qed.

Lemma autoScroll_bounded_witness :
  (exists log,
     autoScroll growingPage (of_Z 6) 2500 6 = Some log /\
     (Z.of_nat (scrollsDone log) <= Z.max 0 (upperBound (of_Z 6)))%Z) /\
  autoScroll growingPage (of_Z (2 * maxCounter)) 2500 6 = None.
Proof.
  split.
  - apply (proj1 (proj2 (autoScroll_bounded growingPage (of_Z 6) 2500))).
    + discriminate.
    + vm_compute. discriminate.
    + vm_compute. discriminate.
  - apply (proj2 (proj2 (autoScroll_bounded growingPage
                           (of_Z (2 * maxCounter)) 2500))).
    + vm_compute. reflexivity.
    + intros k. unfold growingPage. lia.
Defined.

Lemma scrollLoop_exit (heights : nat -> Z) (maxScrolls : number)
    (waitForLoad : Z) (fuel : nat) :
  forall (i previousHeight : Z) (log out : ScrollLog),
    i = counterAt (scrollsDone log) ->
    1 <= reads log ->
    previousHeight = heights (reads log - 1) ->
    scrollLoop heights maxScrolls waitForLoad fuel i previousHeight log
      = Some out ->
    stoppedAtBound maxScrolls out \/ stoppedOnStall heights out.
Proof.
  assert (Hbound : forall i log,
            i = counterAt (scrollsDone log) ->
            Z_lt_number i maxScrolls = false ->
            stoppedAtBound maxScrolls log).
  { intros i log Hi Hlt. unfold stoppedAtBound.
    destruct (Z_lt_number (Z.of_nat (scrollsDone log)) maxScrolls) eqn:E;
      [|reflexivity].
    apply (Z_lt_number_mono maxScrolls i) in E; [congruence|].
    rewrite Hi. unfold counterAt. lia. }
  induction fuel as [|fuel IH]; intros i p log out Hi Hr Hp; simpl;
    destruct (Z_lt_number i maxScrolls) eqn:Hlt; try discriminate.
  - intros H; injection H as <-. left. now apply (Hbound i).
  - assert (Hnext : increment i = counterAt (S (scrollsDone log)))
      by (rewrite Hi; apply increment_counterAt).
    destruct (Z.eqb_spec (heights (reads log)) p) as [Hnew|Hnew].
    + destruct (Z.eqb_spec (heights (S (reads log))) p) as [Hfin|Hfin].
      * intros H; injection H as <-. right.
        unfold stoppedOnStall; cbn [reads].
        replace (S (S (reads log)) - 2) with (reads log) by lia.
        replace (S (S (reads log)) - 3) with (reads log - 1) by lia.
        replace (S (S (reads log)) - 1) with (S (reads log)) by lia.
        repeat split; [lia|congruence|congruence].
      * apply IH; cbn [scrollsDone reads]; [exact Hnext|lia|f_equal; lia].
    + apply IH; cbn [scrollsDone reads]; [exact Hnext|lia|f_equal; lia].
  - intros H; injection H as <-. left. now apply (Hbound i).
Qed.

(** X19 ([autoScroll], src/index.ts 139-155).  [autoScroll] leaves its
    loop in one of two ways only: the scroll counter is no longer below
    [maxScrolls], or the last three heights it read are equal (the height
    before a scroll, the one after it, and the one read a second later).
    So on a page whose height differs between any two consecutive reads
    it scrolls until the bound; and on a page whose first three heights
    are equal it scrolls once, reads three heights and pauses
    [waitForLoad + 1500] milliseconds, provided [maxScrolls] is above
    zero. *)
Theorem autoScroll_exit (heights : nat -> Z) (maxScrolls : number)
    (waitForLoad : Z) :
  (forall fuel log,
     autoScroll heights maxScrolls waitForLoad fuel = Some log ->
     stoppedAtBound maxScrolls log \/ stoppedOnStall heights log) /\
  ((forall k, heights (S k) <> heights k) ->
   forall fuel log,
     autoScroll heights maxScrolls waitForLoad fuel = Some log ->
     stoppedAtBound maxScrolls log) /\
  (Z_lt_number 0 maxScrolls = true ->
   heights 1 = heights 0 -> heights 2 = heights 0 ->
   forall fuel,
     autoScroll heights maxScrolls waitForLoad (S fuel)
     = Some {| scrollsDone := 1; stalls := 1; reads := 3;
               slept := waitForLoad + 1500 |}).
Proof.
  assert (Hexit : forall fuel log,
     autoScroll heights maxScrolls waitForLoad fuel = Some log ->
     stoppedAtBound maxScrolls log \/ stoppedOnStall heights log).
  { intros fuel log. unfold autoScroll.
    apply scrollLoop_exit; cbn [scrollsDone reads]; auto. }
  split; [exact Hexit|]. split.
  - intros Hgrow fuel log Hrun.
    destruct (Hexit fuel log Hrun) as [Hb|(H3 & H2 & _)]; [exact Hb|].
    exfalso. apply (Hgrow (reads log - 3)).
    replace (S (reads log - 3)) with (reads log - 2) by lia. exact H2.
  - intros Hlt H1 H2 fuel. unfold autoScroll. simpl.
    rewrite Hlt, H1, H2, Z.eqb_refl. do 2 f_equal. lia.
Qed.

Lemma autoScroll_exit_witness :
  stoppedAtBound (of_Z 6)
    {| scrollsDone := 6; stalls := 0; reads := 7; slept := 18000 |} /\
  autoScroll stablePage (of_Z 6) 2500 1
  = Some {| scrollsDone := 1; stalls := 1; reads := 3; slept := 4000 |}.
Proof.
  split.
  - apply (proj1 (proj2 (autoScroll_exit growingPage (of_Z 6) 2500)))
      with (fuel := 6).
    + intros k. unfold growingPage. lia.
    + vm_compute. reflexivity.
  - apply (proj2 (proj2 (autoScroll_exit stablePage (of_Z 6) 2500)));
      reflexivity.
Defined.

(** ** [main] *)

Lemma allocate_old (h : heap) (n : loc) (articles : list Article) (r : loc) :
  r < n -> allocate h n articles r = h r.
Proof.
  intros H. unfold allocate.
  destruct (Nat.leb_spec n r); [lia|reflexivity].
Qed.

Lemma collection_allocate (h : heap) (n : loc) (articles : list Article) :
  collection (allocate h n articles) (seq n (length articles)) = articles.
Proof.
  unfold collection.
  apply nth_ext with (d := allocate h n articles 0) (d' := h 0).
  - now rewrite length_map, length_seq.
  - intros i Hi. rewrite length_map, length_seq in Hi.
    rewrite map_nth, seq_nth by assumption.
    unfold allocate. destruct (Nat.leb_spec n (n + i)); [|lia].
    replace (n + i - n) with i by lia. now apply nth_indep.
Qed.

Lemma collection_agree (h h' : heap) (l : list loc) :
  (forall r, In r l -> h' r = h r) -> collection h' l = collection h l.
Proof. intros H. unfold collection. now apply map_ext_in. Qed.

(** The update pass writes to stored articles of the tag only. *)
Lemma mergeArticles_writes_stored (h : heap) (store : gmap string (list loc))
    (batch : list loc) (tg : string) (r : loc) :
  ~ In r (default [] (store !! tg)) ->
  fst (mergeArticles h store batch tg) r = h r.
Proof.
  intros Hr. update_pass Hfold. cbn [fst].
  destruct (decide (h' r = h r)) as [Heq|Hne]; [exact Heq|].
  exfalso. apply Hr.
  eapply (visitNew_fold_writes h _ batch h 0 0 h' nc uc r);
    [intros r0; apply sameIdentity_refl|exact Hfold|exact Hne].
Qed.


Lemma processTag_thrown (st : MainState) (run : TagRun) :
  scrapeThrows run -> processTag st run = st.
Proof.
  unfold scrapeThrows, processTag.
  now destruct (run_scrape run).
Qed.

Lemma mergeable_dec (existing : gmap string (list loc)) (tg : string) :
  mergeable existing tg \/ ~ mergeable existing tg.
Proof.
  unfold mergeable. destruct (getProperty existing tg);
    [left; discriminate|right; intros H; now apply H|left; discriminate].
Qed.

Lemma mergeable_iff (existing : gmap string (list loc)) (tg : string) :
  mergeable existing tg <->
  existing !! tg <> None \/ inheritedKey tg = false.
Proof.
  unfold mergeable, getProperty.
  destruct (existing !! tg) as [l|]; [split; [now left|discriminate]|].
  destruct (inheritedKey tg); split.
  - intros H. now contradiction H.
  - intros [H|H]; [now contradiction H|discriminate].
  - now right.
  - discriminate.
Qed.

(** The iteration when scrape and merge return. *)
Lemma processTag_returned (st : MainState) (run : TagRun)
    (articles : list Article) :
  run_scrape run = Returned articles ->
  mergeable (existingData st) (run_tag run) ->
  processTag st run =
  let h0 := allocate (objects st) (allocated st) articles in
  let batch := seq (allocated st) (length articles) in
  let (h1, r) := mergeArticles h0 (existingData st) batch (run_tag run) in
  let store := storeMerged (existingData st) (run_tag run) r in
  {| objects := h1;
     allocated := allocated st + length articles;
     existingData := store;
     written := match run_write run with
                | Returned _ => Some (snapshot h1 store)
                | Thrown _ => written st
                end |}.
Proof.
  intros Hs Hm. unfold processTag, mergeArticlesCall, mergeable in *.
  rewrite Hs.
  destruct (getProperty (existingData st) (run_tag run));
    [reflexivity|now contradiction Hm|reflexivity].
Qed.

(** The iteration when the scrape returns and the merge throws. *)
Lemma processTag_refused (st : MainState) (run : TagRun)
    (articles : list Article) :
  run_scrape run = Returned articles ->
  ~ mergeable (existingData st) (run_tag run) ->
  processTag st run =
  {| objects := allocate (objects st) (allocated st) articles;
     allocated := allocated st + length articles;
     existingData := existingData st;
     written := written st |}.
Proof.
  intros Hs Hm. unfold processTag, mergeArticlesCall, mergeable in *.
  rewrite Hs.
  destruct (getProperty (existingData st) (run_tag run));
    [contradiction Hm; discriminate|reflexivity
    |contradiction Hm; discriminate].
Qed.

Lemma stored_eq (st : MainState) (tg : string) :
  stored st tg = collection (objects st) <$> existingData st !! tg.
Proof. unfold stored, snapshot. apply lookup_fmap. Qed.

Lemma processTag_wellFormed (st : MainState) (run : TagRun) :
  wellFormed st -> wellFormed (processTag st run).
Proof.
  intros [Hal Hdis].
  destruct (run_scrape run) as [articles|e] eqn:Hs;
    [|rewrite processTag_thrown;
      [split; assumption|unfold scrapeThrows; now rewrite Hs]].
  destruct (mergeable_dec (existingData st) (run_tag run)) as [Hm|Hm];
    [rewrite (processTag_returned st run articles Hs Hm)
    |rewrite (processTag_refused st run articles Hs Hm)]; cbv zeta.
  2:{ split; cbn [existingData allocated].
      - intros tg l r Hl Hr. specialize (Hal _ _ _ Hl Hr). lia.
      - exact Hdis. }
  pose proof (mergeArticles_members
                (allocate (objects st) (allocated st) articles)
                (existingData st)
                (seq (allocated st) (length articles)) (run_tag run)) as Hmem.
  destruct (mergeArticles _ _ _ _) as [h1 r]. cbn [snd] in Hmem.
  assert (Hin : forall x, In x (merged r) ->
            (allocated st <= x < allocated st + length articles) \/
            exists l0, existingData st !! run_tag run = Some l0 /\ In x l0).
  { intros x Hx. apply Hmem in Hx. destruct Hx as [Hx|[Hx _]].
    - left. apply in_seq in Hx. lia.
    - right. destruct (existingData st !! run_tag run) as [l0|];
        [now exists l0|contradiction]. }
  split; cbn [existingData allocated]; unfold storeMerged.
  - intros tg l x Hl Hx. destruct (decide (tg = run_tag run)) as [->|Hne].
    + rewrite lookup_insert_eq in Hl. injection Hl as <-.
      destruct (Hin x Hx) as [?|[l0 [Hl0 Hx0]]]; [lia|].
      specialize (Hal _ _ _ Hl0 Hx0). lia.
    + rewrite lookup_insert_ne in Hl by congruence.
      specialize (Hal _ _ _ Hl Hx). lia.
  - intros tg1 tg2 l1 l2 x Hne H1 H2 Hx1 Hx2.
    destruct (decide (tg1 = run_tag run)) as [->|Hn1];
      destruct (decide (tg2 = run_tag run)) as [->|Hn2];
      [congruence| | |].
    + rewrite lookup_insert_eq in H1. injection H1 as <-.
      rewrite lookup_insert_ne in H2 by congruence.
      destruct (Hin x Hx1) as [?|[l0 [Hl0 Hx0]]].
      * specialize (Hal _ _ _ H2 Hx2). lia.
      * exact (Hdis _ _ _ _ x Hne Hl0 H2 Hx0 Hx2).
    + rewrite lookup_insert_eq in H2. injection H2 as <-.
      rewrite lookup_insert_ne in H1 by congruence.
      destruct (Hin x Hx2) as [?|[l0 [Hl0 Hx0]]].
      * specialize (Hal _ _ _ H1 Hx1). lia.
      * exact (Hdis _ _ _ _ x Hne H1 Hl0 Hx1 Hx0).
    + rewrite lookup_insert_ne in H1 by congruence.
      rewrite lookup_insert_ne in H2 by congruence.
      exact (Hdis _ _ _ _ x Hne H1 H2 Hx1 Hx2).
Qed.

Lemma mainLoop_wellFormed (runs : list TagRun) :
  forall st, wellFormed st -> wellFormed (mainLoop runs st).
Proof.
  unfold mainLoop. induction runs as [|run runs IH]; intros st H;
    cbn [fold_left]; [assumption|].
  apply IH. now apply processTag_wellFormed.
Qed.

(** An iteration whose merge throws leaves every collection as it is. *)
Lemma processTag_refused_stored (st : MainState) (run : TagRun)
    (articles : list Article) (tg : string) :
  wellFormed st -> run_scrape run = Returned articles ->
  ~ mergeable (existingData st) (run_tag run) ->
  stored (processTag st run) tg = stored st tg.
Proof.
  intros [Hal _] Hs Hm. rewrite (processTag_refused st run articles Hs Hm).
  rewrite !stored_eq. cbn [existingData objects].
  destruct (existingData st !! tg) as [l|] eqn:Hl; [|reflexivity].
  cbn. f_equal. apply collection_agree. intros x Hx.
  apply allocate_old. exact (Hal _ _ _ Hl Hx).
Qed.

(** One iteration leaves the collection of every other tag as it is. *)
Lemma processTag_other_tag (st : MainState) (run : TagRun) (tg : string) :
  wellFormed st -> leavesAlone tg run ->
  stored (processTag st run) tg = stored st tg.
Proof.
  intros Hwf. pose proof Hwf as [Hal Hdis]. unfold leavesAlone.
  destruct (run_scrape run) as [articles|e] eqn:Hs;
    [|intros _; rewrite processTag_thrown;
      [reflexivity|unfold scrapeThrows; now rewrite Hs]].
  intros Hne.
  destruct (mergeable_dec (existingData st) (run_tag run)) as [Hm|Hm];
    [|now apply (processTag_refused_stored st run articles)].
  rewrite (processTag_returned st run articles Hs Hm). cbv zeta.
  pose proof (mergeArticles_writes_stored
                (allocate (objects st) (allocated st) articles)
                (existingData st)
                (seq (allocated st) (length articles)) (run_tag run)) as Hw.
  destruct (mergeArticles _ _ _ _) as [h1 r]. cbn [fst] in Hw.
  rewrite !stored_eq. cbn [existingData objects]. unfold storeMerged.
  rewrite lookup_insert_ne by exact Hne.
  destruct (existingData st !! tg) as [l|] eqn:Hl; [|reflexivity].
  cbn. f_equal. apply collection_agree. intros x Hx.
  rewrite Hw.
  - apply allocate_old. exact (Hal _ _ _ Hl Hx).
  - destruct (existingData st !! run_tag run) as [l0|] eqn:Hl0;
      [|intros []].
    cbn. intros Hx0. exact (Hdis _ _ _ _ x Hne Hl0 Hl Hx0 Hx).
Qed.


(** One iteration whose scrape and merge return: the collection of its
    tag is sorted afterwards, holds the URL of every scraped article and still
    holds every URL it held. *)
Lemma processTag_same_tag (st : MainState) (run : TagRun)
    (articles : list Article) :
  wellFormed st -> run_scrape run = Returned articles ->
  mergeable (existingData st) (run_tag run) ->
  exists c',
    stored (processTag st run) (run_tag run) = Some c' /\
    clapsDescending c' /\
    (forall x, In x articles -> In (url x) (map url c')) /\
    (forall c u, stored st (run_tag run) = Some c -> In u (map url c) ->
                 In u (map url c')).
Proof.
  intros [Hal _] Hs Hm.
  rewrite (processTag_returned st run articles Hs Hm). cbv zeta.
  set (h0 := allocate (objects st) (allocated st) articles).
  set (batch := seq (allocated st) (length articles)).
  pose proof (mergedCollection_sorted h0 (existingData st) batch
                (run_tag run)) as Hsorted.
  pose proof (mergedCollection_urls h0 (existingData st) batch
                (run_tag run)) as Hurls.
  unfold mergedCollection in Hsorted, Hurls.
  destruct (mergeArticles h0 (existingData st) batch (run_tag run))
    as [h1 r].
  exists (collection h1 (merged r)).
  rewrite stored_eq. cbn [objects existingData]. unfold storeMerged.
  rewrite lookup_insert_eq.
  split; [reflexivity|]. split; [exact Hsorted|].
  assert (Hb : urls h0 batch = map url articles).
  { unfold urls, h0, batch.
    rewrite <- (map_map (allocate (objects st) (allocated st) articles) url).
    change (map (allocate ?h ?n ?a) ?l) with (collection (allocate h n a) l).
    now rewrite collection_allocate. }
  unfold urls in Hurls. rewrite map_app in Hurls.
  fold (urls h0 batch) in Hurls. rewrite Hb in Hurls.
  split.
  - intros x Hx. eapply Permutation_in; [symmetry; exact Hurls|].
    apply in_or_app. left. now apply in_map.
  - intros c u Hc Hu. rewrite stored_eq in Hc.
    destruct (existingData st !! run_tag run) as [l0|] eqn:Hl0;
      [|discriminate].
    cbn in Hc. injection Hc as <-.
    unfold collection in Hu. rewrite map_map in Hu.
    apply in_map_iff in Hu. destruct Hu as [e [Hu He]].
    assert (He0 : h0 e = objects st e)
      by (apply allocate_old; exact (Hal _ _ _ Hl0 He)).
    eapply Permutation_in; [symmetry; exact Hurls|].
    apply in_or_app.
    destruct (notRefreshed h0 batch e) eqn:Hn.
    + right. apply in_map_iff. exists e.
      split; [now rewrite He0|].
      cbn [from_option]. apply filter_In. now split.
    + left. unfold notRefreshed in Hn. apply negb_false_iff in Hn.
      apply existsb_exists in Hn. destruct Hn as [n [Hn Heq]].
      apply bool_decide_eq_true in Heq.
      rewrite <- Hb. unfold urls. apply in_map_iff. exists n.
      split; [|exact Hn]. rewrite Heq, He0. exact Hu.
Qed.

Lemma stored_mergeable (st : MainState) (tg : string) (c : list Article) :
  stored st tg = Some c -> mergeable (existingData st) tg.
Proof.
  rewrite stored_eq. intros H. apply mergeable_iff. left.
  now destruct (existingData st !! tg).
Qed.

Lemma processTag_keeps_url (st : MainState) (run : TagRun) (tg : string)
    (u : option string) :
  wellFormed st -> holdsUrl st tg u -> holdsUrl (processTag st run) tg u.
Proof.
  intros Hwf [c [Hc Hu]].
  destruct (run_scrape run) as [articles|e] eqn:Hs.
  - destruct (decide (run_tag run = tg)) as [<-|Hne].
    + destruct (processTag_same_tag st run articles Hwf Hs
                  (stored_mergeable _ _ _ Hc))
        as [c' [Hc' [_ [_ Hkeep]]]].
      exists c'. split; [exact Hc'|]. exact (Hkeep c u Hc Hu).
    + exists c. split; [|exact Hu].
      rewrite processTag_other_tag; [exact Hc|exact Hwf|].
      unfold leavesAlone. now rewrite Hs.
  - exists c. split; [|exact Hu].
    rewrite processTag_thrown; [exact Hc|].
    unfold scrapeThrows. now rewrite Hs.
Qed.

Lemma processTag_keeps_sorted (st : MainState) (run : TagRun) (tg : string) :
  wellFormed st -> holdsSorted st tg -> holdsSorted (processTag st run) tg.
Proof.
  intros Hwf [c [Hc Hsorted]].
  destruct (run_scrape run) as [articles|e] eqn:Hs.
  - destruct (decide (run_tag run = tg)) as [<-|Hne].
    + destruct (processTag_same_tag st run articles Hwf Hs
                  (stored_mergeable _ _ _ Hc))
        as [c' [Hc' [Hs' _]]].
      now exists c'.
    + exists c. split; [|exact Hsorted].
      rewrite processTag_other_tag; [exact Hc|exact Hwf|].
      unfold leavesAlone. now rewrite Hs.
  - exists c. split; [|exact Hsorted].
    rewrite processTag_thrown; [exact Hc|].
    unfold scrapeThrows. now rewrite Hs.
Qed.

Lemma mainLoop_snoc (runs : list TagRun) (run : TagRun) (st : MainState) :
  mainLoop (runs ++ [run]) st = processTag (mainLoop runs st) run.
Proof. unfold mainLoop. now rewrite fold_left_app. Qed.

Lemma mainLoop_keeps_url (runs : list TagRun) (tg : string)
    (u : option string) :
  forall st, wellFormed st -> holdsUrl st tg u ->
             holdsUrl (mainLoop runs st) tg u.
Proof.
  unfold mainLoop. induction runs as [|run runs IH]; intros st Hwf H;
    cbn [fold_left]; [exact H|].
  apply IH; [now apply processTag_wellFormed|].
  now apply processTag_keeps_url.
Qed.

Lemma mainLoop_keeps_sorted (runs : list TagRun) (tg : string) :
  forall st, wellFormed st -> holdsSorted st tg ->
             holdsSorted (mainLoop runs st) tg.
Proof.
  unfold mainLoop. induction runs as [|run runs IH]; intros st Hwf H;
    cbn [fold_left]; [exact H|].
  apply IH; [now apply processTag_wellFormed|].
  now apply processTag_keeps_sorted.
Qed.

(** Whether the merge returns for a tag does not change during the loop:
    a key that the store has stays, and a member of [Object.prototype]
    that is no own key never becomes one. *)
Lemma processTag_mergeable (st : MainState) (run : TagRun) (tg : string) :
  mergeable (existingData (processTag st run)) tg <->
  mergeable (existingData st) tg.
Proof.
  destruct (run_scrape run) as [articles|e] eqn:Hs;
    [|rewrite processTag_thrown;
      [reflexivity|unfold scrapeThrows; now rewrite Hs]].
  destruct (mergeable_dec (existingData st) (run_tag run)) as [Hm|Hm];
    [|now rewrite (processTag_refused st run articles Hs Hm)].
  rewrite (processTag_returned st run articles Hs Hm). cbv zeta.
  destruct (mergeArticles _ _ _ _) as [h1 r]. cbn [existingData].
  unfold storeMerged. rewrite !mergeable_iff.
  destruct (decide (run_tag run = tg)) as [<-|Hne].
  - rewrite lookup_insert_eq. apply mergeable_iff in Hm.
    split; [intros _; exact Hm|intros _; now left].
  - now rewrite lookup_insert_ne.
Qed.

Lemma mainLoop_mergeable (runs : list TagRun) (tg : string) :
  forall st, mergeable (existingData (mainLoop runs st)) tg <->
             mergeable (existingData st) tg.
Proof.
  unfold mainLoop. induction runs as [|run runs IH]; intros st;
    cbn [fold_left]; [reflexivity|].
  rewrite IH. apply processTag_mergeable.
Qed.

Lemma sampleState_wellFormed : wellFormed sampleState.
Proof.
  split; cbn [existingData allocated sampleState].
  - intros tg l r Hl Hr.
    apply lookup_insert_Some in Hl. destruct Hl as [[_ <-]|[_ Hl]].
    + destruct Hr as [<-|[]]. lia.
    + apply lookup_singleton_Some in Hl. destruct Hl as [_ <-].
      destruct Hr as [<-|[]]. lia.
  - intros tg1 tg2 l1 l2 r Hne H1 H2 Hr1 Hr2.
    apply lookup_insert_Some in H1. apply lookup_insert_Some in H2.
    destruct H1 as [[E1 <-]|[N1 H1]]; destruct H2 as [[E2 <-]|[N2 H2]].
    + congruence.
    + apply lookup_singleton_Some in H2. destruct H2 as [_ <-].
      destruct Hr1 as [<-|[]]. destruct Hr2 as [?|[]]. discriminate.
    + apply lookup_singleton_Some in H1. destruct H1 as [_ <-].
      destruct Hr1 as [<-|[]]. destruct Hr2 as [?|[]]. discriminate.
    + apply lookup_singleton_Some in H1. apply lookup_singleton_Some in H2.
      destruct H1 as [<- _]. destruct H2 as [<- _]. congruence.
Qed.

(** X20 ([main], src/index.ts 470-486, with [mergeArticles]).  The loop
    over the tags leaves alone every collection whose tag it does not
    process: when no run whose scrape returns has the tag [tg], the
    collection stored under [tg] is after the loop the same list of the
    same records as before, also when other tags were merged and
    re-sorted in between; a key that was absent stays absent. *)
Theorem main_other_tags (runs : list TagRun) (tg : string) :
  forall st, wellFormed st -> Forall (leavesAlone tg) runs ->
             stored (mainLoop runs st) tg = stored st tg.
Proof.
  unfold mainLoop. induction runs as [|run runs IH]; intros st Hwf Hall;
    cbn [fold_left]; [reflexivity|].
  apply List.Forall_cons_iff in Hall. destruct Hall as [Hrun Hall].
  rewrite IH; [|now apply processTag_wellFormed|exact Hall].
  now apply processTag_other_tag.
Qed.

Lemma main_other_tags_witness :
  stored (mainLoop (firstn 2 sampleRuns) sampleState) "ai"
  = stored sampleState "ai".
Proof.
  apply main_other_tags.
  - exact sampleState_wellFormed.
  - repeat constructor; unfold leavesAlone; cbn; discriminate.
Defined.

(** X21 ([main], src/index.ts 470-486, with [mergeArticles]).  The loop
    never drops a URL: a URL that the collection of a tag holds before
    the loop is held by the collection of that tag after it, whatever the
    scrapes return and whichever of them or of the writes fail. *)
Theorem main_keeps_urls (runs : list TagRun) (st : MainState) (tg : string)
    (u : option string) :
  wellFormed st -> holdsUrl st tg u -> holdsUrl (mainLoop runs st) tg u.
Proof.
  revert st. induction runs as [|run runs IH] using rev_ind;
    intros st Hwf H; [exact H|].
  rewrite mainLoop_snoc.
  apply processTag_keeps_url; [now apply mainLoop_wellFormed|].
  now apply IH.
Qed.

Lemma main_keeps_urls_witness :
  holdsUrl (mainLoop sampleRuns sampleState) "programming"
           (Some "https://medium.com/p/aaa111").
Proof.
  apply main_keeps_urls.
  - exact sampleState_wellFormed.
  - exists [storedA]. split; [reflexivity|]. left. reflexivity.
Defined.

(** X22 ([main], src/index.ts 470-486, with [scrapeTag] and
    [mergeArticles]).  Take a tag whose scrape returned.  When the call
    of [mergeArticles] returns for it, that is when the store has the
    tag as its own key or the tag names no member of [Object.prototype],
    the tag has a collection after the loop, also when the scrape found
    nothing or the write failed; the collection is in descending order
    of claps, null counted as 0, and holds the URL of every article that
    the scrape returned.  Otherwise the call throws each time and the
    tag has no collection after the loop. *)
Theorem main_processed_tags (runs : list TagRun) (st : MainState)
    (run : TagRun) (articles : list Article) :
  wellFormed st -> In run runs -> run_scrape run = Returned articles ->
  (mergeable (existingData st) (run_tag run) ->
   holdsSorted (mainLoop runs st) (run_tag run) /\
   forall x, In x articles ->
             holdsUrl (mainLoop runs st) (run_tag run) (url x)) /\
  (~ mergeable (existingData st) (run_tag run) ->
   stored (mainLoop runs st) (run_tag run) = None).
Proof.
  intros Hwf Hin Hs. split.
  - intros Hm. apply in_split in Hin.
    destruct Hin as [pre [post ->]].
    assert (Hmid : wellFormed (mainLoop pre st))
      by now apply mainLoop_wellFormed.
    assert (Hm' : mergeable (existingData (mainLoop pre st)) (run_tag run))
      by now apply mainLoop_mergeable.
    destruct (processTag_same_tag (mainLoop pre st) run articles Hmid Hs Hm')
      as [c [Hc [Hsorted [Hurls _]]]].
    assert (Hstep : mainLoop (pre ++ run :: post) st
                    = mainLoop post (processTag (mainLoop pre st) run)).
    { unfold mainLoop. now rewrite fold_left_app. }
    rewrite Hstep. split.
    + apply mainLoop_keeps_sorted; [now apply processTag_wellFormed|].
      now exists c.
    + intros x Hx.
      apply mainLoop_keeps_url; [now apply processTag_wellFormed|].
      exists c. split; [exact Hc|]. now apply Hurls.
  - intros Hm.
    destruct (stored (mainLoop runs st) (run_tag run)) as [c|] eqn:Hc;
      [|reflexivity].
    exfalso. apply Hm. apply (mainLoop_mergeable runs).
    exact (stored_mergeable _ _ _ Hc).
Qed.

Lemma main_processed_tags_witness :
  (holdsSorted (mainLoop sampleRuns sampleState) "programming" /\
   forall x, In x [freshA; freshB] ->
             holdsUrl (mainLoop sampleRuns sampleState) "programming"
                      (url x)) /\
  stored (mainLoop (prototypeRun :: sampleRuns) sampleState) "constructor"
  = None.
Proof.
  split.
  - apply (proj1 (main_processed_tags sampleRuns sampleState
             {| run_tag := "programming";
                run_scrape := Returned [freshA; freshB];
                run_write := Thrown "EACCES" |} [freshA; freshB]
             sampleState_wellFormed (or_introl eq_refl) eq_refl)).
    unfold mergeable. vm_compute. discriminate.
  - apply (proj2 (main_processed_tags (prototypeRun :: sampleRuns)
             sampleState prototypeRun [freshA; freshB]
             sampleState_wellFormed (or_introl eq_refl) eq_refl)).
    unfold mergeable. vm_compute. intros H. now apply H.
Defined.




(** X24 ([normalizeArticleUrl], src/index.ts 158-168).  The query and
    the fragment of a link play no part in the normalised URL: two
    non-empty strings that the parser reads as URLs with the same scheme,
    credentials, host, port and path are normalised to the same string,
    which is what lets [mergeArticles] recognise an article that was
    linked with other tracking parameters. *)
Theorem normalizeArticleUrl_ignores_query parseURL (s1 s2 : string)
    (u1 u2 : URL) :
  s1 <> "" -> s2 <> "" ->
  parseURL s1 = Some u1 -> parseURL s2 = Some u2 ->
  sameResource u1 u2 ->
  normalizeArticleUrl parseURL (Some s1)
  = normalizeArticleUrl parseURL (Some s2).
Proof.
  intros H1 H2 P1 P2 (Hs & Hu & Hp & Hh & Hpo & Hpa).
  rewrite (normalizeArticleUrl_Some parseURL s1 u1 H1 P1).
  rewrite (normalizeArticleUrl_Some parseURL s2 u2 H2 P2).
  rewrite !cleared_form. now rewrite Hs, Hu, Hp, Hh, Hpo, Hpa.
Qed.

Lemma normalizeArticleUrl_ignores_query_witness :
  normalizeArticleUrl sampleParse
    (Some "https://medium.com/p/abc123?source=home#top")
  = normalizeArticleUrl sampleParse (Some "https://medium.com/p/abc123").
Proof.
  apply (normalizeArticleUrl_ignores_query sampleParse _ _
           (mediumURL (Some "source=home") (Some "top"))
           (mediumURL None None)).
  - discriminate.
  - discriminate.
  - reflexivity.
  - reflexivity.
  - repeat split.
Defined.
